(** * Control-plane core of the data coordinator and the streaming coordinator

    A shallow embedding of
    - [internal/datacoord/task_scheduler.go]  (the index/stats task scheduler),
    - [internal/datacoord/garbage_collector.go] (the garbage collector),
    - the channel manager of the streaming coordinator ([TryAssignToServerID],
      [AssignToServerDone], [AssignPChannels]),
    followed by the properties proved about them.

    Conventions.  A Go [int64] is a [Z]; where the code does arithmetic that
    can leave the 64-bit range the wrap-around is written out with
    [Int64.wrap].  A Go map is a [gmap]; the order in which a [range] loop
    visits its keys is not fixed by the language, so a function whose result
    depends on that order takes the order as an argument.  Calls that leave the
    process (worker RPCs, the meta store, the object store, the clock) are
    answered by an environment record over an abstract world state that is
    threaded through the calls. *)

From Stdlib Require Import ZArith Lia List Bool Ascii String Permutation.
From stdpp Require Import base option list gmap strings sorting.

Local Open Scope Z_scope.

(* ===================================================================== *)
(** * Part I: the embedding                                               *)
(* ===================================================================== *)

(** ** Machine integers and time *)

Module Int64.

Definition min_int : Z := - 2 ^ 63.
Definition max_int : Z := 2 ^ 63 - 1.

(** Two's-complement wrap-around of a 64-bit signed integer. *)
Definition wrap (z : Z) : Z := (z + 2 ^ 63) mod 2 ^ 64 - 2 ^ 63.

Definition in_range (z : Z) : Prop := min_int <= z <= max_int.

(** Saturation, as [time.Time.Sub] does when the difference of two instants
    does not fit a [time.Duration]. *)
Definition clamp (z : Z) : Z := Z.max min_int (Z.min max_int z).

End Int64.

(** [UniqueID], [Timestamp]: [int64] and [uint64] in the source. *)
Abbreviation UniqueID := Z.

(** A [time.Time] is the number of nanoseconds since the zero value
    [time.Time{}]; [Before] and [After] are the strict orders and [Add] is
    addition (a [time.Time] counts seconds in an [int64], so adding a
    [time.Duration] to an instant the clock can return does not overflow).
    A [time.Duration] is an [int64] count of nanoseconds. *)
Module GoTime.

Definition Time := Z.
Definition Duration := Z.

Definition zero : Time := 0.
(** The Unix epoch, in nanoseconds after the zero value (year 1). *)
Definition unix_epoch : Time := 62135596800 * 10 ^ 9.
(** [time.Unix(0, nsec)]. *)
Definition Unix_nano (nsec : Z) : Time := unix_epoch + nsec.
Definition Add (t : Time) (d : Duration) : Time := t + d.
Definition Before (t u : Time) : bool := t <? u.
Definition After (t u : Time) : bool := u <? t.
Definition Sub (t u : Time) : Duration := Int64.clamp (t - u).
(** [time.Since(t)] at an instant [now]. *)
Definition Since (now t : Time) : Duration := Sub now t.

End GoTime.

(** ** A state monad for code that calls out of the process *)

(** [M S A]: a computation over a state [S] returning an [A].  The hooks of the
    environment run over the world state; the scheduler's functions run over
    the scheduler's state, which contains the world. *)
Definition M (S A : Type) : Type := S -> A * S.

Definition ret {S A : Type} (a : A) : M S A := fun s => (a, s).

Definition bind {S A B : Type} (m : M S A) (k : A -> M S B) : M S B :=
  fun s => let (a, s') := m s in k a s'.

Notation "x <- m ;; k" := (bind m (fun x => k))
  (at level 100, m at next level, right associativity).

(* ===================================================================== *)
(** ** The task scheduler ([internal/datacoord/task_scheduler.go])        *)
(* ===================================================================== *)

Module Sched.

Import GoTime.

(** [indexpb.JobState]. *)
Inductive JobState : Type :=
  | JobStateNone
  | JobStateInit
  | JobStateInProgress
  | JobStateFinished
  | JobStateFailed
  | JobStateRetry.

#[global] Instance JobState_eq_dec : EqDecision JobState.
Proof. solve_decision. Defined.

(** The [Task] interface.  Its three implementations (index build, analyze,
    statistics) are not part of the scheduler's file; a task is the data the
    scheduler reads through the interface's getters.  The id and the slot cost
    have getters only ([GetTaskID], [GetTaskSlot]); the rest is the part the
    setters and the hooks below may change. *)
Record TaskBody : Type := mkBody {
  nodeID : UniqueID;
  state : JobState;
  failReason : string;
  queueTime : Time;
  startTime : Time;
  endTime : Time
}.

Record Task : Type := mkTask {
  taskID : UniqueID;
  taskSlot : Z;
  body : TaskBody
}.

Definition with_body (t : Task) (b : TaskBody) : Task :=
  mkTask (taskID t) (taskSlot t) b.

Definition GetState (t : Task) : JobState := state (body t).
Definition GetFailReason (t : Task) : string := failReason (body t).
Definition GetNodeID (t : Task) : UniqueID := nodeID (body t).

(** Modelled from the spec: the setters of the [Task] interface, whose
    implementations are not among the sources.  [SetState] records the state
    together with the failure reason ("transition the task to failed with
    reason canceled"); the time setters record queue, start and end time. *)
Definition SetState (st : JobState) (reason : string) (t : Task) : Task :=
  let b := body t in
  with_body t (mkBody (nodeID b) st reason (queueTime b) (startTime b) (endTime b)).

Definition SetQueueTime (now : Time) (t : Task) : Task :=
  let b := body t in
  with_body t (mkBody (nodeID b) (state b) (failReason b) now (startTime b) (endTime b)).

Definition SetStartTime (now : Time) (t : Task) : Task :=
  let b := body t in
  with_body t (mkBody (nodeID b) (state b) (failReason b) (queueTime b) now (endTime b)).

Definition SetEndTime (now : Time) (t : Task) : Task :=
  let b := body t in
  with_body t (mkBody (nodeID b) (state b) (failReason b) (queueTime b) (startTime b) now).

Definition SetNodeID (n : UniqueID) (t : Task) : Task :=
  let b := body t in
  with_body t (mkBody n (state b) (failReason b) (queueTime b) (startTime b) (endTime b)).

(** *** The pending queue ([schedulePolicy]) *)

(** Modelled from the spec: the implementation of [schedulePolicy]
    ([newFairQueuePolicy]) is not among the sources.  The scheduler addresses
    the queue by task id ([Get], [Exist], [Remove]), so the queue is a
    sequence of tasks with pairwise different ids: [Push] appends a task
    unless a task with its id is already queued, [Pop] takes the task queued
    longest ("breaking ties by oldest enqueue time"; the [Task] interface
    carries no fairness key, so there is one partition). *)
Module Queue.

Definition t : Type := list Task.

Definition Get (id : UniqueID) (q : t) : option Task :=
  List.find (fun x => Z.eqb (taskID x) id) q.

Definition Exist (id : UniqueID) (q : t) : bool :=
  match Get id q with Some _ => true | None => false end.

Definition Push (x : Task) (q : t) : t :=
  if Exist (taskID x) q then q else q ++ [x].

Definition Pop (q : t) : option (Task * t) :=
  match q with
  | [] => None
  | x :: q' => Some (x, q')
  end.

Definition Remove (id : UniqueID) (q : t) : t :=
  List.filter (fun x => negb (Z.eqb (taskID x) id)) q.

Definition TaskCount (q : t) : Z := Z.of_nat (length q).

Definition Keys (q : t) : list UniqueID := List.map taskID q.

End Queue.

(** *** The scheduler's collaborators *)

(** What the scheduler calls and does not implement: the clock, the worker
    manager ([nodeManager]) and the hooks of the [Task] interface, each a
    computation over the world state [W] (meta store, workers, time).  A hook
    that may change the task returns the task's new body; [ResetTask] is
    modelled from the spec ("reset: clear previous artifacts"): it returns the
    worker assignment the task is left with and does not touch the state or
    the failure reason.  Boolean results: [true] is success ([err == nil]). *)
Record Env (W : Type) : Type := mkEnv {
  Now : M W Time;
  QuerySlots : M W (gmap UniqueID Z);
  (** [(client != nil, exist)] *)
  GetClientByID : UniqueID -> M W (bool * bool);
  PreCheck : Task -> M W (bool * TaskBody);
  UpdateVersion : UniqueID -> Task -> M W (bool * TaskBody);
  AssignTask : Task -> M W (bool * TaskBody);
  UpdateMetaBuildingState : Task -> M W bool;
  DropTaskMeta : Task -> M W bool;
  SetJobInfo : Task -> M W bool;
  DropTaskOnWorker : Task -> M W bool;
  QueryResult : Task -> M W TaskBody;
  ResetTask : Task -> M W UniqueID
}.

Arguments Now {W} _.
Arguments QuerySlots {W} _.
Arguments GetClientByID {W} _ _.
Arguments PreCheck {W} _ _.
Arguments UpdateVersion {W} _ _ _.
Arguments AssignTask {W} _ _.
Arguments UpdateMetaBuildingState {W} _ _.
Arguments DropTaskMeta {W} _ _.
Arguments SetJobInfo {W} _ _.
Arguments DropTaskOnWorker {W} _ _.
Arguments QueryResult {W} _ _.
Arguments ResetTask {W} _ _.

(** [taskScheduler]: the pending queue, the running map and the world the
    collaborators live in.  ([notifyChan] only wakes the dispatch loop and
    the LRU of finished tasks is write-only here; neither is modelled.) *)
Record taskScheduler (W : Type) : Type := mkSched {
  pendingTasks : Queue.t;
  runningTasks : gmap UniqueID Task;
  world : W
}.

Arguments mkSched {W} _ _ _.
Arguments pendingTasks {W} _.
Arguments runningTasks {W} _.
Arguments world {W} _.

Section Scheduler.

Context {W : Type} (E : Env W).

#[local] Abbreviation S := (taskScheduler W).

(** A call to a collaborator from within the scheduler. *)
Definition call {A : Type} (m : M W A) : M S A :=
  fun s => let (a, w) := m (world s) in
           (a, mkSched (pendingTasks s) (runningTasks s) w).

Definition push (task : Task) : M S unit :=
  fun s => (tt, mkSched (Queue.Push task (pendingTasks s)) (runningTasks s) (world s)).

Definition insertRunning (task : Task) : M S unit :=
  fun s => (tt, mkSched (pendingTasks s) (<[taskID task := task]> (runningTasks s)) (world s)).

Definition removeRunning (id : UniqueID) : M S unit :=
  fun s => (tt, mkSched (pendingTasks s) (delete id (runningTasks s)) (world s)).

(** [exist]. *)
Definition exist (id : UniqueID) (s : S) : bool :=
  if Queue.Exist id (pendingTasks s) then true
  else match runningTasks s !! id with Some _ => true | None => false end.

(** [enqueue]: a task whose id is in the running map is not queued. *)
Definition enqueue (task : Task) : M S unit :=
  fun s =>
    match runningTasks s !! taskID task with
    | Some _ => (tt, s)
    | None => (now <- call (Now E) ;; push (SetQueueTime now task)) s
    end.

(** [AbortTask]. *)
Definition AbortTask (id : UniqueID) : M S unit :=
  fun s =>
    match Queue.Get id (pendingTasks s) with
    | Some task =>
        let task := SetState JobStateFailed "canceled" task in
        (tt, mkSched (Queue.Remove id (pendingTasks s))
                     (<[id := task]> (runningTasks s)) (world s))
    | None =>
        match runningTasks s !! id with
        | Some runningTask =>
            let runningTask := SetState JobStateFailed "canceled" runningTask in
            (tt, mkSched (pendingTasks s) (<[id := runningTask]> (runningTasks s)) (world s))
        | None => (tt, s)
        end
    end.

(** The [process*] functions return their boolean together with the task as
    they leave it (the source mutates the task through its pointer). *)

Definition processNone (task : Task) : M S (bool * Task) :=
  ok <- call (DropTaskMeta E task) ;;
  ret (ok, task).

Definition processInit (task : Task) (node : UniqueID) : M S (bool * Task) :=
  r <- call (PreCheck E task) ;;
  let task := with_body task (snd r) in
  if negb (fst r) then ret (true, task) else
  c <- call (GetClientByID E node) ;;
  if negb (snd c) || negb (fst c) then ret (false, task) else
  r <- call (UpdateVersion E node task) ;;
  let task := with_body task (snd r) in
  if negb (fst r) then ret (false, task) else
  r <- call (AssignTask E task) ;;
  let task := with_body task (snd r) in
  if negb (fst r) then ret (false, task) else
  ok <- call (UpdateMetaBuildingState E task) ;;
  if negb ok
  then ret (false, SetState JobStateRetry "update meta building state failed" task)
  else
  now <- call (Now E) ;;
  ret (true, SetStartTime now task).

Definition process (task : Task) (node : UniqueID) : M S (bool * Task) :=
  match GetState task with
  | JobStateNone => processNone task
  | JobStateInit => processInit task node
  | _ => ret (true, task)
  end.

Definition processFinished (task : Task) : M S (bool * Task) :=
  ok <- call (SetJobInfo E task) ;;
  if negb ok then ret (false, task) else
  now <- call (Now E) ;;
  let task := SetEndTime now task in
  c <- call (GetClientByID E (GetNodeID task)) ;;
  if snd c then
    ok <- call (DropTaskOnWorker E task) ;;
    if negb ok then ret (false, task) else ret (true, task)
  else ret (true, task).

(** The tail of [processRetry], reached when the worker is gone or the drop
    on the worker succeeded. *)
Definition processRetry_reset (task : Task) : M S (bool * Task) :=
  let task := SetState JobStateInit "" task in
  n <- call (ResetTask E task) ;;
  let task := SetNodeID n task in
  _ <- push task ;;
  ret (true, task).

Definition processRetry (task : Task) : M S (bool * Task) :=
  c <- call (GetClientByID E (GetNodeID task)) ;;
  if snd c then
    ok <- call (DropTaskOnWorker E task) ;;
    if negb ok then ret (false, task) else processRetry_reset task
  else processRetry_reset task.

Definition processInProgress (task : Task) : M S (bool * Task) :=
  c <- call (GetClientByID E (GetNodeID task)) ;;
  if snd c then
    b <- call (QueryResult E task) ;;
    let task := with_body task b in
    match GetState task with
    | JobStateFinished | JobStateFailed =>
        n <- call (ResetTask E task) ;;
        processFinished (SetNodeID n task)
    | _ => ret (false, task)
    end
  else ret (false, SetState JobStateRetry "node does not exist" task).

Definition checkProcessingTask (task : Task) : M S (bool * Task) :=
  match GetState task with
  | JobStateInProgress => processInProgress task
  | JobStateRetry => processRetry task
  | JobStateFinished | JobStateFailed => processFinished task
  | _ => ret (false, task)
  end.

(** The body of the goroutine [checkProcessingTasks] starts for a running
    task.  The map holds a pointer to the task, so what the check did to the
    task is what the map shows afterwards. *)
Definition checkProcessingTasks_body (id : UniqueID) : M S unit :=
  fun s =>
    match runningTasks s !! id with
    | None => (tt, s)
    | Some task =>
        (r <- checkProcessingTask task ;;
         if fst r then removeRunning id else insertRunning (snd r)) s
    end.

Fixpoint forM_ {A : Type} (f : A -> M S unit) (l : list A) : M S unit :=
  match l with
  | [] => ret tt
  | a :: l' => _ <- f a ;; forM_ f l'
  end.

(** [checkProcessingTasks]; [order] is the order in which the goroutines of
    the tasks returned by [Values()] take their turn. *)
Definition checkProcessingTasks (order : list UniqueID) : M S unit :=
  fun s =>
    if Z.of_nat (size (runningTasks s)) <=? 0 then (tt, s)
    else forM_ checkProcessingTasks_body order s.

End Scheduler.

(** *** Slot allocation *)

(** The snapshot [workerSlots] maps a node id to its [AvailableSlots] (the
    only field of [session.WorkerSlots] the scheduler reads or writes). *)

(** [hasAvailableSlots]. *)
Definition hasAvailableSlots (workerSlots : gmap UniqueID Z) : bool :=
  existsb (fun kv => 0 <? snd kv) (map_to_list workerSlots).

(** The [range] loop of [pickNode] over the keys still to visit, with the
    loop's two variables, followed by the code after the loop. *)
Fixpoint pickNode_range (order : list UniqueID) (workerSlots : gmap UniqueID Z)
    (taskSlot fallbackNodeID maxAvailable : Z) : UniqueID * gmap UniqueID Z :=
  match order with
  | [] =>
      if bool_decide (fallbackNodeID <> -1)
      then (fallbackNodeID, <[fallbackNodeID := 0]> workerSlots)
      else (-1, workerSlots)
  | node :: rest =>
      match workerSlots !! node with
      | None => pickNode_range rest workerSlots taskSlot fallbackNodeID maxAvailable
      | Some avail =>
          if taskSlot <=? avail
          then (node, <[node := Int64.wrap (avail - taskSlot)]> workerSlots)
          else if (maxAvailable <? avail) && (0 <? avail)
          then pickNode_range rest workerSlots taskSlot node avail
          else pickNode_range rest workerSlots taskSlot fallbackNodeID maxAvailable
      end
  end.

(** [pickNode]; [order] is the order in which the [range] loop visits the
    keys of the snapshot. *)
Definition pickNode (order : list UniqueID) (workerSlots : gmap UniqueID Z)
    (taskSlot : Z) : UniqueID * gmap UniqueID Z :=
  pickNode_range order workerSlots taskSlot (-1) (-1).

(** [order] is an order in which a [range] over the snapshot can visit its
    keys: each key once. *)
Definition range_order (order : list UniqueID) (workerSlots : gmap UniqueID Z) : Prop :=
  Permutation order (List.map fst (map_to_list workerSlots)).

(** A snapshot as the worker manager hands it out: node ids are ids of
    registered nodes (never the "no node" value -1) and the slot counts are
    [int64]s. *)
Definition wf_slots (workerSlots : gmap UniqueID Z) : Prop :=
  workerSlots !! (-1) = None
  /\ map_Forall (fun _ a => Int64.in_range a) workerSlots.

#[global] Instance wf_slots_dec (workerSlots : gmap UniqueID Z) : Decision (wf_slots workerSlots).
Proof. unfold wf_slots, Int64.in_range. apply _. Defined.

(** The three ways [pickNode] can end: with a node that fits, with the
    fallback node, with no node. *)
Inductive pick_outcome (ws : gmap UniqueID Z) (c : Z) : UniqueID * gmap UniqueID Z -> Prop :=
  | pick_fit n a :
      ws !! n = Some a -> c <= a ->
      pick_outcome ws c (n, <[n := Int64.wrap (a - c)]> ws)
  | pick_fallback n a :
      ws !! n = Some a -> a < c -> 0 < a -> n <> -1 ->
      pick_outcome ws c (n, <[n := 0]> ws)
  | pick_none :
      pick_outcome ws c (-1, ws).

(** *** One dispatch pass ([run]) *)

(** What one iteration of the loop of [run] decided: the task popped, its
    slot cost, the node [pickNode] returned and whether that node was taken
    as the fallback (its entry was below the cost when it was picked).  The
    list of these records is a history variable of the pass; the code keeps
    no such list. *)
Record Dispatch : Type := mkDispatch {
  dTask : UniqueID;
  dCost : Z;
  dNode : UniqueID;
  dFallback : bool
}.

(** The state of a pass: the scheduler, the slot snapshot the pass reserves
    in, the goroutines started and not yet finished (each with its task and
    node), whether the loop has left through one of its [break]s. *)
Record Pass (W : Type) : Type := mkPass {
  pSched : taskScheduler W;
  pSlots : gmap UniqueID Z;
  pInflight : list (Task * UniqueID);
  pBroken : bool;
  pTrace : list Dispatch
}.

Arguments mkPass {W} _ _ _ _ _.
Arguments pSched {W} _.
Arguments pSlots {W} _.
Arguments pInflight {W} _.
Arguments pBroken {W} _.
Arguments pTrace {W} _.

(** The pass interleaves the loop with the goroutines it started.  A schedule
    says who moves next: the loop, with the order its [pickNode] ranges in,
    or the goroutine holding a given task, which then runs to its end. *)
Inductive Event : Type :=
  | EvLoop (order : list UniqueID)
  | EvGoroutine (id : UniqueID).

Section Run.

Context {W : Type} (E : Env W).

#[local] Abbreviation S := (taskScheduler W).

(** The goroutine [run] starts for a popped task. *)
Definition run_goroutine (task : Task) (node : UniqueID) : M S unit :=
  r <- (if bool_decide (node <> -1) then process E task node else ret (true, task)) ;;
  let task := snd r in
  match GetState task with
  | JobStateNone =>
      r <- processNone E task ;;
      if negb (fst r) then push (snd r) else ret tt
  | JobStateInit => push task
  | _ => insertRunning task
  end.

(** One iteration of the loop of [run]. *)
Definition run_loop_iter (order : list UniqueID) (p : Pass W) : Pass W :=
  if pBroken p then p else
  if negb (hasAvailableSlots (pSlots p))
  then mkPass (pSched p) (pSlots p) (pInflight p) true (pTrace p)
  else
    match Queue.Pop (pendingTasks (pSched p)) with
    | None => mkPass (pSched p) (pSlots p) (pInflight p) true (pTrace p)
    | Some (task, q) =>
        let slot := taskSlot task in
        let r := pickNode order (pSlots p) slot in
        let fallback :=
          match pSlots p !! fst r with
          | Some avail => avail <? slot
          | None => false
          end in
        mkPass (mkSched q (runningTasks (pSched p)) (world (pSched p)))
               (snd r)
               (pInflight p ++ [(task, fst r)])
               false
               (pTrace p ++ [mkDispatch (taskID task) slot (fst r) fallback])
    end.

(** Splits off the first started goroutine that holds task [id]. *)
Fixpoint take_goroutine (id : UniqueID) (l : list (Task * UniqueID))
    : option ((Task * UniqueID) * list (Task * UniqueID)) :=
  match l with
  | [] => None
  | g :: l' =>
      if Z.eqb (taskID (fst g)) id then Some (g, l')
      else match take_goroutine id l' with
           | Some (g', r) => Some (g', g :: r)
           | None => None
           end
  end.

Definition run_event (p : Pass W) (ev : Event) : Pass W :=
  match ev with
  | EvLoop order => run_loop_iter order p
  | EvGoroutine id =>
      match take_goroutine id (pInflight p) with
      | None => p
      | Some (g, rest) =>
          let s := snd (run_goroutine (fst g) (snd g) (pSched p)) in
          mkPass s (pSlots p) rest (pBroken p) (pTrace p)
      end
  end.

(** [wg.Wait()]: the goroutines still running finish. *)
Fixpoint run_wait (l : list (Task * UniqueID)) : M S unit :=
  match l with
  | [] => ret tt
  | g :: l' => _ <- run_goroutine (fst g) (snd g) ;; run_wait l'
  end.

(** The pass from the snapshot [workerSlots] on, under a schedule. *)
Definition run_pass (workerSlots : gmap UniqueID Z) (sched : list Event) (s : S) : Pass W :=
  List.fold_left run_event sched (mkPass s workerSlots [] false []).

(** [run].  The result is [None] when the schedule ends while the loop is
    still going: such a schedule is a prefix of a pass, not a pass. *)
Definition run (sched : list Event) (s : S) : option S :=
  if Queue.TaskCount (pendingTasks s) =? 0 then Some s
  else
    let (workerSlots, s0) := call (QuerySlots E) s in
    let p := run_pass workerSlots sched s0 in
    if pBroken p then Some (snd (run_wait (pInflight p) (pSched p))) else None.

End Run.

(** *** A dispatch pass and the submissions that overlap it *)

(** [enqueue] takes neither a lock of the scheduler nor the lock of the task,
    and the goroutine [run] starts for a task holds the task's lock around
    [process] only: while a pass runs, another goroutine can call [enqueue]
    between any two of its steps.  A step of such a run is a step of the
    pass or a call of [enqueue], taken in one piece. *)
Inductive Step : Type :=
  | StepPass (ev : Event)
  | StepEnqueue (task : Task).

Definition run_step {W : Type} (E : Env W) (p : Pass W) (st : Step) : Pass W :=
  match st with
  | StepPass ev => run_event E p ev
  | StepEnqueue task =>
      mkPass (snd (enqueue E task (pSched p))) (pSlots p) (pInflight p) (pBroken p)
             (pTrace p)
  end.

(** [run] with the calls of [enqueue] that fall into it. *)
Definition run_overlapped {W : Type} (E : Env W) (steps : list Step) (s : taskScheduler W)
    : option (taskScheduler W) :=
  if Queue.TaskCount (pendingTasks s) =? 0 then Some s
  else
    let (workerSlots, s0) := call (QuerySlots E) s in
    let p := List.fold_left (run_step E) steps (mkPass s0 workerSlots [] false []) in
    if pBroken p then Some (snd (run_wait E (pInflight p) (pSched p))) else None.

(** *** The tasks [DropTaskMeta] let go *)

(** A hook of the collaborators, over a world that carries a list of tasks
    beside it and leaves the list alone. *)
Definition with_log {W A : Type} (m : M W A) : M (W * list Task) A :=
  fun wl => let (a, w) := m (fst wl) in (a, (w, snd wl)).

(** The collaborators [E] with a history variable: the world carries, beside
    the world of [E], the tasks on which [DropTaskMeta] succeeded, in the
    order of the calls.  Every hook answers, and changes the world of [E], as
    it does in [E]. *)
Definition logged {W : Type} (E : Env W) : Env (W * list Task) :=
  mkEnv (W * list Task)
    (with_log (Now E))
    (with_log (QuerySlots E))
    (fun n => with_log (GetClientByID E n))
    (fun t => with_log (PreCheck E t))
    (fun n t => with_log (UpdateVersion E n t))
    (fun t => with_log (AssignTask E t))
    (fun t => with_log (UpdateMetaBuildingState E t))
    (fun t wl =>
       let (ok, w) := DropTaskMeta E t (fst wl) in
       (ok, (w, if ok then snd wl ++ [t] else snd wl)))
    (fun t => with_log (SetJobInfo E t))
    (fun t => with_log (DropTaskOnWorker E t))
    (fun t => with_log (QueryResult E t))
    (fun t => with_log (ResetTask E t)).

(** The scheduler without the history variable. *)
Definition erase {W : Type} (s : taskScheduler (W * list Task)) : taskScheduler W :=
  mkSched (pendingTasks s) (runningTasks s) (fst (world s)).

(** From [s] to [s'] the list of the tasks let go has grown at its end. *)
Definition log_grows {W : Type} (s s' : taskScheduler (W * list Task)) : Prop :=
  exists new, snd (world s') = snd (world s) ++ new.

(** Between [s] and [s'], [DropTaskMeta] succeeded on a task with this id,
    in state none. *)
Definition let_go {W : Type} (s s' : taskScheduler (W * list Task)) (id : UniqueID) : Prop :=
  exists new t,
    snd (world s') = snd (world s) ++ new
    /\ In t new /\ taskID t = id /\ GetState t = JobStateNone.

(** *** What the properties speak of *)

Definition in_pending {W : Type} (id : UniqueID) (s : taskScheduler W) : bool :=
  Queue.Exist id (pendingTasks s).

Definition in_running {W : Type} (id : UniqueID) (s : taskScheduler W) : bool :=
  match runningTasks s !! id with Some _ => true | None => false end.

(** The representation invariant of the scheduler: the queue holds an id at
    most once, the running map files a task under its own id, and no queued
    id is in the running map. *)
Definition sched_inv {W : Type} (s : taskScheduler W) : Prop :=
  List.NoDup (Queue.Keys (pendingTasks s))
  /\ (forall id t, runningTasks s !! id = Some t -> taskID t = id)
  /\ (forall id, In id (Queue.Keys (pendingTasks s)) -> runningTasks s !! id = None).

(** [t'] is the task [t] after the scheduler worked on it: the same id and
    the same slot cost.  [frame s s']: queue and running map are unchanged. *)
Definition same_task (t t' : Task) : Prop :=
  taskID t' = taskID t /\ taskSlot t' = taskSlot t.

Definition frame {W : Type} (s s' : taskScheduler W) : Prop :=
  pendingTasks s' = pendingTasks s /\ runningTasks s' = runningTasks s.

(** The slot cost a pass has reserved on node [n] for tasks that fitted, and
    the number of tasks it gave to [n] as the fallback. *)
Definition nonfallback_cost (n : UniqueID) (trace : list Dispatch) : Z :=
  List.fold_right Z.add 0
    (List.map dCost
       (List.filter (fun d => Z.eqb (dNode d) n && negb (dFallback d)) trace)).

Definition fallback_count (n : UniqueID) (trace : list Dispatch) : nat :=
  length (List.filter (fun d => Z.eqb (dNode d) n && dFallback d) trace).

(** The invariants of a dispatch pass.  [flight_inv]: the ids queued and the
    ids held by running goroutines are pairwise different and none of them is
    in the running map.  [costs_nonneg]: slot costs are not negative.
    [node_inv n a0]: how the entry of node [n], which started the pass at
    [a0], relates to what the pass has given to [n] so far. *)
Definition flight_ids (l : list (Task * UniqueID)) : list UniqueID :=
  List.map (fun g => taskID (fst g)) l.

Definition flight_inv {W : Type} (s : taskScheduler W) (l : list (Task * UniqueID)) : Prop :=
  List.NoDup (Queue.Keys (pendingTasks s) ++ flight_ids l)
  /\ (forall id t, runningTasks s !! id = Some t -> taskID t = id)
  /\ (forall id, In id (Queue.Keys (pendingTasks s) ++ flight_ids l) ->
                 runningTasks s !! id = None).

Definition costs_nonneg {W : Type} (p : Pass W) : Prop :=
  (forall t, In t (pendingTasks (pSched p)) -> 0 <= taskSlot t)
  /\ (forall g, In g (pInflight p) -> 0 <= taskSlot (fst g)).

Definition node_inv (n : UniqueID) (a0 : Z) (slots : gmap UniqueID Z)
    (trace : list Dispatch) : Prop :=
  exists avail, slots !! n = Some avail
    /\ 0 <= nonfallback_cost n trace
    /\ ((fallback_count n trace = 0%nat
         /\ avail = a0 - nonfallback_cost n trace
         /\ (nonfallback_cost n trace = 0 \/ 0 <= avail))
        \/ (fallback_count n trace = 1%nat /\ avail = 0
            /\ nonfallback_cost n trace <= a0)).

(** *** What the properties of a pass speak of *)

(** A task the dispatch loop has still to work on: its state is none or
    init. *)
Definition waiting (t : Task) : Prop :=
  GetState t = JobStateNone \/ GetState t = JobStateInit.

(** The free slots of a snapshot: the sum of its positive entries. *)
Definition free_slots (workerSlots : gmap UniqueID Z) : Z :=
  List.fold_right Z.add 0 (List.map (fun kv => Z.max 0 (snd kv)) (map_to_list workerSlots)).

(** The number of tasks a pass has given to a node ([pickNode] did not
    return -1 for them). *)
Definition dispatched (trace : list Dispatch) : Z :=
  Z.of_nat (length (List.filter (fun d => negb (Z.eqb (dNode d) (-1))) trace)).

(** Every task of the pass, queued or held by a goroutine, costs at least one
    slot. *)
Definition costs_pos {W : Type} (p : Pass W) : Prop :=
  (forall t, In t (pendingTasks (pSched p)) -> 1 <= taskSlot t)
  /\ (forall g, In g (pInflight p) -> 1 <= taskSlot (fst g)).

(** The ids a pass has in its hands: queued, held by a goroutine, or in the
    running map. *)
Definition in_pass {W : Type} (p : Pass W) (id : UniqueID) : Prop :=
  In id (Queue.Keys (pendingTasks (pSched p)))
  \/ In id (flight_ids (pInflight p))
  \/ is_Some (runningTasks (pSched p) !! id).

(** What a dispatch pass that started in [s] has done to the tasks when the
    scheduler is [sp]: the entries of the running map are still there, an
    entry that was not there is a task that no longer waits, and a queued task
    that was not queued waits. *)
Definition pass_tasks {W : Type} (s sp : taskScheduler W) : Prop :=
  (forall id t, runningTasks s !! id = Some t -> runningTasks sp !! id = Some t)
  /\ (forall id t, runningTasks sp !! id = Some t ->
        runningTasks s !! id = Some t \/ ~ waiting t)
  /\ (forall t, In t (pendingTasks sp) -> In t (pendingTasks s) \/ waiting t).

(** What a polling pass has done from [s] to [s']: it appended tasks to the
    queue, each in state init and taken out of the running map, and it put no
    new id into the running map. *)
Definition polled {W : Type} (s s' : taskScheduler W) : Prop :=
  (exists new, pendingTasks s' = pendingTasks s ++ new
     /\ forall t, In t new ->
          GetState t = JobStateInit
          /\ is_Some (runningTasks s !! taskID t)
          /\ runningTasks s' !! taskID t = None)
  /\ (forall id, is_Some (runningTasks s' !! id) -> is_Some (runningTasks s !! id)).

End Sched.

(* ===================================================================== *)
(** ** Reloading the scheduler from the meta ([reloadFromMeta])            *)
(* ===================================================================== *)

Module SchedReload.

Import GoTime Sched.

(** [commonpb.IndexState]. *)
Inductive IndexState : Type :=
  | IndexState_IndexStateNone
  | IndexState_Unissued
  | IndexState_InProgress
  | IndexState_Finished
  | IndexState_Failed
  | IndexState_Retry.

(** Modelled from the spec: the task types and their getters are not among
    the sources.  As in [Sched], a task is its id, its slot cost and the
    node, state, fail reason and times that the getters read from its
    [taskInfo]; a task of each kind has one state of "{none, init,
    in-progress, retry, finished, failed}".  The [taskInfo] of an index build
    task holds an index state: it is read as the job state of the same name,
    unissued as init. *)
Definition JobState_of_IndexState (st : IndexState) : JobState :=
  match st with
  | IndexState_IndexStateNone => JobStateNone
  | IndexState_Unissued => JobStateInit
  | IndexState_InProgress => JobStateInProgress
  | IndexState_Finished => JobStateFinished
  | IndexState_Failed => JobStateFailed
  | IndexState_Retry => JobStateRetry
  end.

(** The segments and the three task metas, as far as [reloadFromMeta] reads
    them. *)
Record SegmentMeta : Type := mkSegmentMeta {
  SegCollectionID : UniqueID;
  SegID : UniqueID;
  SegSize : Z
}.

Record SegmentIndex : Type := mkSegmentIndex {
  BuildID : UniqueID;
  SegIndexNodeID : UniqueID;
  SegIndexState : IndexState;
  SegIndexFailReason : string;
  IsDeleted : bool
}.

Record AnalyzeTask : Type := mkAnalyzeTask {
  AnalyzeNodeID : UniqueID;
  AnalyzeState : JobState;
  AnalyzeFailReason : string
}.

Record StatsTask : Type := mkStatsTask {
  StatsTaskID : UniqueID;
  StatsSegmentID : UniqueID;
  StatsInsertChannel : string;
  StatsNodeID : UniqueID;
  StatsState : JobState;
  StatsFailReason : string
}.

(** What [reloadFromMeta] calls and does not implement, over the world state
    [W].  The maps of analyze and stats tasks come as the list of their
    entries in the order the [range] visits them.  [GetHealthySegment] gives
    the size of the segment, [None] for nil;
    [CheckAndSetSegmentsCompacting] gives [(exist, canDo)]; [true] is
    success.  [analyzeTaskSlot] is what [GetTaskSlot] answers for an analyze
    task, whose literal sets no slot. *)
Record Env (W : Type) : Type := mkEnv {
  GetAllSegmentsUnsafe : M W (list SegmentMeta);
  GetSegmentIndexes : UniqueID -> UniqueID -> M W (list SegmentIndex);
  calculateIndexTaskSlot : Z -> Z;
  calculateStatsTaskSlot : Z -> Z;
  analyzeTaskSlot : Z;
  GetAllAnalyzeTasks : M W (list (UniqueID * AnalyzeTask));
  GetAllStatsTasks : M W (list (UniqueID * StatsTask));
  GetHealthySegment : UniqueID -> M W (option Z);
  CheckAndSetSegmentsCompacting : UniqueID -> M W (bool * bool);
  DropStatsTask : UniqueID -> M W bool;
  checkAndSetSegmentStating : string -> UniqueID -> M W bool;
  SetSegmentsCompacting : UniqueID -> bool -> M W unit
}.

Arguments GetAllSegmentsUnsafe {W} _.
Arguments GetSegmentIndexes {W} _ _ _.
Arguments calculateIndexTaskSlot {W} _ _.
Arguments calculateStatsTaskSlot {W} _ _.
Arguments analyzeTaskSlot {W} _.
Arguments GetAllAnalyzeTasks {W} _.
Arguments GetAllStatsTasks {W} _.
Arguments GetHealthySegment {W} _ _.
Arguments CheckAndSetSegmentsCompacting {W} _ _.
Arguments DropStatsTask {W} _ _.
Arguments checkAndSetSegmentStating {W} _ _ _.
Arguments SetSegmentsCompacting {W} _ _ _.

Section Reload.

Context {W : Type} (E : Sched.Env W) (R : Env W).

#[local] Abbreviation S := (taskScheduler W).

(** The task of a literal: the three [time.Now()] are read in the order of
    the fields. *)
Definition newTask (id : UniqueID) (slot : Z) (node : UniqueID) (st : JobState)
    (reason : string) : M S Task :=
  queueTime <- call (Now E) ;;
  startTime <- call (Now E) ;;
  endTime <- call (Now E) ;;
  ret (mkTask id slot (mkBody node st reason queueTime startTime endTime)).

(** The body of the inner loop over the segment indexes of a segment. *)
Definition reloadSegmentIndex (segment : SegmentMeta) (segIndex : SegmentIndex) : M S unit :=
  if IsDeleted segIndex then ret tt else
  task <- newTask (BuildID segIndex)
            (calculateIndexTaskSlot R (SegSize segment))
            (SegIndexNodeID segIndex)
            (JobState_of_IndexState (SegIndexState segIndex))
            (SegIndexFailReason segIndex) ;;
  match SegIndexState segIndex with
  | IndexState_IndexStateNone | IndexState_Unissued => push task
  | IndexState_InProgress | IndexState_Retry =>
      insertRunning task
  | _ => ret tt
  end.

Definition reloadSegment (segment : SegmentMeta) : M S unit :=
  segIndexes <- call (GetSegmentIndexes R (SegCollectionID segment) (SegID segment)) ;;
  forM_ (reloadSegmentIndex segment) segIndexes.

(** The body of the loop over the analyze tasks. *)
Definition reloadAnalyzeTask (entry : UniqueID * AnalyzeTask) : M S unit :=
  let taskID := fst entry in
  let t := snd entry in
  task <- newTask taskID (analyzeTaskSlot R) (AnalyzeNodeID t) (AnalyzeState t)
            (AnalyzeFailReason t) ;;
  match AnalyzeState t with
  | JobStateNone | JobStateInit => push task
  | JobStateInProgress | JobStateRetry => insertRunning task
  | _ => ret tt
  end.

(** The body of the loop over the stats tasks.  The three ways through the
    in-progress case: the task is dropped from the meta ([continue]), it is
    set to failed, or it stays as it is; in the last two it goes to the
    running map. *)
Definition reloadStatsTask (entry : UniqueID * StatsTask) : M S unit :=
  let taskID := fst entry in
  let t := snd entry in
  segment <- call (GetHealthySegment R (StatsSegmentID t)) ;;
  let slot :=
    match segment with
    | Some size => calculateStatsTaskSlot R size
    | None => 0
    end in
  task <- newTask taskID slot (StatsNodeID t) (StatsState t) (StatsFailReason t) ;;
  match StatsState t with
  | JobStateNone | JobStateInit => push task
  | JobStateInProgress | JobStateRetry =>
      r <- call (CheckAndSetSegmentsCompacting R (StatsSegmentID t)) ;;
      if negb (fst r) || negb (snd r) then
        ok <- call (DropStatsTask R (StatsTaskID t)) ;;
        if ok then ret tt
        else insertRunning
               (SetState JobStateFailed "segment is not exist or is compacting" task)
      else
        stating <- call (checkAndSetSegmentStating R (StatsInsertChannel t) (StatsSegmentID t)) ;;
        if negb stating then
          _ <- call (SetSegmentsCompacting R (StatsSegmentID t) false) ;;
          ok <- call (DropStatsTask R (StatsTaskID t)) ;;
          if ok then ret tt
          else insertRunning
                 (SetState JobStateFailed "segment is not exist or is l0 compacting" task)
        else insertRunning task
  | _ => ret tt
  end.

(** [reloadFromMeta]. *)
Definition reloadFromMeta : M S unit :=
  segments <- call (GetAllSegmentsUnsafe R) ;;
  _ <- forM_ reloadSegment segments ;;
  allAnalyzeTasks <- call (GetAllAnalyzeTasks R) ;;
  _ <- forM_ reloadAnalyzeTask allAnalyzeTasks ;;
  allStatsTasks <- call (GetAllStatsTasks R) ;;
  forM_ reloadStatsTask allStatsTasks.

(** [newTaskScheduler], as far as the queue and the running map go: both
    start empty and are filled by [reloadFromMeta]. *)
Definition newTaskScheduler (w : W) : S :=
  snd (reloadFromMeta (mkSched [] ∅ w)).

End Reload.

(** What holds of the tasks after a reload: a queued task waits for
    dispatch, a task in the running map is in progress, to be retried, or
    failed. *)
Definition reloaded {W : Type} (s : taskScheduler W) : Prop :=
  List.NoDup (Queue.Keys (pendingTasks s))
  /\ (forall t, In t (pendingTasks s) -> waiting t)
  /\ (forall id t, runningTasks s !! id = Some t ->
        taskID t = id
        /\ (GetState t = JobStateInProgress \/ GetState t = JobStateRetry
            \/ GetState t = JobStateFailed)).

(** The computation keeps [reloaded]. *)
Definition reloads {W A : Type} (m : M (taskScheduler W) A) : Prop :=
  forall s, reloaded s -> reloaded (snd (m s)).

End SchedReload.

(* ===================================================================== *)
(** ** The channel manager of the streaming coordinator                   *)
(* ===================================================================== *)

Module Channel.

(** [AccessMode] ([AccessMode_RO = 0], [AccessMode_RW = 1]). *)
Inductive AccessMode : Type := AccessMode_RO | AccessMode_RW.

(** [PChannelMetaState]. *)
Inductive PChannelMetaState : Type :=
  | PCHANNEL_META_STATE_UNINITIALIZED
  | PCHANNEL_META_STATE_ASSIGNING
  | PCHANNEL_META_STATE_ASSIGNED
  | PCHANNEL_META_STATE_UNAVAILABLE.

#[global] Instance AccessMode_eq_dec : EqDecision AccessMode.
Proof. solve_decision. Defined.

#[global] Instance PChannelMetaState_eq_dec : EqDecision PChannelMetaState.
Proof. solve_decision. Defined.

Record PChannelInfo : Type := mkPChannelInfo {
  Name : string;
  Term : Z;
  AccessMode_ : AccessMode
}.

(** [types.StreamingNodeInfo] / [StreamingNodeInfo]: the server id and the
    address of a streaming node. *)
Record StreamingNodeInfo : Type := mkStreamingNodeInfo {
  ServerID : Z;
  Address : string
}.

Record PChannelAssignmentLog : Type := mkPChannelAssignmentLog {
  LogTerm : Z;
  LogNode : option StreamingNodeInfo;
  LogAccessMode : AccessMode
}.

(** [PChannelMeta] (the [inner] proto message; [Node] may be [nil]). *)
Record PChannelMeta : Type := mkPChannelMeta {
  Channel : PChannelInfo;
  Node : option StreamingNodeInfo;
  State : PChannelMetaState;
  Histories : list PChannelAssignmentLog;
  LastAssignTimestampSeconds : Z
}.

Definition ChannelInfo (m : PChannelMeta) : PChannelInfo := Channel m.

(** Modelled from the spec: [CurrentServerID] is called and not defined in the
    sources; it is the id of the "current assignee node", read through the
    proto getters, which give 0 for a channel that has no node yet. *)
Definition CurrentServerID (m : PChannelMeta) : Z :=
  match Node m with
  | Some n => ServerID n
  | None => 0
  end.

Definition IsAssigned (m : PChannelMeta) : bool :=
  bool_decide (State m = PCHANNEL_META_STATE_ASSIGNED).

(** [TryAssignToServerID]: the boolean result with the channel as the call
    leaves it.  [Term++] is on an [int64]. *)
Definition TryAssignToServerID (accessMode : AccessMode) (streamingNode : StreamingNodeInfo)
    (m : PChannelMeta) : bool * PChannelMeta :=
  if bool_decide (AccessMode_ (ChannelInfo m) = accessMode)
     && (CurrentServerID m =? ServerID streamingNode)
     && bool_decide (State m = PCHANNEL_META_STATE_ASSIGNED)
  then (false, m)
  else
    let histories :=
      if bool_decide (State m <> PCHANNEL_META_STATE_UNINITIALIZED)
      then Histories m ++
           [mkPChannelAssignmentLog (Term (Channel m)) (Node m) (AccessMode_ (Channel m))]
      else Histories m in
    (true,
     mkPChannelMeta
       (mkPChannelInfo (Name (Channel m)) (Int64.wrap (Term (Channel m) + 1)) accessMode)
       (Some streamingNode)
       PCHANNEL_META_STATE_ASSIGNING
       histories
       (LastAssignTimestampSeconds m)).

(** [AssignToServerDone]; [nowSeconds] is [uint64(time.Now().Unix())]. *)
Definition AssignToServerDone (nowSeconds : Z) (m : PChannelMeta) : PChannelMeta :=
  if bool_decide (State m = PCHANNEL_META_STATE_ASSIGNING)
  then mkPChannelMeta (Channel m) (Node m) PCHANNEL_META_STATE_ASSIGNED [] nowSeconds
  else m.

(** [typeutil.VersionInt64Pair]. *)
Record VersionInt64Pair : Type := mkVersion {
  Global : Z;
  Local : Z
}.

(** [ChannelID]: the channel name.  [types.PChannelInfoAssigned]: the channel
    info (of which [AssignPChannels] reads the access mode) and the node. *)
Abbreviation ChannelID := string.

Record PChannelInfoAssigned : Type := mkAssigned {
  AssignedChannel : PChannelInfo;
  AssignedNode : StreamingNodeInfo
}.

(** [ChannelManager]: the channel map, the version, and the records written
    to the catalog, oldest first.  (The condition variable, the metrics and
    the streaming-version notifiers take no part in assignment.) *)
Record ChannelManager : Type := mkManager {
  channels : gmap ChannelID PChannelMeta;
  version : VersionInt64Pair;
  persisted : list PChannelMeta
}.

Inductive AssignError : Type :=
  | ErrChannelNotExist
  | ErrPersist.

(** Modelled from the spec: [persistAssignment] is called and not defined in
    the sources ("the record is persisted via C1").  [persistFails] says for
    which records the catalog returns an error; a record that is saved is
    appended to [persisted]. *)
Definition persistAssignment (persistFails : PChannelMeta -> bool) (m : PChannelMeta)
    (cm : ChannelManager) : bool * ChannelManager :=
  if persistFails m then (false, cm)
  else (true, mkManager (channels cm) (version cm) (persisted cm ++ [m])).

(** The loop of [AssignPChannels] over the entries of [updates] in the order
    the [range] visits them.  An error returns at once, with what the loop has
    done so far left in place. *)
Fixpoint AssignPChannels_range (persistFails : PChannelMeta -> bool)
    (updates : list (ChannelID * PChannelInfoAssigned)) (cm : ChannelManager)
    : option AssignError * ChannelManager :=
  match updates with
  | [] => (None, cm)
  | (id, update) :: rest =>
      match channels cm !! id with
      | None => (Some ErrChannelNotExist, cm)
      | Some channel =>
          let (changed, mutableChannel) :=
            TryAssignToServerID (AccessMode_ (AssignedChannel update)) (AssignedNode update)
                                channel in
          if changed then
            let cm1 := mkManager (<[id := mutableChannel]> (channels cm))
                                 (version cm) (persisted cm) in
            let (ok, cm2) := persistAssignment persistFails mutableChannel cm1 in
            if ok then AssignPChannels_range persistFails rest cm2
            else (Some ErrPersist, cm2)
          else AssignPChannels_range persistFails rest cm
      end
  end.

(** [AssignPChannels]; [updates] lists the entries of the map argument in the
    order the loop visits them.  [version.Local++] is on an [int64]. *)
Definition AssignPChannels (persistFails : PChannelMeta -> bool)
    (updates : list (ChannelID * PChannelInfoAssigned)) (cm : ChannelManager)
    : option AssignError * ChannelManager :=
  match AssignPChannels_range persistFails updates cm with
  | (None, cm') =>
      (None,
       mkManager (channels cm')
                 (mkVersion (Global (version cm')) (Int64.wrap (Local (version cm') + 1)))
                 (persisted cm'))
  | (Some e, cm') => (Some e, cm')
  end.

(** Modelled from the spec: the manager's confirmation is not among the
    sources ("confirm(channel): called when the target node has acknowledged
    ownership: clears history, state -> assigned, timestamps"); on each of
    the channels named it applies the source's [AssignToServerDone]. *)
Definition confirm_channel (nowSeconds : Z) (chs : gmap ChannelID PChannelMeta)
    (id : ChannelID) : gmap ChannelID PChannelMeta :=
  match chs !! id with
  | Some m => <[id := AssignToServerDone nowSeconds m]> chs
  | None => chs
  end.

Definition confirm (nowSeconds : Z) (ids : list ChannelID) (cm : ChannelManager)
    : ChannelManager :=
  mkManager (List.fold_left (confirm_channel nowSeconds) ids (channels cm))
            (version cm) (persisted cm).

(** The two operations on one channel, for stating what every sequence of
    them preserves. *)
Inductive ChannelOp : Type :=
  | OpTryAssign (accessMode : AccessMode) (streamingNode : StreamingNodeInfo)
  | OpAssignDone (nowSeconds : Z).

Definition apply_op (m : PChannelMeta) (op : ChannelOp) : PChannelMeta :=
  match op with
  | OpTryAssign accessMode node => snd (TryAssignToServerID accessMode node m)
  | OpAssignDone now => AssignToServerDone now m
  end.

(** The update [u] is what channel [m] already has. *)
Definition matches (u : PChannelInfoAssigned) (m : PChannelMeta) : Prop :=
  AccessMode_ (Channel m) = AccessMode_ (AssignedChannel u)
  /\ CurrentServerID m = ServerID (AssignedNode u).

(** The invariant: the current term is above the term of every history entry. *)
Definition term_above_history (m : PChannelMeta) : Prop :=
  Forall (fun h => LogTerm h < Term (Channel m)) (Histories m).

(** *** Looking up, recovering, and the streaming-enabled notifiers *)

(** Modelled from the spec: [IsAssigned], which [FindPChannelNodeLocation]
    calls, is not defined in the sources; a channel is located when its
    "state == assigned", which is [IsAssigned] above.  The rest is
    [FindPChannelNodeLocation] as the source has it. *)
Definition FindPChannelNodeLocation (channel : ChannelID) (cm : ChannelManager) : Z * bool :=
  match channels cm !! channel with
  | Some meta => if IsAssigned meta then (CurrentServerID meta, true) else (-1, false)
  | None => (-1, false)
  end.

(** What the loop of [AssignPChannels] does with the entry [u] of the batch
    on the record [m] it finds under the entry's id. *)
Definition assigned_entry (u : PChannelInfoAssigned) (m : PChannelMeta) : bool * PChannelMeta :=
  TryAssignToServerID (AccessMode_ (AssignedChannel u)) (AssignedNode u) m.

(** Modelled from the spec: [ChannelID()] is called and not defined in the
    sources; "created on first observation of a channel name", a channel is
    known by its name. *)
Definition ChannelID_of (m : PChannelMeta) : ChannelID := Name (Channel m).

Section Recover.

(** [newPChannelMeta] is called and not defined in the sources: the
    functions below take it as they find it. *)
Context (newPChannelMeta : string -> AccessMode -> PChannelMeta).

(** The first loop of [recoverFromConfigurationAndMeta], over the records of
    the catalog ([newPChannelMetaFromProto] wraps the record). *)
Definition recoverFromMeta (channelMetas : list PChannelMeta) : gmap ChannelID PChannelMeta :=
  List.fold_left (fun channels c => <[ChannelID_of c := c]> channels) channelMetas ∅.

(** The second loop, over the channels of the configuration;
    [streamingVersion] is [None] for nil. *)
Definition recoverFromConfiguration (streamingVersion : option Z)
    (incomingChannel : list string) (channels : gmap ChannelID PChannelMeta)
    : gmap ChannelID PChannelMeta :=
  List.fold_left
    (fun channels newChannel =>
       let c :=
         match streamingVersion with
         | None => newPChannelMeta newChannel AccessMode_RO
         | Some _ => newPChannelMeta newChannel AccessMode_RW
         end in
       match channels !! ChannelID_of c with
       | Some _ => channels
       | None => <[ChannelID_of c := c]> channels
       end)
    incomingChannel channels.

(** [recoverFromConfigurationAndMeta]; [listed] is what [ListPChannel]
    returned, [None] for an error. *)
Definition recoverFromConfigurationAndMeta (listed : option (list PChannelMeta))
    (streamingVersion : option Z) (incomingChannel : list string)
    : option (gmap ChannelID PChannelMeta) :=
  match listed with
  | None => None
  | Some channelMetas =>
      Some (recoverFromConfiguration streamingVersion incomingChannel
              (recoverFromMeta channelMetas))
  end.

End Recover.

(** The access mode a channel of the configuration is created with. *)
Definition recovered_mode (streamingVersion : option Z) : AccessMode :=
  match streamingVersion with None => AccessMode_RO | Some _ => AccessMode_RW end.

(** The part of [ChannelManager] that [RegisterStreamingEnabledNotifier] and
    [MarkStreamingHasEnabled] work on: the streaming version ([None] for nil)
    and the notifiers that wait, with two history variables: the notifiers on
    which [Cancel] was called and the versions that were saved, oldest first.
    A notifier is known by a number. *)
Record StreamingEnable : Type := mkStreamingEnable {
  streamingVersion : option Z;
  streamingEnableNotifiers : list Z;
  cancelCalls : list Z;
  savedVersions : list Z
}.

(** [RegisterStreamingEnabledNotifier]. *)
Definition RegisterStreamingEnabledNotifier (notifier : Z) (cm : StreamingEnable)
    : StreamingEnable :=
  match streamingVersion cm with
  | Some _ =>
      mkStreamingEnable (streamingVersion cm) (streamingEnableNotifiers cm)
                        (cancelCalls cm ++ [notifier]) (savedVersions cm)
  | None =>
      mkStreamingEnable (streamingVersion cm) (streamingEnableNotifiers cm ++ [notifier])
                        (cancelCalls cm) (savedVersions cm)
  end.

(** [MarkStreamingHasEnabled]; [saved] says whether [retry.Do] came back
    without an error (with [retry.AttemptAlways] it calls [SaveVersion] until
    the call succeeds or the context is done).  The boolean of the result is
    [true] for a nil error.  [BlockUntilFinish] waits and changes nothing. *)
Definition MarkStreamingHasEnabled (saved : bool) (cm : StreamingEnable)
    : bool * StreamingEnable :=
  let cm1 := mkStreamingEnable (Some 1) (streamingEnableNotifiers cm)
                               (cancelCalls cm) (savedVersions cm) in
  if negb saved then (false, cm1)
  else (true,
        mkStreamingEnable (Some 1) []
                          (cancelCalls cm1 ++ streamingEnableNotifiers cm1)
                          (savedVersions cm1 ++ [1])).

(** The two operations, for stating what every sequence of them leaves. *)
Inductive EnableOp : Type :=
  | OpRegister (notifier : Z)
  | OpMark (saved : bool).

Definition enable_op (cm : StreamingEnable) (op : EnableOp) : StreamingEnable :=
  match op with
  | OpRegister notifier => RegisterStreamingEnabledNotifier notifier cm
  | OpMark saved => snd (MarkStreamingHasEnabled saved cm)
  end.

(** The notifiers a sequence of operations registers. *)
Definition registered (ops : list EnableOp) : list Z :=
  omap (fun op => match op with OpRegister n => Some n | OpMark _ => None end) ops.

(** The manager as [RecoverChannelManager] leaves it when the catalog holds
    no streaming version: [streamingVersion] is nil and no notifier waits. *)
Definition fresh_enable : StreamingEnable := mkStreamingEnable None [] [] [].

End Channel.

(* ===================================================================== *)
(** ** The garbage collector ([internal/datacoord/garbage_collector.go])  *)
(* ===================================================================== *)

Module Gc.

Import GoTime.

(** [commonpb.SegmentState]. *)
Inductive SegmentState : Type :=
  | SegmentStateNone
  | NotExist
  | Growing
  | Sealed
  | Flushed
  | Flushing
  | Dropped
  | Importing.

#[global] Instance SegmentState_eq_dec : EqDecision SegmentState.
Proof. solve_decision. Defined.

(** [datapb.Binlog] and [datapb.FieldBinlog], as far as the collector reads
    them. *)
Record Binlog : Type := mkBinlog { LogPath : string }.

Record FieldBinlog : Type := mkFieldBinlog {
  FieldID : Z;
  Binlogs_ : list Binlog
}.

(** [SegmentInfo], as far as the collector reads it ([DmlTimestamp] is
    [GetDmlPosition().GetTimestamp()]). *)
Record SegmentInfo : Type := mkSegmentInfo {
  ID : UniqueID;
  SegState : SegmentState;
  InsertChannel : string;
  CompactionFrom : list UniqueID;
  Compacted : bool;
  DroppedAt : Z;
  DmlTimestamp : Z;
  Binlogs : list FieldBinlog;
  Statslogs : list FieldBinlog;
  Deltalogs : list FieldBinlog
}.

#[global] Instance Binlog_eq_dec : EqDecision Binlog.
Proof. solve_decision. Defined.

#[global] Instance FieldBinlog_eq_dec : EqDecision FieldBinlog.
Proof. solve_decision. Defined.

#[global] Instance SegmentInfo_eq_dec : EqDecision SegmentInfo.
Proof. solve_decision. Defined.

(** An entry of the stream [ListWithPrefix] returns. *)
Record ObjectPathHolder : Type := mkHolder {
  Path : string;
  ModTime : Time;
  Err : bool
}.

(** How a [cli.Remove] ended, as [removeLogs] tells the cases apart: no error;
    an error [removeLogs] lets pass (a minio error response whose code is
    empty or [NoSuchKey]); any other error. *)
Inductive RemoveResult : Type :=
  | RemoveOk
  | RemoveNoSuchKey
  | RemoveFailed.

(** [GcOption], the tolerances. *)
Record GcOption : Type := mkGcOption {
  enabled : bool;
  missingTolerance : Duration;
  dropTolerance : Duration
}.

(** What the collector calls and does not implement, over the world state
    [W] (object store, catalog, index meta, clock), and the constants of
    package [common] it uses.  [true] is success. *)
Record Env (W : Type) : Type := mkEnv {
  Now : M W Time;
  RootPath : string;
  SegmentInsertLogPath : string;
  SegmentStatslogPath : string;
  SegmentDeltaLogPath : string;
  ListWithPrefix : string -> bool -> M W (list ObjectPathHolder);
  Remove : string -> M W RemoveResult;
  ParseSegmentIDByBinlog : string -> string -> option UniqueID;
  FilterInIndexedSegments : list SegmentInfo -> M W (list SegmentInfo);
  GetChannelCheckpoint : string -> M W Z;
  ChannelExists : string -> M W bool;
  DropSegmentCatalog : UniqueID -> M W bool;
  DropChannelCheckpoint : string -> M W bool;
  (** [recycleUnusedIndexes], [recycleUnusedSegIndexes] and
      [recycleUnusedIndexFiles] work on the index meta and the index files
      only; the loop below sees them as one step of the world. *)
  recycleIndexes : M W unit;
  (** [option.removeLogPool]: the pool runs the jobs [removeLogs] submits
      side by side.  Asked with the number of jobs, it answers the order in
      which the jobs take their steps, each job known by its place in the
      submission. *)
  removeLogPool : nat -> M W (list nat)
}.

Arguments Now {W} _.
Arguments RootPath {W} _.
Arguments SegmentInsertLogPath {W} _.
Arguments SegmentStatslogPath {W} _.
Arguments SegmentDeltaLogPath {W} _.
Arguments ListWithPrefix {W} _ _ _.
Arguments Remove {W} _ _.
Arguments ParseSegmentIDByBinlog {W} _ _ _.
Arguments FilterInIndexedSegments {W} _ _.
Arguments GetChannelCheckpoint {W} _ _.
Arguments ChannelExists {W} _ _.
Arguments DropSegmentCatalog {W} _ _.
Arguments DropChannelCheckpoint {W} _ _.
Arguments recycleIndexes {W} _.
Arguments removeLogPool {W} _ _.

(** The calls that change something outside the collector, in the order they
    are made; a removal made by [clearEtcd] carries the segment being
    collected.  A history variable: the code keeps no such list. *)
Inductive Action : Type :=
  | ActRemoveLog (segment : UniqueID) (path : string)
  | ActDropSegment (segment : UniqueID)
  | ActDropChannelCheckpoint (channel : string)
  | ActScanRemove (key : string).

(** The collector's view: the segments of the meta, the history of actions
    and the world. *)
Record State (W : Type) : Type := mkState {
  segments : list SegmentInfo;
  actions : list Action;
  world : W
}.

Arguments mkState {W} _ _ _.
Arguments segments {W} _.
Arguments actions {W} _.
Arguments world {W} _.

(** [strings.Contains]. *)
Definition strings_Contains (s sub : string) : bool :=
  match String.index 0 sub s with Some _ => true | None => false end.

(** The elements of a path between its slashes, first to last; [cur] holds
    the characters of the element being read, last first. *)
Fixpoint path_elements (cur : string) (p : string) : list string :=
  match p with
  | EmptyString => [String.rev cur]
  | String c rest =>
      if Ascii.eqb c "/"%char then String.rev cur :: path_elements EmptyString rest
      else path_elements (String c cur) rest
  end.

(** The loop of [path.Clean] over the elements of the path: [out] is the
    path written so far, its last element first.  An empty element and [.]
    are dropped; [..] takes back the element before it, unless there is none
    or it is a [..] itself: then a rooted path drops it and another keeps
    it. *)
Fixpoint path_Clean_elements (rooted : bool) (out : list string) (elements : list string)
    : list string :=
  match elements with
  | [] => List.rev out
  | e :: rest =>
      if String.eqb e "" || String.eqb e "." then path_Clean_elements rooted out rest
      else if String.eqb e ".." then
        match out with
        | top :: out' =>
            if String.eqb top ".."
            then path_Clean_elements rooted (e :: out) rest
            else path_Clean_elements rooted out' rest
        | [] =>
            if rooted then path_Clean_elements rooted out rest
            else path_Clean_elements rooted (e :: out) rest
        end
      else path_Clean_elements rooted (e :: out) rest
  end.

(** [path.Clean]. *)
Definition path_Clean (p : string) : string :=
  match p with
  | EmptyString => "."
  | String c _ =>
      let rooted := Ascii.eqb c "/"%char in
      let out := String.concat "/" (path_Clean_elements rooted [] (path_elements "" p)) in
      let out := if rooted then ("/" ++ out)%string else out in
      if String.eqb out "" then "." else out
  end.

(** [path.Join] of two elements: empty elements are left out, the others are
    joined with a slash and the result is cleaned; with no element left the
    result is empty. *)
Definition path_Join (a b : string) : string :=
  match List.filter (fun e => negb (String.eqb e "")) [a; b] with
  | [] => ""
  | elements => path_Clean (String.concat "/" elements)
  end.

(** [getLogs]. *)
Definition getLogs (sinfo : SegmentInfo) : list Binlog :=
  List.concat (List.map Binlogs_ (Binlogs sinfo))
  ++ List.concat (List.map Binlogs_ (Statslogs sinfo))
  ++ List.concat (List.map Binlogs_ (Deltalogs sinfo)).

(** Modelled from the spec: the meta's lookups are not among the sources.
    [GetSegment] finds the segment with an id, [GetSegments] returns those of
    the ids whose segment exists and passes the filter, [GetSegmentsByChannel]
    the segments of a channel, [DropSegment] removes the record. *)
Definition GetSegment (id : UniqueID) (segs : list SegmentInfo) : option SegmentInfo :=
  List.find (fun si => Z.eqb (ID si) id) segs.

Definition GetSegments (ids : list UniqueID) (filterFunc : SegmentInfo -> bool)
    (segs : list SegmentInfo) : list UniqueID :=
  List.filter
    (fun id => match GetSegment id segs with
               | Some si => filterFunc si
               | None => false
               end) ids.

Definition GetSegmentsByChannel (channel : string) (segs : list SegmentInfo)
    : list SegmentInfo :=
  List.filter (fun si => bool_decide (InsertChannel si = channel)) segs.

Definition removeSegment (id : UniqueID) (segs : list SegmentInfo) : list SegmentInfo :=
  List.filter (fun si => negb (Z.eqb (ID si) id)) segs.

Section Collector.

Context {W : Type} (E : Env W) (option_ : GcOption).

#[local] Abbreviation S := (State W).

Definition call {A : Type} (m : M W A) : M S A :=
  fun s => let (a, w) := m (world s) in (a, mkState (segments s) (actions s) w).

Definition record (a : Action) : M S unit :=
  fun s => (tt, mkState (segments s) (actions s ++ [a]) (world s)).

Definition getSegments : M S (list SegmentInfo) :=
  fun s => (segments s, s).

(** [meta.DropSegment]: the record leaves the meta when the catalog accepted
    the drop. *)
Definition DropSegment (id : UniqueID) : M S bool :=
  _ <- record (ActDropSegment id) ;;
  ok <- call (DropSegmentCatalog E id) ;;
  if ok
  then fun s => (true, mkState (removeSegment id (segments s)) (actions s) (world s))
  else ret false.

(** [isExpire]. *)
Definition isExpire (dropts : Z) : M S bool :=
  now <- call (Now E) ;;
  ret (dropTolerance option_ <? Since now (Unix_nano (Int64.wrap dropts))).

(** [checkDroppedSegmentGC]. *)
Definition checkDroppedSegmentGC (segment : SegmentInfo) (childSegment : option SegmentInfo)
    (indexSet : gset UniqueID) (cpTimestamp : Z) : M S bool :=
  let isCompacted :=
    match childSegment with Some _ => true | None => Compacted segment end in
  let checkChannel : M S bool :=
    channelExists <- call (ChannelExists E (InsertChannel segment)) ;;
    if channelExists && (cpTimestamp <? DmlTimestamp segment)
    then ret false else ret true in
  if isCompacted then
    match childSegment with
    | Some child =>
        if negb (bool_decide (ID child ∈ indexSet)) then ret false else checkChannel
    | None => checkChannel
    end
  else
    expired <- isExpire (DroppedAt segment) ;;
    if negb expired then ret false else checkChannel.

(** *** [removeLogs] and the pool *)

(** A job [removeLogs] submitted to the pool: it has not started; it has
    found the context live and is about to call [Remove]; it has returned. *)
Inductive JobPhase : Type :=
  | JobSubmitted
  | JobStarted
  | JobDone.

(** The jobs of one call of [removeLogs], in the order they were submitted,
    and the context: whether [cancel()] has been called. *)
Record Pool : Type := mkPool {
  jobs : list (Binlog * JobPhase);
  cancelled : bool
}.

(** One step of the job for the log [l].  A job that starts when the context
    is done returns at once; otherwise it goes on to call [Remove], and an
    error other than a missing key cancels the context.  Between the look at
    the context and the call other jobs can take steps. *)
Definition removeLogs_job (segment : UniqueID) (l : Binlog) (phase : JobPhase)
    (cancelled : bool) : M S (JobPhase * bool) :=
  match phase with
  | JobSubmitted => ret (if cancelled then JobDone else JobStarted, cancelled)
  | JobStarted =>
      _ <- record (ActRemoveLog segment (LogPath l)) ;;
      r <- call (Remove E (LogPath l)) ;;
      match r with
      | RemoveFailed => ret (JobDone, true)
      | _ => ret (JobDone, cancelled)
      end
  | JobDone => ret (JobDone, cancelled)
  end.

(** The job at place [i] takes a step. *)
Definition removeLogs_turn (segment : UniqueID) (i : nat) (p : Pool) : M S Pool :=
  match jobs p !! i with
  | None => ret p
  | Some (l, phase) =>
      r <- removeLogs_job segment l phase (cancelled p) ;;
      ret (mkPool (<[i := (l, fst r)]> (jobs p)) (snd r))
  end.

Fixpoint removeLogs_turns (segment : UniqueID) (order : list nat) (p : Pool) : M S Pool :=
  match order with
  | [] => ret p
  | i :: rest => p' <- removeLogs_turn segment i p ;; removeLogs_turns segment rest p'
  end.

(** [w.Wait()]: the jobs that have not returned run to their end, in the
    order they were submitted (two steps end any job). *)
Definition wait_order (n : nat) : list nat :=
  List.flat_map (fun i => [i; i]) (seq 0 n).

(** [removeLogs]: the jobs take their steps in the order the pool gives
    them, [w.Wait()] lets the rest finish, and the result says whether the
    context is still live. *)
Definition removeLogs (segment : UniqueID) (logs : list Binlog) : M S bool :=
  order <- call (removeLogPool E (length logs)) ;;
  p <- removeLogs_turns segment (order ++ wait_order (length logs))
         (mkPool (List.map (fun l => (l, JobSubmitted)) logs) false) ;;
  ret (negb (cancelled p)).

(** The first two loops of [clearEtcd]: the dropped segments by id, and for
    every id named in a [CompactionFrom] the segment that names it (a later
    segment of the listing replaces an earlier one). *)
Definition collectDrops (all : list SegmentInfo) : gmap UniqueID SegmentInfo :=
  List.fold_left
    (fun drops cloned =>
       if bool_decide (SegState cloned = Dropped)
       then <[ID cloned := cloned]> drops else drops)
    all ∅.

Definition collectCompactTo (all : list SegmentInfo) : gmap UniqueID SegmentInfo :=
  List.fold_left
    (fun compactTo cloned =>
       List.fold_left (fun m from => <[from := cloned]> m) (CompactionFrom cloned) compactTo)
    all ∅.

Definition collectChannels (all : list SegmentInfo) : gset string :=
  List.fold_left
    (fun channels cloned =>
       if bool_decide (SegState cloned = Dropped)
       then {[InsertChannel cloned]} ∪ channels else channels)
    all ∅.

Definition droppedCompactTo (drops compactTo : gmap UniqueID SegmentInfo)
    : list SegmentInfo :=
  remove_dups (omap (fun id => compactTo !! id) (map fst (map_to_list drops))).

(** The set of ids of the segments [FilterInIndexedSegments] returns. *)
Definition indexedSetOf (indexedSegments : list SegmentInfo) : gset UniqueID :=
  list_to_set (List.map ID indexedSegments).

Fixpoint channelCheckpoints (chans : list string) : M S (gmap string Z) :=
  match chans with
  | [] => ret ∅
  | channel :: rest =>
      ts <- call (GetChannelCheckpoint E channel) ;;
      cps <- channelCheckpoints rest ;;
      ret (<[channel := ts]> cps)
  end.

(** The body of the last loop of [clearEtcd], for one dropped id. *)
Definition clearEtcd_segment (drops compactTo : gmap UniqueID SegmentInfo)
    (indexedSet : gset UniqueID) (channelCPs : gmap string Z) (segmentID : UniqueID)
    : M S unit :=
  match drops !! segmentID with
  | None => ret tt
  | Some segment =>
      let segInsertChannel := InsertChannel segment in
      ok <- checkDroppedSegmentGC segment (compactTo !! ID segment) indexedSet
              (default 0 (channelCPs !! segInsertChannel)) ;;
      if negb ok then ret tt else
      removed <- removeLogs (ID segment) (getLogs segment) ;;
      _ <- (if removed then _ <- DropSegment (ID segment) ;; ret tt else ret tt) ;;
      segs <- getSegments ;;
      match GetSegmentsByChannel segInsertChannel segs with
      | [] =>
          channelExists <- call (ChannelExists E segInsertChannel) ;;
          if negb channelExists then
            _ <- record (ActDropChannelCheckpoint segInsertChannel) ;;
            _ <- call (DropChannelCheckpoint E segInsertChannel) ;;
            ret tt
          else ret tt
      | _ :: _ => ret tt
      end
  end.

Fixpoint clearEtcd_range (drops compactTo : gmap UniqueID SegmentInfo)
    (indexedSet : gset UniqueID) (channelCPs : gmap string Z) (dropIDs : list UniqueID)
    : M S unit :=
  match dropIDs with
  | [] => ret tt
  | segmentID :: rest =>
      _ <- clearEtcd_segment drops compactTo indexedSet channelCPs segmentID ;;
      clearEtcd_range drops compactTo indexedSet channelCPs rest
  end.

(** [clearEtcd].  The listing [all] is the meta's segments (the clones with
    their binlogs decompressed).  The ranges over the maps [drops] and
    [channels] only gather arguments for the collaborators; they are taken in
    the order of the keys. *)
Definition clearEtcd : M S unit :=
  all <- getSegments ;;
  let drops := collectDrops all in
  let compactTo := collectCompactTo all in
  let channels := collectChannels all in
  indexedSegments <- call (FilterInIndexedSegments E (droppedCompactTo drops compactTo)) ;;
  let indexedSet := indexedSetOf indexedSegments in
  channelCPs <- channelCheckpoints (elements channels) ;;
  let dropIDs := merge_sort Z.le (map fst (map_to_list drops)) in
  clearEtcd_range drops compactTo indexedSet channelCPs dropIDs.

(** *** The scan of the log prefixes *)

(** The counters of [scan] ([int]s, used for the log line only), the keys it
    removed, and for each of them the prefix, the listed object, the instant
    [time.Since] read and the parsed segment id (a history variable). *)
Record Removal : Type := mkRemoval {
  rPrefix : string;
  rObject : ObjectPathHolder;
  rNow : Time;
  rSegmentID : UniqueID
}.

Record ScanStats : Type := mkScanStats {
  total : Z;
  valid : Z;
  missing : Z;
  removedKeys : list string;
  removals : list Removal
}.

Definition referenced (objectPath : string) (logs : list FieldBinlog) : bool :=
  existsb (fun fieldBinlog =>
             existsb (fun b => String.eqb (LogPath b) objectPath) (Binlogs_ fieldBinlog))
          logs.

(** The closure [checker] of [scan]. *)
Definition checker (segs : list SegmentInfo) (segmentID : UniqueID)
    (objectPath prefix : string) : bool :=
  let results :=
    GetSegments [segmentID]
      (fun info =>
         if strings_Contains prefix (SegmentInsertLogPath E) then true
         else if strings_Contains prefix (SegmentStatslogPath E)
         then referenced objectPath (Statslogs info)
         else if strings_Contains prefix (SegmentDeltaLogPath E)
         then referenced objectPath (Deltalogs info)
         else true)
      segs in
  Nat.eqb (length results) 1.

(** The body of the inner loop of [scan], for one listed object. *)
Definition scan_object (prefix : string) (st : ScanStats) (objectPathHolder : ObjectPathHolder)
    : M S ScanStats :=
  if Err objectPathHolder then ret st else
  now <- call (Now E) ;;
  if Since now (ModTime objectPathHolder) <=? missingTolerance option_ then ret st else
  let st := mkScanStats (Int64.wrap (total st + 1)) (valid st) (missing st)
                        (removedKeys st) (removals st) in
  let infoKey := Path objectPathHolder in
  match ParseSegmentIDByBinlog E (RootPath E) infoKey with
  | None =>
      ret (mkScanStats (total st) (valid st) (Int64.wrap (missing st + 1))
                       (removedKeys st) (removals st))
  | Some segmentID =>
      segs <- getSegments ;;
      if checker segs segmentID infoKey prefix
      then ret (mkScanStats (total st) (Int64.wrap (valid st + 1)) (missing st)
                            (removedKeys st) (removals st))
      else
        let st := mkScanStats (total st) (valid st) (missing st)
                              (removedKeys st ++ [infoKey])
                              (removals st ++ [mkRemoval prefix objectPathHolder now segmentID]) in
        _ <- record (ActScanRemove infoKey) ;;
        r <- call (Remove E infoKey) ;;
        match r with
        | RemoveOk => ret st
        | _ => ret (mkScanStats (total st) (valid st) (Int64.wrap (missing st + 1))
                                (removedKeys st) (removals st))
        end
  end.

Fixpoint scan_objects (prefix : string) (st : ScanStats) (l : list ObjectPathHolder)
    : M S ScanStats :=
  match l with
  | [] => ret st
  | o :: rest => st' <- scan_object prefix st o ;; scan_objects prefix st' rest
  end.

Fixpoint scan_prefixes (st : ScanStats) (prefixes : list string) : M S ScanStats :=
  match prefixes with
  | [] => ret st
  | prefix :: rest =>
      l <- call (ListWithPrefix E prefix true) ;;
      st' <- scan_objects prefix st l ;;
      scan_prefixes st' rest
  end.

Definition scan_prefix_list : list string :=
  [ path_Join (RootPath E) (SegmentInsertLogPath E);
    path_Join (RootPath E) (SegmentStatslogPath E);
    path_Join (RootPath E) (SegmentDeltaLogPath E) ].

(** [scan]. *)
Definition scan : M S ScanStats :=
  scan_prefixes (mkScanStats 0 0 0 [] []) scan_prefix_list.

End Collector.

(** *** The collector's loop ([work]) and its commands *)

(** [datapb.GcCommand]. *)
Inductive GcCommand : Type :=
  | GcCommand_Unspecified
  | GcCommand_Pause
  | GcCommand_Resume.

Record gcCmd : Type := mkGcCmd {
  cmdType : GcCommand;
  duration : Duration
}.

(** What the [select] of [work] can receive. *)
Inductive WorkEvent : Type :=
  | TickerC
  | ScanTickerC
  | CmdCh (cmd : gcCmd)
  | CloseCh.

(** [garbageCollector]: [pauseUntil], the collector's view of meta and world,
    and whether [work] has returned. *)
Record garbageCollector (W : Type) : Type := mkCollector {
  pauseUntil : Time;
  gcState : State W;
  quit : bool
}.

Arguments mkCollector {W} _ _ _.
Arguments pauseUntil {W} _.
Arguments gcState {W} _.
Arguments quit {W} _.

Section Work.

Context {W : Type} (E : Env W) (option_ : GcOption).

(** One turn of the loop of [work]. *)
Definition work_step (ev : WorkEvent) (gc : garbageCollector W) : garbageCollector W :=
  if quit gc then gc else
  match ev with
  | TickerC =>
      let (now, s) := call (Now E) (gcState gc) in
      if Before now (pauseUntil gc)
      then mkCollector (pauseUntil gc) s false
      else
        let s := snd (clearEtcd E option_ s) in
        let s := snd (call (recycleIndexes E) s) in
        mkCollector (pauseUntil gc) s false
  | ScanTickerC =>
      mkCollector (pauseUntil gc) (snd (scan E option_ (gcState gc))) false
  | CmdCh cmd =>
      match cmdType cmd with
      | GcCommand_Pause =>
          let (now, s) := call (Now E) (gcState gc) in
          let pauseUntil' := Add now (duration cmd) in
          if After pauseUntil' (pauseUntil gc)
          then mkCollector pauseUntil' s false
          else mkCollector (pauseUntil gc) s false
      | GcCommand_Resume => mkCollector zero (gcState gc) false
      | GcCommand_Unspecified => gc
      end
  | CloseCh => mkCollector (pauseUntil gc) (gcState gc) true
  end.

(** [Pause] and [Resume], when the command reaches the loop before the
    caller's context is done. *)
Definition Pause (pauseDuration : Duration) (gc : garbageCollector W) : garbageCollector W :=
  if negb (enabled option_) then gc
  else work_step (CmdCh (mkGcCmd GcCommand_Pause pauseDuration)) gc.

Definition Resume (gc : garbageCollector W) : garbageCollector W :=
  if negb (enabled option_) then gc
  else work_step (CmdCh (mkGcCmd GcCommand_Resume 0)) gc.

End Work.

(** *** What the properties of the collector speak of *)

(** The action was made for segment [id]. *)
Definition concerns (id : UniqueID) (a : Action) : bool :=
  match a with
  | ActRemoveLog segment _ => Z.eqb segment id
  | ActDropSegment segment => Z.eqb segment id
  | _ => false
  end.

(** From [s] to [s'] nothing was done for segment [id]: the actions added do
    not concern it and the meta has the records with this id it had. *)
Definition untouched {W : Type} (id : UniqueID) (s s' : State W) : Prop :=
  (exists new, actions s' = actions s ++ new
               /\ Forall (fun a => concerns id a = false) new)
  /\ List.filter (fun si => Z.eqb (ID si) id) (segments s')
     = List.filter (fun si => Z.eqb (ID si) id) (segments s).

(** The computation does nothing for segment [id]. *)
Definition spares {W A : Type} (id : UniqueID) (m : M (State W) A) : Prop :=
  forall s, untouched id s (snd (m s)).

Section ScanNotions.
Context {W : Type} (E : Env W) (opt : GcOption).

(** The meta does not vouch for the object of a removal: the segment parsed
    from its key is not in the meta, or it is and, under the stats-log or the
    delta-log prefix, its logs of that kind do not name the object's path. *)
Definition unreferenced (segs : list SegmentInfo) (x : Removal) : Prop :=
  match GetSegment (rSegmentID x) segs with
  | None => True
  | Some info =>
      strings_Contains (rPrefix x) (SegmentInsertLogPath E) = false
      /\ ((strings_Contains (rPrefix x) (SegmentStatslogPath E) = true
           /\ referenced (Path (rObject x)) (Statslogs info) = false)
          \/ (strings_Contains (rPrefix x) (SegmentStatslogPath E) = false
              /\ strings_Contains (rPrefix x) (SegmentDeltaLogPath E) = true
              /\ referenced (Path (rObject x)) (Deltalogs info) = false))
  end.

(** What holds of every removal [scan] makes. *)
Definition removal_justified (segs : list SegmentInfo) (x : Removal) : Prop :=
  Err (rObject x) = false
  /\ missingTolerance opt < GoTime.Since (rNow x) (ModTime (rObject x))
  /\ ParseSegmentIDByBinlog E (RootPath E) (Path (rObject x)) = Some (rSegmentID x)
  /\ unreferenced segs x.

(** The invariant of the loops of [scan], from the state [s0] it started in. *)
Definition scan_inv (s0 : State W) (st : ScanStats) (s : State W) : Prop :=
  segments s = segments s0
  /\ removedKeys st = List.map (fun x => Path (rObject x)) (removals st)
  /\ actions s = actions s0 ++ List.map ActScanRemove (removedKeys st)
  /\ Forall (removal_justified (segments s0)) (removals st).

End ScanNotions.

(** *** What the further properties of [clearEtcd] speak of *)

(** The computation makes only actions that satisfy [P], adds no record to
    the meta, and keeps the records whose id satisfies [K]. *)
Definition acts {W A : Type} (P : Action -> Prop) (K : UniqueID -> Prop)
    (m : M (State W) A) : Prop :=
  forall s,
    (exists new, actions (snd (m s)) = actions s ++ new /\ Forall P new)
    /\ (forall si, In si (segments (snd (m s))) -> In si (segments s))
    /\ (forall si, In si (segments s) -> K (ID si) -> In si (segments (snd (m s)))).

(** An action on behalf of a dropped segment of the meta [segs]: the removal
    of one of its logs, the drop of its record, the drop of the checkpoint of
    its channel. *)
Definition collects (segs : list SegmentInfo) (a : Action) : Prop :=
  match a with
  | ActRemoveLog id path =>
      exists seg, In seg segs /\ SegState seg = Dropped /\ ID seg = id
                  /\ In path (List.map LogPath (getLogs seg))
  | ActDropSegment id =>
      exists seg, In seg segs /\ SegState seg = Dropped /\ ID seg = id
  | ActDropChannelCheckpoint channel =>
      exists seg, In seg segs /\ SegState seg = Dropped /\ InsertChannel seg = channel
  | ActScanRemove _ => False
  end.

(** In the actions [tr], the drop of the record of segment [A] comes after a
    removal of every log of [A]. *)
Definition drops_after_removals (A : SegmentInfo) (tr : list Action) : Prop :=
  forall before after,
    tr = before ++ ActDropSegment (ID A) :: after ->
    forall l, In l (getLogs A) -> In (ActRemoveLog (ID A) (LogPath l)) before.

(** The actions the computation adds satisfy [Q]. *)
Definition traces {W A : Type} (Q : list Action -> Prop) (m : M (State W) A) : Prop :=
  forall s, exists new, actions (snd (m s)) = actions s ++ new /\ Q new.

(** What holds of the pool of a call of [removeLogs] for the logs [logs] of
    segment [segment] when its jobs have added the actions [new]: the jobs
    are those of the logs; every action is the removal of one of the logs;
    and as long as the context is live, a job that has returned has called
    [Remove] and the call did not end in an error that cancels. *)
Definition pool_inv {W : Type} (E : Env W) (segment : UniqueID) (logs : list Binlog)
    (p : Pool) (new : list Action) : Prop :=
  List.map fst (jobs p) = logs
  /\ (forall a, In a new -> exists l, In l logs /\ a = ActRemoveLog segment (LogPath l))
  /\ (cancelled p = false ->
      forall i l, jobs p !! i = Some (l, JobDone) ->
        In (ActRemoveLog segment (LogPath l)) new
        /\ exists w, fst (Remove E (LogPath l) w) <> RemoveFailed).

End Gc.

(* ===================================================================== *)
(** ** The index part of the garbage collector                             *)
(* ===================================================================== *)

(** [recycleUnusedIndexes], [recycleUnusedSegIndexes] and
    [recycleUnusedIndexFiles] of [garbage_collector.go]: what the collector's
    loop runs after [clearEtcd] on a tick. *)
Module IndexGc.

Import Gc.

(** [model.Index] and [model.SegmentIndex], as far as the collector reads
    them. *)
Record Index : Type := mkIndex {
  Index_CollectionID : UniqueID;
  Index_IndexID : UniqueID
}.

Record SegmentIndex : Type := mkSegmentIndex {
  SegmentID : UniqueID;
  CollectionID : UniqueID;
  PartitionID : UniqueID;
  IndexID : UniqueID;
  BuildID : UniqueID;
  NodeID : UniqueID;
  IndexVersion : Z;
  IndexFileKeys : list string
}.

(** What the three functions call and do not implement, over the world state
    [W] (index meta, object store), and the constants they use.  [true] is
    success ([err == nil]); [CleanSegmentIndex] returns [canRecycle] and the
    segment index, [None] for nil. *)
Record Env (W : Type) : Type := mkEnv {
  GetDeletedIndexes : M W (list Index);
  RemoveIndex : UniqueID -> UniqueID -> M W bool;
  GetAllSegIndexes : M W (list SegmentIndex);
  IsIndexExist : UniqueID -> UniqueID -> M W bool;
  RemoveSegmentIndex : UniqueID -> UniqueID -> UniqueID -> UniqueID -> UniqueID -> M W bool;
  RootPath : string;
  SegmentIndexPath : string;
  ListWithPrefix : string -> bool -> M W (list ObjectPathHolder);
  parseBuildIDFromFilePath : string -> option UniqueID;
  CleanSegmentIndex : UniqueID -> M W (bool * option SegmentIndex);
  RemoveWithPrefix : string -> M W bool;
  BuildSegmentIndexFilePath : string -> UniqueID -> Z -> UniqueID -> UniqueID -> string -> string;
  Remove : string -> M W bool
}.

Arguments GetDeletedIndexes {W} _.
Arguments RemoveIndex {W} _ _ _.
Arguments GetAllSegIndexes {W} _.
Arguments IsIndexExist {W} _ _ _.
Arguments RemoveSegmentIndex {W} _ _ _ _ _ _.
Arguments RootPath {W} _.
Arguments SegmentIndexPath {W} _.
Arguments ListWithPrefix {W} _ _ _.
Arguments parseBuildIDFromFilePath {W} _ _.
Arguments CleanSegmentIndex {W} _ _.
Arguments RemoveWithPrefix {W} _ _.
Arguments BuildSegmentIndexFilePath {W} _ _ _ _ _ _ _.
Arguments Remove {W} _ _.

(** The calls that change the index meta or the object store, and the two
    questions to the index meta whose answers decide a removal, each with the
    answer it received, in the order they are made (a history variable). *)
Inductive Call : Type :=
  | AskIsIndexExist (collectionID indexID : UniqueID) (answer : bool)
  | AskCleanSegmentIndex (buildID : UniqueID) (canRecycle : bool)
                         (segIdx : option SegmentIndex)
  | CallRemoveIndex (collectionID indexID : UniqueID)
  | CallRemoveSegmentIndex (segIdx : SegmentIndex)
  | CallRemoveWithPrefix (key : string)
  | CallRemove (file : string).

(** The segments of the meta (read only), the history of calls, the world. *)
Record State (W : Type) : Type := mkState {
  segments : list SegmentInfo;
  calls : list Call;
  world : W
}.

Arguments mkState {W} _ _ _.
Arguments segments {W} _.
Arguments calls {W} _.
Arguments world {W} _.

Section Recycle.

Context {W : Type} (E : Env W).

#[local] Abbreviation S := (State W).

Definition call {A : Type} (m : M W A) : M S A :=
  fun s => let (a, w) := m (world s) in (a, mkState (segments s) (calls s) w).

Definition record (c : Call) : M S unit :=
  fun s => (tt, mkState (segments s) (calls s ++ [c]) (world s)).

Definition getSegments : M S (list SegmentInfo) :=
  fun s => (segments s, s).

Fixpoint forM_ {A : Type} (f : A -> M S unit) (l : list A) : M S unit :=
  match l with
  | [] => ret tt
  | a :: l' => _ <- f a ;; forM_ f l'
  end.

(** [recycleUnusedIndexes]. *)
Definition recycleUnusedIndexes : M S unit :=
  deletedIndexes <- call (GetDeletedIndexes E) ;;
  forM_ (fun index =>
           _ <- record (CallRemoveIndex (Index_CollectionID index) (Index_IndexID index)) ;;
           _ <- call (RemoveIndex E (Index_CollectionID index) (Index_IndexID index)) ;;
           ret tt)
        deletedIndexes.

(** The condition of [recycleUnusedSegIndexes]; the index meta is asked only
    when the segment is in the meta. *)
Definition segIndexUnused (segIdx : SegmentIndex) : M S bool :=
  segs <- getSegments ;;
  match GetSegment (SegmentID segIdx) segs with
  | None => ret true
  | Some _ =>
      ex <- call (IsIndexExist E (CollectionID segIdx) (IndexID segIdx)) ;;
      _ <- record (AskIsIndexExist (CollectionID segIdx) (IndexID segIdx) ex) ;;
      ret (negb ex)
  end.

(** [recycleUnusedSegIndexes]. *)
Definition recycleUnusedSegIndexes : M S unit :=
  segIndexes <- call (GetAllSegIndexes E) ;;
  forM_ (fun segIdx =>
           unused <- segIndexUnused segIdx ;;
           if unused then
             _ <- record (CallRemoveSegmentIndex segIdx) ;;
             _ <- call (RemoveSegmentIndex E (CollectionID segIdx) (PartitionID segIdx)
                          (SegmentID segIdx) (IndexID segIdx) (BuildID segIdx)) ;;
             ret tt
           else ret tt)
        segIndexes.

(** The keys of [filesMap]. *)
Definition filesMap (segIdx : SegmentIndex) : list string :=
  List.map (fun fileID =>
              BuildSegmentIndexFilePath E (RootPath E) (BuildID segIdx) (IndexVersion segIdx)
                (PartitionID segIdx) (SegmentID segIdx) fileID)
           (IndexFileKeys segIdx).

(** The body of the inner loop of [recycleUnusedIndexFiles]. *)
Definition recycleIndexFile (segIdx : SegmentIndex) (recycleIndexPathHolder : ObjectPathHolder)
    : M S unit :=
  if Err recycleIndexPathHolder then ret tt else
  let file := Path recycleIndexPathHolder in
  if negb (existsb (String.eqb file) (filesMap segIdx)) then
    _ <- record (CallRemove file) ;;
    _ <- call (Remove E file) ;;
    ret tt
  else ret tt.

(** The body of the outer loop. *)
Definition recycleIndexDir (objectPathHolder : ObjectPathHolder) : M S unit :=
  if Err objectPathHolder then ret tt else
  let key := Path objectPathHolder in
  match parseBuildIDFromFilePath E key with
  | None => ret tt
  | Some buildID =>
      r <- call (CleanSegmentIndex E buildID) ;;
      _ <- record (AskCleanSegmentIndex buildID (fst r) (snd r)) ;;
      if negb (fst r) then ret tt else
      match snd r with
      | None =>
          _ <- record (CallRemoveWithPrefix key) ;;
          _ <- call (RemoveWithPrefix E key) ;;
          ret tt
      | Some segIdx =>
          l <- call (ListWithPrefix E key true) ;;
          forM_ (recycleIndexFile segIdx) l
      end
  end.

(** [recycleUnusedIndexFiles]. *)
Definition recycleUnusedIndexFiles : M S unit :=
  let prefix := (path_Join (RootPath E) (SegmentIndexPath E) ++ "/")%string in
  l <- call (ListWithPrefix E prefix false) ;;
  forM_ recycleIndexDir l.

(** What [work] does after [clearEtcd] on a tick. *)
Definition recycle : M S unit :=
  _ <- recycleUnusedIndexes ;;
  _ <- recycleUnusedSegIndexes ;;
  recycleUnusedIndexFiles.

End Recycle.

(** The computation makes only calls that satisfy [P] and leaves the segments
    of the meta as they are. *)
Definition makes {W A : Type} (P : Call -> Prop) (m : M (State W) A) : Prop :=
  forall s, segments (snd (m s)) = segments s
            /\ exists new, calls (snd (m s)) = calls s ++ new /\ Forall P new.

(** Every call of the history [h] is justified by the calls before it: [J]
    holds of each call and of what the history holds up to it. *)
Definition each_call (J : list Call -> Call -> Prop) (h : list Call) : Prop :=
  forall before c after, h = before ++ c :: after -> J before c.

(** The computation leaves the segments of the meta as they are, and the
    calls it adds are each justified by the added calls before it. *)
Definition justifies {W A : Type} (J : list Call -> Call -> Prop) (m : M (State W) A)
    : Prop :=
  forall s, segments (snd (m s)) = segments s
            /\ exists new, calls (snd (m s)) = calls s ++ new /\ each_call J new.

(** What justifies a call of [recycleUnusedSegIndexes] on the meta [segs]:
    a segment index is removed when its segment is not in the meta, or when
    the call just before it was the question whether its index exists and
    the answer was no. *)
Definition segIndex_justified (segs : list SegmentInfo) (before : list Call) (c : Call)
    : Prop :=
  match c with
  | CallRemoveSegmentIndex segIdx =>
      GetSegment (SegmentID segIdx) segs = None
      \/ exists earlier,
           before = earlier ++ [AskIsIndexExist (CollectionID segIdx) (IndexID segIdx) false]
  | AskIsIndexExist _ _ _ => True
  | _ => False
  end.

(** A removal of a single file. *)
Definition is_CallRemove (c : Call) : Prop := exists file, c = CallRemove file.

(** What justifies a call of [recycleUnusedIndexFiles]: everything under a
    key is removed when the call just before it was [CleanSegmentIndex] for
    the build of the key and the answer was that the build can be recycled
    and has no segment index; a single file is removed when the last answer
    of [CleanSegmentIndex] allowed recycling and gave a segment index whose
    files do not include it. *)
Definition indexFile_justified {W : Type} (E : Env W) (before : list Call) (c : Call)
    : Prop :=
  match c with
  | CallRemoveWithPrefix key =>
      exists earlier buildID,
        before = earlier ++ [AskCleanSegmentIndex buildID true None]
        /\ parseBuildIDFromFilePath E key = Some buildID
  | CallRemove file =>
      exists earlier buildID segIdx since,
        before = earlier ++ AskCleanSegmentIndex buildID true (Some segIdx) :: since
        /\ Forall is_CallRemove since
        /\ ~ In file (filesMap E segIdx)
  | AskCleanSegmentIndex _ _ _ => True
  | _ => False
  end.

End IndexGc.

(* ===================================================================== *)
(** ** Concrete scenarios                                                  *)
(* ===================================================================== *)

Module Examples.

Import Sched.

(** A snapshot of two workers, with 3 and 5 free slots. *)
Definition slots35 : gmap UniqueID Z := <[1 := 3]> (<[2 := 5]> ∅).

Definition order12 : list UniqueID := [1; 2].

(** A task waiting for dispatch, and a scheduler that has it queued. *)
Definition task7 : Task := mkTask 7 4 (mkBody (-1) JobStateInit "" 0 0 0).

Definition sched_pending7 : taskScheduler unit := mkSched [task7] ∅ tt.

(** A task that needs more slots than any worker has, and a scheduler with
    both tasks queued. *)
Definition task8 : Task := mkTask 8 9 (mkBody (-1) JobStateInit "" 0 0 0).

Definition sched_pending78 : taskScheduler unit := mkSched [task7; task8] ∅ tt.

Definition sched_empty : taskScheduler unit := mkSched [] ∅ tt.

(** A task in state none, and a scheduler that has it queued before task 7
    and has let no task go so far. *)
Definition task6 : Task := mkTask 6 1 (mkBody (-1) JobStateNone "" 0 0 0).

Definition sched_pending67 : taskScheduler (unit * list Task) :=
  mkSched [task6; task7] ∅ (tt, []).

(** Collaborators that always succeed: every worker is registered, a
    submitted task is in progress, a queried task is as it was. *)
Definition env : Env unit :=
  mkEnv unit
    (ret 0)
    (ret slots35)
    (fun _ => ret (true, true))
    (fun t => ret (true, body t))
    (fun n t => ret (true, body (SetNodeID n t)))
    (fun t => ret (true, body (SetState JobStateInProgress "" t)))
    (fun _ => ret true)
    (fun _ => ret true)
    (fun _ => ret true)
    (fun _ => ret true)
    (fun t => ret (body t))
    (fun _ => ret 0).


(** A task on worker 2 that has to be retried, in the running map. *)
Definition task9 : Task :=
  mkTask 9 4 (mkBody 2 JobStateRetry "node does not exist" 0 0 0).

Definition sched_retry9 : taskScheduler unit := mkSched [] (<[9 := task9]> ∅) tt.

(** Collaborators like [env], with one worker that has room for task 7 and
    no more. *)
Definition env_one_worker : Env unit :=
  mkEnv unit
    (ret 0)
    (ret (<[1 := 4]> ∅))
    (fun _ => ret (true, true))
    (fun t => ret (true, body t))
    (fun n t => ret (true, body (SetNodeID n t)))
    (fun t => ret (true, body (SetState JobStateInProgress "" t)))
    (fun _ => ret true)
    (fun _ => ret true)
    (fun _ => ret true)
    (fun _ => ret true)
    (fun t => ret (body t))
    (fun _ => ret 0).

(** A channel manager that has just recovered the channel "c1", a node, and
    the batch that assigns the channel to the node for reading and writing;
    a catalog that saves every record. *)
Definition node1 : Channel.StreamingNodeInfo := Channel.mkStreamingNodeInfo 1 "node-1".

Definition chan_c1 : Channel.PChannelMeta :=
  Channel.mkPChannelMeta (Channel.mkPChannelInfo "c1" 0 Channel.AccessMode_RO) None
    Channel.PCHANNEL_META_STATE_UNINITIALIZED [] 0.

Definition manager1 : Channel.ChannelManager :=
  Channel.mkManager (<["c1"%string := chan_c1]> ∅) (Channel.mkVersion 1 0) [].

Definition batch1 : list (Channel.ChannelID * Channel.PChannelInfoAssigned) :=
  [ ("c1"%string,
     Channel.mkAssigned (Channel.mkPChannelInfo "c1" 0 Channel.AccessMode_RW) node1) ].

Definition never_fails : Channel.PChannelMeta -> bool := fun _ => false.

Definition channel_ops : list Channel.ChannelOp :=
  [ Channel.OpTryAssign Channel.AccessMode_RW node1;
    Channel.OpAssignDone 5;
    Channel.OpTryAssign Channel.AccessMode_RO node1 ].

(** The scenario "segments 1 and 2 compacted into segment 3": 1 and 2 are
    dropped, 3 is flushed and names them as its sources.  Under [gc_env] no
    segment is indexed; under [gc_env_indexed] every segment asked about is.
    The channel exists and its checkpoint (100) is past the segments' DML
    positions (50).  The store lists, under the insert-log prefix, an old
    object of a segment the meta does not know (id 9), a young one of the
    same segment, and an old object of segment 3. *)
Definition seg (id : UniqueID) (st : Gc.SegmentState) (from : list UniqueID) (log : string)
    : Gc.SegmentInfo :=
  Gc.mkSegmentInfo id st "ch" from false 0 50
    [Gc.mkFieldBinlog 100 [Gc.mkBinlog log]] [] [].

Definition seg1 : Gc.SegmentInfo := seg 1 Gc.Dropped [] "files/insert_log/1/a".
Definition seg2 : Gc.SegmentInfo := seg 2 Gc.Dropped [] "files/insert_log/2/a".
Definition seg3 : Gc.SegmentInfo := seg 3 Gc.Flushed [1; 2] "files/insert_log/3/a".

Definition gc_now : GoTime.Time := GoTime.unix_epoch + 10 ^ 15.

Definition gc_listing (prefix : string) : list Gc.ObjectPathHolder :=
  if String.eqb prefix "files/insert_log"
  then [ Gc.mkHolder "files/insert_log/9/a" GoTime.unix_epoch false;
         Gc.mkHolder "files/insert_log/9/b" gc_now false;
         Gc.mkHolder "files/insert_log/3/a" GoTime.unix_epoch false ]
  else [].

Definition gc_parse (root key : string) : option UniqueID :=
  if String.eqb key "files/insert_log/9/a" then Some 9
  else if String.eqb key "files/insert_log/9/b" then Some 9
  else if String.eqb key "files/insert_log/3/a" then Some 3
  else None.

Definition gc_env_with (filterIndexed : list Gc.SegmentInfo -> list Gc.SegmentInfo)
    : Gc.Env unit :=
  Gc.mkEnv unit
    (ret gc_now)
    "files" "insert_log" "stats_log" "delta_log"
    (fun prefix _ => ret (gc_listing prefix))
    (fun _ => ret Gc.RemoveOk)
    gc_parse
    (fun l => ret (filterIndexed l))
    (fun _ => ret 100)
    (fun _ => ret true)
    (fun _ => ret true)
    (fun _ => ret true)
    (ret tt)
    (fun _ => ret []).

Definition gc_env : Gc.Env unit := gc_env_with (fun _ => []).

Definition gc_env_indexed : Gc.Env unit := gc_env_with (fun l => l).

(** Tolerances of one hour and three hours, in nanoseconds. *)
Definition gc_option : Gc.GcOption :=
  Gc.mkGcOption true (3600 * 10 ^ 9) (3 * 3600 * 10 ^ 9).

Definition gc_state : Gc.State unit := Gc.mkState [seg1; seg2; seg3] [] tt.

(** The scenario "segment 1 compacted into segments 5 and 6": 1 is dropped, 5
    and 6 are flushed and both name 1 as their source; the meta lists 5
    before 6.  Under [gc_env_indexed6] segment 6 is indexed and segment 5 is
    not. *)
Definition seg5 : Gc.SegmentInfo := seg 5 Gc.Flushed [1] "files/insert_log/5/a".
Definition seg6 : Gc.SegmentInfo := seg 6 Gc.Flushed [1] "files/insert_log/6/a".

Definition gc_state_two_children : Gc.State unit := Gc.mkState [seg1; seg5; seg6] [] tt.

Definition gc_env_indexed6 : Gc.Env unit :=
  gc_env_with (List.filter (fun si => Z.eqb (Gc.ID si) 6)).

(** Collaborators like [env], except that no worker is registered any more;
    a task in progress on worker 2, in the running map. *)
Definition env_worker_gone : Env unit :=
  mkEnv unit
    (ret 0)
    (ret slots35)
    (fun _ => ret (false, false))
    (fun t => ret (true, body t))
    (fun n t => ret (true, body (SetNodeID n t)))
    (fun t => ret (true, body (SetState JobStateInProgress "" t)))
    (fun _ => ret true)
    (fun _ => ret true)
    (fun _ => ret true)
    (fun _ => ret true)
    (fun t => ret (body t))
    (fun _ => ret 0).

Definition task5 : Task := mkTask 5 2 (mkBody 2 JobStateInProgress "" 0 0 0).
Definition sched_running5 : taskScheduler unit := mkSched [] (<[5 := task5]> ∅) tt.

(** Collaborators like [env], except that no worker has a free slot. *)
Definition env_no_slots : Env unit :=
  mkEnv unit
    (ret 0)
    (ret (<[1 := 0]> ∅))
    (fun _ => ret (true, true))
    (fun t => ret (true, body t))
    (fun n t => ret (true, body (SetNodeID n t)))
    (fun t => ret (true, body (SetState JobStateInProgress "" t)))
    (fun _ => ret true)
    (fun _ => ret true)
    (fun _ => ret true)
    (fun _ => ret true)
    (fun t => ret (body t))
    (fun _ => ret 0).

(** A catalog that saves no record, and a channel as it is first created. *)
Definition always_fails : Channel.PChannelMeta -> bool := fun _ => true.

Definition new_channel (name : string) (mode : Channel.AccessMode) : Channel.PChannelMeta :=
  Channel.mkPChannelMeta (Channel.mkPChannelInfo name 0 mode) None
    Channel.PCHANNEL_META_STATE_UNINITIALIZED [] 0.

(** An object store in which no removal goes through; every segment asked
    about is indexed, and every job of the pool looks at the context before
    the first removal is tried. *)
Definition gc_env_stuck : Gc.Env unit :=
  Gc.mkEnv unit
    (ret gc_now)
    "files" "insert_log" "stats_log" "delta_log"
    (fun prefix _ => ret (gc_listing prefix))
    (fun _ => ret Gc.RemoveFailed)
    gc_parse
    (fun l => ret l)
    (fun _ => ret 100)
    (fun _ => ret true)
    (fun _ => ret true)
    (fun _ => ret true)
    (ret tt)
    (fun n => ret (seq 0 n)).

(** A segment dropped one second ago that no compaction has touched, alone
    in the meta. *)
Definition seg4 : Gc.SegmentInfo :=
  Gc.mkSegmentInfo 4 Gc.Dropped "ch" [] false (10 ^ 15 - 10 ^ 9) 50
    [Gc.mkFieldBinlog 100 [Gc.mkBinlog "files/insert_log/4/a"]] [] [].

Definition gc_state_fresh : Gc.State unit := Gc.mkState [seg4] [] tt.

(** A collector paused until just after the clock's time. *)
Definition gc_paused : Gc.garbageCollector unit :=
  Gc.mkCollector (gc_now + 1) gc_state false.

End Examples.

(* ===================================================================== *)
(** * Part II: properties                                                 *)
(* ===================================================================== *)

Lemma wrap_in_range (z : Z) : Int64.in_range z -> Int64.wrap z = z.
Proof.
  unfold Int64.in_range, Int64.wrap, Int64.min_int, Int64.max_int. intros H.
  rewrite Z.mod_small; lia.
Qed.

(** ** The collector's pause deadline *)

Lemma pause_step_deadline {W : Type} (E : Gc.Env W) (opt : Gc.GcOption)
    (pu : GoTime.Time) (s : Gc.State W) (d : GoTime.Duration) :
  Gc.pauseUntil
    (Gc.work_step E opt (Gc.CmdCh (Gc.mkGcCmd Gc.GcCommand_Pause d)) (Gc.mkCollector pu s false))
  = Z.max pu (GoTime.Add (fst (Gc.Now E (Gc.world s))) d).
Proof.
  unfold Gc.work_step, Gc.call; simpl.
  destruct (Gc.Now E (Gc.world s)) as [now w]; simpl.
  unfold GoTime.After, GoTime.Add.
  destruct (Z.ltb_spec pu (now + d)); simpl; lia.
Qed.

Lemma work_step_deadline_cases {W : Type} (E : Gc.Env W) (opt : Gc.GcOption)
    (ev : Gc.WorkEvent) (gc : Gc.garbageCollector W) :
  Gc.pauseUntil gc <= Gc.pauseUntil (Gc.work_step E opt ev gc)
  \/ (exists d, ev = Gc.CmdCh (Gc.mkGcCmd Gc.GcCommand_Resume d))
     /\ Gc.pauseUntil (Gc.work_step E opt ev gc) = GoTime.zero.
Proof.
  unfold Gc.work_step.
  destruct (Gc.quit gc); [left; lia |].
  destruct ev as [ | | [[ | | ] d] | ]; simpl.
  - destruct (Gc.call (Gc.Now E) (Gc.gcState gc)) as [now s].
    destruct (GoTime.Before now (Gc.pauseUntil gc)); simpl; left; lia.
  - left; lia.
  - left; lia.
  - destruct (Gc.call (Gc.Now E) (Gc.gcState gc)) as [now s].
    unfold GoTime.After.
    destruct (Z.ltb_spec (Gc.pauseUntil gc) (GoTime.Add now d)); simpl; left; lia.
  - right; split; [exists d; reflexivity | reflexivity].
  - left; lia.
Qed.

(** C10.  While the loop of [work] runs, a [Pause] command with duration [d]
    received at instant [now] leaves the deadline at the maximum of its
    previous value and [now + d], so a call of [Pause] never moves the
    deadline back; whatever the loop receives, the deadline does not move
    back unless what it receives is a [Resume] command, and a [Resume]
    command sets it to the zero time. *)
Theorem C10_pause_deadline_monotone :
  forall (W : Type) (E : Gc.Env W) (opt : Gc.GcOption)
         (pu : GoTime.Time) (s : Gc.State W),
    let gc := Gc.mkCollector pu s false in
    (forall d,
        Gc.pauseUntil (Gc.work_step E opt (Gc.CmdCh (Gc.mkGcCmd Gc.GcCommand_Pause d)) gc)
        = Z.max pu (GoTime.Add (fst (Gc.Now E (Gc.world s))) d))
    /\ (forall d, pu <= Gc.pauseUntil (Gc.Pause E opt d gc))
    /\ (forall ev,
           pu <= Gc.pauseUntil (Gc.work_step E opt ev gc)
           \/ exists d, ev = Gc.CmdCh (Gc.mkGcCmd Gc.GcCommand_Resume d))
    /\ (forall d,
           Gc.pauseUntil (Gc.work_step E opt (Gc.CmdCh (Gc.mkGcCmd Gc.GcCommand_Resume d)) gc)
           = GoTime.zero).
Proof.
  intros W E opt pu s gc. split; [| split; [| split]].
  - intros d. unfold gc. apply pause_step_deadline.
  - intros d. unfold Gc.Pause. destruct (negb (Gc.enabled opt)); [simpl; lia |].
    unfold gc. rewrite pause_step_deadline. lia.
  - intros ev.
    destruct (work_step_deadline_cases E opt ev gc) as [H | [H _]]; [left | right]; assumption.
  - intros d. reflexivity.
Qed.

(** ** The pending queue *)

Import Sched.

Lemma Queue_Get_Some_id (id : UniqueID) (q : Queue.t) (t : Task) :
  Queue.Get id q = Some t -> taskID t = id /\ In t q.
Proof.
  unfold Queue.Get. intros H. apply find_some in H as [Hin Heq].
  split; [lia | assumption].
Qed.

Lemma Queue_Get_None (id : UniqueID) (q : Queue.t) :
  Queue.Get id q = None <-> ~ In id (Queue.Keys q).
Proof.
  unfold Queue.Get, Queue.Keys. split.
  - intros H Hin. apply in_map_iff in Hin as [x [Hx Hin]].
    pose proof (find_none _ _ H x Hin) as Hn. simpl in Hn. lia.
  - intros H. destruct (find _ q) as [x|] eqn:Hf; [| reflexivity].
    apply find_some in Hf as [Hin Heq]. exfalso. apply H.
    apply in_map_iff. exists x. split; [lia | assumption].
Qed.

Lemma Queue_Exist_true (id : UniqueID) (q : Queue.t) :
  Queue.Exist id q = true <-> In id (Queue.Keys q).
Proof.
  unfold Queue.Exist. destruct (Queue.Get id q) as [x|] eqn:H.
  - split; [intros _ | reflexivity].
    apply Queue_Get_Some_id in H as [Hid Hin].
    unfold Queue.Keys. apply in_map_iff. exists x. split; assumption.
  - split; [discriminate |]. intros Hin. apply Queue_Get_None in H. contradiction.
Qed.

Lemma Queue_Exist_false (id : UniqueID) (q : Queue.t) :
  Queue.Exist id q = false <-> ~ In id (Queue.Keys q).
Proof.
  rewrite <- Queue_Exist_true. destruct (Queue.Exist id q); split; intros; congruence.
Qed.

Lemma Queue_Keys_Remove (id j : UniqueID) (q : Queue.t) :
  In j (Queue.Keys (Queue.Remove id q)) <-> j <> id /\ In j (Queue.Keys q).
Proof.
  unfold Queue.Keys, Queue.Remove. rewrite !in_map_iff. split.
  - intros [x [Hx Hin]]. apply filter_In in Hin as [Hin Hne].
    split; [| exists x; split; assumption].
    destruct (Z.eqb_spec (taskID x) id); simpl in Hne; [discriminate | lia].
  - intros [Hne [x [Hx Hin]]]. exists x. split; [assumption |].
    apply filter_In. split; [assumption |].
    destruct (Z.eqb_spec (taskID x) id); simpl; [lia | reflexivity].
Qed.

Lemma Queue_Remove_absent (id : UniqueID) (q : Queue.t) :
  Queue.Get id q = None -> Queue.Remove id q = q.
Proof.
  unfold Queue.Get, Queue.Remove. induction q as [| x q IH]; simpl; [reflexivity |].
  destruct (Z.eqb_spec (taskID x) id); simpl; [discriminate |].
  intros H. f_equal. apply IH, H.
Qed.

(** ** The scheduler's functions leave the task its id and its cost *)

Lemma same_task_refl (t : Task) : same_task t t.
Proof. split; reflexivity. Qed.

Lemma same_task_trans (t1 t2 t3 : Task) :
  same_task t1 t2 -> same_task t2 t3 -> same_task t1 t3.
Proof. unfold same_task. intuition congruence. Qed.

Lemma frame_refl {W : Type} (s : taskScheduler W) : frame s s.
Proof. split; reflexivity. Qed.

Create HintDb sched.
#[local] Hint Resolve same_task_refl frame_refl : sched.
#[local] Hint Unfold same_task frame : sched.

(** Runs a monadic body: every call to a collaborator is replaced by an
    arbitrary answer and every test by its two outcomes, innermost first. *)
Ltac hooks :=
  unfold bind, call, ret; simpl;
  repeat match goal with
    | |- context [match ?m with (_, _) => _ end] =>
        lazymatch m with
        | context [match _ with (_, _) => _ end] => fail
        | context [if _ then _ else _] => fail
        | _ => destruct m; simpl
        end
    | |- context [if ?b then _ else _] =>
        lazymatch b with
        | context [match _ with (_, _) => _ end] => fail
        | context [if _ then _ else _] => fail
        | _ => destruct b; simpl
        end
    end.

Section SchedulerFrames.

Context {W : Type} (E : Env W).

Lemma processNone_frame (t : Task) (s : taskScheduler W) :
  same_task t (snd (fst (processNone E t s))) /\ frame s (snd (processNone E t s)).
Proof. unfold processNone. hooks. auto with sched. Qed.

Lemma processInit_frame (t : Task) (n : UniqueID) (s : taskScheduler W) :
  same_task t (snd (fst (processInit E t n s))) /\ frame s (snd (processInit E t n s)).
Proof. unfold processInit. hooks; auto with sched. Qed.

Lemma process_frame (t : Task) (n : UniqueID) (s : taskScheduler W) :
  same_task t (snd (fst (process E t n s))) /\ frame s (snd (process E t n s)).
Proof.
  unfold process.
  destruct (GetState t); auto using processNone_frame, processInit_frame;
    unfold ret; simpl; auto with sched.
Qed.

Lemma processFinished_frame (t : Task) (s : taskScheduler W) :
  same_task t (snd (fst (processFinished E t s))) /\ frame s (snd (processFinished E t s)).
Proof. unfold processFinished. hooks; auto with sched. Qed.

Lemma processRetry_spec (t : Task) (s : taskScheduler W) :
  let r := processRetry E t s in
  same_task t (snd (fst r))
  /\ runningTasks (snd r) = runningTasks s
  /\ (pendingTasks (snd r) = pendingTasks s /\ fst (fst r) = false
      \/ pendingTasks (snd r) = Queue.Push (snd (fst r)) (pendingTasks s)
         /\ fst (fst r) = true).
Proof. unfold processRetry, processRetry_reset, push. hooks; auto with sched. Qed.

Lemma processInProgress_frame (t : Task) (s : taskScheduler W) :
  same_task t (snd (fst (processInProgress E t s)))
  /\ frame s (snd (processInProgress E t s)).
Proof.
  unfold processInProgress, processFinished. hooks; auto with sched.
  all: match goal with |- context [GetState ?x] => destruct (GetState x) end;
    hooks; auto with sched.
Qed.

Lemma checkProcessingTask_spec (t : Task) (s : taskScheduler W) :
  let r := checkProcessingTask E t s in
  same_task t (snd (fst r))
  /\ runningTasks (snd r) = runningTasks s
  /\ (pendingTasks (snd r) = pendingTasks s
      \/ pendingTasks (snd r) = Queue.Push (snd (fst r)) (pendingTasks s)
         /\ fst (fst r) = true).
Proof.
  unfold checkProcessingTask. destruct (GetState t).
  1,2: unfold ret; simpl; auto with sched.
  - destruct (processInProgress_frame t s) as [H1 [H2 H3]]. auto.
  - destruct (processFinished_frame t s) as [H1 [H2 H3]]. auto.
  - destruct (processFinished_frame t s) as [H1 [H2 H3]]. auto.
  - destruct (processRetry_spec t s) as (H1 & H2 & [[H3 H4] | [H3 H4]]); auto.
Qed.

(** A goroutine of a dispatch pass ends in one of three ways: the task goes
    back to the queue, it goes to the running map, or it is dropped. *)
Lemma run_goroutine_spec (t : Task) (n : UniqueID) (s : taskScheduler W) :
  let s' := snd (run_goroutine E t n s) in
  exists t', same_task t t'
    /\ (pendingTasks s' = Queue.Push t' (pendingTasks s)
          /\ runningTasks s' = runningTasks s
        \/ pendingTasks s' = pendingTasks s
           /\ runningTasks s' = <[taskID t' := t']> (runningTasks s)
        \/ pendingTasks s' = pendingTasks s /\ runningTasks s' = runningTasks s).
Proof.
  intros s'. subst s'. unfold run_goroutine, bind.
  set (m := if bool_decide (n <> -1) then process E t n else ret (true, t)).
  assert (Hm : same_task t (snd (fst (m s))) /\ frame s (snd (m s))).
  { subst m. case_bool_decide; [apply process_frame | unfold ret; simpl; auto with sched]. }
  destruct (m s) as [[b t1] s1]. simpl in *. destruct Hm as [Hst [Hp Hr]].
  destruct (GetState t1).
  - pose proof (processNone_frame t1 s1) as [Hst' [Hp' Hr']].
    destruct (processNone E t1 s1) as [[b2 t2] s2]. simpl in *.
    exists t2. split; [eauto using same_task_trans |].
    destruct b2; simpl; unfold push, ret; simpl.
    + right. right. split; congruence.
    + left. split; congruence.
  - exists t1. split; [assumption |]. left. unfold push; simpl. split; congruence.
  - exists t1. split; [assumption |]. right. left. unfold insertRunning; simpl. split; congruence.
  - exists t1. split; [assumption |]. right. left. unfold insertRunning; simpl. split; congruence.
  - exists t1. split; [assumption |]. right. left. unfold insertRunning; simpl. split; congruence.
  - exists t1. split; [assumption |]. right. left. unfold insertRunning; simpl. split; congruence.
Qed.

End SchedulerFrames.

(** ** Abort *)

(** C1.  [AbortTask] on a task found in the pending queue takes it out of the
    queue and puts it into the running map in state failed with reason
    "canceled"; on a task that is not queued and is in the running map it
    sets the state to failed with reason "canceled" and the task stays in the
    running map.  In both cases the queue is left without the task and every
    other entry of the running map is untouched. *)
Theorem C1_abort_task :
  forall (W : Type) (s : taskScheduler W) (id : UniqueID) (t : Task),
    Queue.Get id (pendingTasks s) = Some t
    \/ (Queue.Get id (pendingTasks s) = None /\ runningTasks s !! id = Some t) ->
    let s' := snd (AbortTask id s) in
    let t' := SetState JobStateFailed "canceled" t in
    runningTasks s' = <[id := t']> (runningTasks s)
    /\ runningTasks s' !! id = Some t'
    /\ taskID t' = taskID t
    /\ GetState t' = JobStateFailed
    /\ GetFailReason t' = "canceled"%string
    /\ Queue.Exist id (pendingTasks s') = false
    /\ pendingTasks s' = Queue.Remove id (pendingTasks s)
    /\ world s' = world s.
Proof.
  intros W s id t H s' t'. unfold s', AbortTask.
  destruct H as [Hp | [Hp Hr]]; rewrite Hp.
  - simpl. repeat split.
    + apply lookup_insert_eq.
    + apply Queue_Exist_false. rewrite Queue_Keys_Remove. tauto.
  - rewrite Hr. simpl. repeat split.
    + apply lookup_insert_eq.
    + unfold Queue.Exist. rewrite Hp. reflexivity.
    + symmetry. apply Queue_Remove_absent, Hp.
Qed.

Lemma C1_abort_task_witness :
  runningTasks (snd (AbortTask 7 Examples.sched_pending7)) !! 7
  = Some (SetState JobStateFailed "canceled" Examples.task7)
  /\ Queue.Exist 7 (pendingTasks (snd (AbortTask 7 Examples.sched_pending7))) = false.
Proof.
  destruct (C1_abort_task unit Examples.sched_pending7 7 Examples.task7)
    as (_ & H1 & _ & _ & _ & H2 & _).
  - left. reflexivity.
  - split; [exact H1 | exact H2].
Defined.

(** ** Picking a node *)

Lemma range_order_covers (order : list UniqueID) (ws : gmap UniqueID Z) (m : UniqueID) (a : Z) :
  range_order order ws -> ws !! m = Some a -> In m order.
Proof.
  unfold range_order. intros Hp Hm.
  eapply Permutation_in; [symmetry; exact Hp |].
  apply in_map_iff. exists (m, a). split; [reflexivity |].
  apply list_elem_of_In, elem_of_map_to_list, Hm.
Qed.

Lemma pickNode_range_outcome (order : list UniqueID) (ws : gmap UniqueID Z) (c fb mx : Z) :
  fb = -1 \/ (ws !! fb = Some mx /\ mx < c /\ 0 < mx) ->
  pick_outcome ws c (pickNode_range order ws c fb mx).
Proof.
  revert fb mx. induction order as [| node rest IH]; intros fb mx Hfb; simpl.
  - case_bool_decide as Hne.
    + destruct Hfb as [-> | (Hl & Hlt & Hpos)]; [contradiction |].
      eapply pick_fallback; eauto.
    + apply pick_none.
  - destruct (ws !! node) as [avail|] eqn:Hnode; [| apply IH, Hfb].
    destruct (Z.leb_spec c avail).
    + eapply pick_fit; eauto.
    + destruct (Z.ltb_spec mx avail); destruct (Z.ltb_spec 0 avail); simpl;
        try (apply IH, Hfb).
      apply IH. right. auto.
Qed.

Lemma pickNode_outcome (order : list UniqueID) (ws : gmap UniqueID Z) (c : Z) :
  pick_outcome ws c (pickNode order ws c).
Proof. apply pickNode_range_outcome. left. reflexivity. Qed.

Example pickNode_fits :
  pickNode Examples.order12 Examples.slots35 4 = (2, <[2 := 1]> Examples.slots35).
Proof. vm_compute. reflexivity. Qed.

Example pickNode_falls_back :
  pickNode Examples.order12 Examples.slots35 9 = (2, <[2 := 0]> Examples.slots35).
Proof. vm_compute. reflexivity. Qed.

Example pickNode_no_node :
  pickNode Examples.order12 (<[1 := 0]> (<[2 := 0]> ∅)) 4 = (-1, <[1 := 0]> (<[2 := 0]> ∅)).
Proof. vm_compute. reflexivity. Qed.

(** A node that fits among those still to visit is found. *)
Lemma pickNode_range_fit (order : list UniqueID) (ws : gmap UniqueID Z) (c fb mx : Z) :
  (exists m a, In m order /\ ws !! m = Some a /\ c <= a) ->
  exists n a, ws !! n = Some a /\ c <= a
              /\ pickNode_range order ws c fb mx = (n, <[n := Int64.wrap (a - c)]> ws).
Proof.
  revert fb mx. induction order as [| node rest IH]; intros fb mx (m & a & Hin & Hm & Hle).
  - destruct Hin.
  - simpl. destruct (ws !! node) as [avail|] eqn:Hnode.
    + destruct (Z.leb_spec c avail) as [Hfit | Hno].
      * exists node, avail. auto.
      * assert (Hrest : exists m a, In m rest /\ ws !! m = Some a /\ c <= a).
        { exists m, a. destruct Hin as [-> | Hin]; [| auto].
          rewrite Hnode in Hm. inversion Hm. lia. }
        destruct ((mx <? avail) && (0 <? avail)); apply IH, Hrest.
    + apply IH. exists m, a. destruct Hin as [-> | Hin]; [congruence | auto].
Qed.

(** With no node that fits, the loop keeps the largest positive entry seen. *)
Lemma pickNode_range_nofit (order : list UniqueID) (ws : gmap UniqueID Z) (c fb mx : Z) :
  (forall m a, ws !! m = Some a -> a < c) ->
  ws !! (-1) = None ->
  (fb = -1 /\ mx = -1) \/ (ws !! fb = Some mx /\ 0 < mx) ->
  let r := pickNode_range order ws c fb mx in
  (fst r = -1 /\ snd r = ws /\ fb = -1
   /\ forall m a, In m order -> ws !! m = Some a -> a <= 0)
  \/ (exists a, ws !! fst r = Some a /\ 0 < a /\ mx <= a
                /\ (forall m b, In m order -> ws !! m = Some b -> b <= a)
                /\ snd r = <[fst r := 0]> ws).
Proof.
  intros Hno Hm1. revert fb mx.
  induction order as [| node rest IH]; intros fb mx Hfb; simpl.
  - case_bool_decide as Hne; simpl.
    + right. destruct Hfb as [[-> _] | [Hl Hpos]]; [contradiction |].
      exists mx. repeat split; auto; try lia; intros m b [].
    + left. assert (fb = -1) as -> by lia.
      repeat split; auto; intros m a [].
  - destruct (ws !! node) as [avail|] eqn:Hnode.
    + pose proof (Hno _ _ Hnode) as Hlt.
      destruct (Z.leb_spec c avail); [lia |].
      destruct (Z.ltb_spec mx avail) as [Hgt | Hle];
        destruct (Z.ltb_spec 0 avail) as [Hpos | Hnp]; simpl.
      * destruct (IH node avail) as [(H1 & H2 & H3 & H4) | (a & H1 & H2 & H3 & H4 & H5)].
        { right. auto. }
        { rewrite H3 in Hnode. congruence. }
        right. exists a. repeat split; auto; try lia.
        intros m b [<- | Hin] Hb; [| eauto].
        rewrite Hnode in Hb. inversion Hb. lia.
      * destruct (IH fb mx Hfb) as [(H1 & H2 & H3 & H4) | (a & H1 & H2 & H3 & H4 & H5)].
        { left. repeat split; auto.
          intros m b [<- | Hin] Hb; [| eauto].
          rewrite Hnode in Hb. inversion Hb. lia. }
        right. exists a. repeat split; auto.
        intros m b [<- | Hin] Hb; [| eauto].
        rewrite Hnode in Hb. inversion Hb. lia.
      * destruct (IH fb mx Hfb) as [(H1 & H2 & H3 & H4) | (a & H1 & H2 & H3 & H4 & H5)].
        { left. repeat split; auto.
          intros m b [<- | Hin] Hb; [| eauto].
          rewrite Hnode in Hb. inversion Hb.
          destruct Hfb as [[_ ->] | [Hl Hp]]; [lia | subst fb; congruence]. }
        right. exists a. repeat split; auto.
        intros m b [<- | Hin] Hb; [| eauto].
        rewrite Hnode in Hb. inversion Hb. lia.
      * destruct (IH fb mx Hfb) as [(H1 & H2 & H3 & H4) | (a & H1 & H2 & H3 & H4 & H5)].
        { left. repeat split; auto.
          intros m b [<- | Hin] Hb; [| eauto].
          rewrite Hnode in Hb. inversion Hb. lia. }
        right. exists a. repeat split; auto.
        intros m b [<- | Hin] Hb; [| eauto].
        rewrite Hnode in Hb. inversion Hb. lia.
    + destruct (IH fb mx Hfb) as [(H1 & H2 & H3 & H4) | (a & H1 & H2 & H3 & H4 & H5)].
      * left. repeat split; auto.
        intros m b [<- | Hin] Hb; [congruence | eauto].
      * right. exists a. repeat split; auto.
        intros m b [<- | Hin] Hb; [congruence | eauto].
Qed.

(** C2.  On a well-formed snapshot, for a task of positive slot cost [c] and
    whatever the order of the range: if some node has at least [c] free
    slots, [pickNode] returns such a node and lowers its entry by [c]; if no
    node fits and some node has free slots, it returns a node whose entry is
    positive and the largest of the snapshot and sets that entry to 0; if no
    node has free slots it returns -1 and the snapshot is unchanged. *)
Theorem C2_pickNode :
  forall (order : list UniqueID) (ws : gmap UniqueID Z) (c : Z),
    0 < c -> range_order order ws -> wf_slots ws ->
    let r := pickNode order ws c in
    ((exists m a, ws !! m = Some a /\ c <= a) ->
     exists a, ws !! fst r = Some a /\ c <= a /\ snd r = <[fst r := a - c]> ws)
    /\ ((forall m a, ws !! m = Some a -> a < c) ->
        (exists m a, ws !! m = Some a /\ 0 < a) ->
        exists a, ws !! fst r = Some a /\ 0 < a
                  /\ (forall m b, ws !! m = Some b -> b <= a)
                  /\ snd r = <[fst r := 0]> ws)
    /\ ((forall m a, ws !! m = Some a -> a <= 0) ->
        fst r = -1 /\ snd r = ws).
Proof.
  intros order ws c Hc Hord [Hm1 Hrange] r. unfold r, pickNode.
  assert (Hnofit :
    (forall m a, ws !! m = Some a -> a < c) ->
    let r := pickNode_range order ws c (-1) (-1) in
    (fst r = -1 /\ snd r = ws /\ forall m a, ws !! m = Some a -> a <= 0)
    \/ (exists a, ws !! fst r = Some a /\ 0 < a
                  /\ (forall m b, ws !! m = Some b -> b <= a)
                  /\ snd r = <[fst r := 0]> ws)).
  { intros Hno.
    destruct (pickNode_range_nofit order ws c (-1) (-1) Hno Hm1)
      as [(H1 & H2 & _ & H4) | (a & H1 & H2 & _ & H4 & H5)].
    - left. auto.
    - left. repeat split; auto.
      intros m b Hb. eapply H4; eauto using range_order_covers.
    - right. exists a. repeat split; auto.
      intros m b Hb. eapply H4; eauto using range_order_covers. }
  split; [| split].
  - intros (m & a & Hm & Hle).
    destruct (pickNode_range_fit order ws c (-1) (-1)) as (n & a' & Hn & Hle' & ->).
    { exists m, a. eauto using range_order_covers. }
    simpl. exists a'. repeat split; auto.
    rewrite wrap_in_range; [reflexivity |].
    pose proof (Hrange _ _ Hn) as Hr. unfold Int64.in_range, Int64.min_int in *. simpl in Hr. lia.
  - intros Hno (m & a & Hm & Hpos).
    destruct (Hnofit Hno) as [(_ & _ & H) | H]; [| exact H].
    specialize (H _ _ Hm). lia.
  - intros Hall.
    destruct Hnofit as [(H1 & H2 & _) | (a & H1 & H2 & _)].
    + intros m a Hm. specialize (Hall _ _ Hm). lia.
    + auto.
    + specialize (Hall _ _ H1). lia.
Qed.

Lemma C2_pickNode_witness :
  exists a, Examples.slots35 !! fst (pickNode Examples.order12 Examples.slots35 4) = Some a
            /\ 4 <= a
            /\ snd (pickNode Examples.order12 Examples.slots35 4)
               = <[fst (pickNode Examples.order12 Examples.slots35 4) := a - 4]> Examples.slots35.
Proof.
  apply (C2_pickNode Examples.order12 Examples.slots35 4).
  - lia.
  - vm_compute. apply perm_swap.
  - apply (bool_decide_unpack _). vm_compute. exact I.
  - exists 2, 5. split; [reflexivity | lia].
Defined.

(** ** Slot reservation within one dispatch pass *)

Lemma nonfallback_cost_snoc n tr d :
  nonfallback_cost n (tr ++ [d])
  = nonfallback_cost n tr
    + (if Z.eqb (dNode d) n && negb (dFallback d) then dCost d else 0).
Proof.
  unfold nonfallback_cost. rewrite List.filter_app, List.map_app, List.fold_right_app. simpl.
  generalize (List.map dCost (List.filter (fun d0 => Z.eqb (dNode d0) n && negb (dFallback d0)) tr)).
  destruct (Z.eqb (dNode d) n && negb (dFallback d)); simpl;
    induction l as [| x l IH]; simpl; lia.
Qed.

Lemma fallback_count_snoc n tr d :
  fallback_count n (tr ++ [d])
  = (fallback_count n tr + (if Z.eqb (dNode d) n && dFallback d then 1 else 0))%nat.
Proof.
  unfold fallback_count. rewrite List.filter_app, List.length_app. simpl.
  destruct (Z.eqb (dNode d) n && dFallback d); reflexivity.
Qed.

Lemma node_inv_step n a0 ws tr id c r :
  Int64.in_range a0 -> n <> -1 -> 0 <= c ->
  node_inv n a0 ws tr ->
  pick_outcome ws c r ->
  node_inv n a0 (snd r)
    (tr ++ [mkDispatch id c (fst r)
              match ws !! fst r with Some avail => avail <? c | None => false end]).
Proof.
  intros Hrange Hn Hc (avail & Hav & HS & Hcase) Hout.
  unfold node_inv. rewrite nonfallback_cost_snoc, fallback_count_snoc.
  unfold Int64.in_range, Int64.min_int, Int64.max_int in Hrange.
  destruct Hout as [m a Hm Hfit | m a Hm Hlt Hpos Hm1 | ];
    cbn [fst snd dNode dFallback dCost].
  - rewrite Hm. destruct (Z.ltb_spec a c); [lia |].
    destruct (Z.eqb_spec m n) as [-> | Hne]; simpl.
    + rewrite Hav in Hm. inversion Hm; subst a.
      assert (Hw : Int64.wrap (avail - c) = avail - c).
      { apply wrap_in_range. unfold Int64.in_range, Int64.min_int, Int64.max_int.
        destruct Hcase as [(_ & -> & _) | (_ & -> & _)]; lia. }
      exists (avail - c). rewrite Hw. split; [apply lookup_insert_eq |].
      split; [lia |].
      destruct Hcase as [(HF & Heq & _) | (HF & Heq & Hle)]; [left | right];
        repeat split; lia.
    + exists avail. split; [rewrite lookup_insert_ne by assumption; exact Hav |].
      split; [lia |].
      destruct Hcase as [(HF & Heq & Hz) | (HF & Heq & Hle)]; [left | right];
        repeat split; lia.
  - rewrite Hm. destruct (Z.ltb_spec a c); [| lia].
    destruct (Z.eqb_spec m n) as [-> | Hne]; simpl.
    + rewrite Hav in Hm. inversion Hm; subst a.
      exists 0. split; [apply lookup_insert_eq |]. split; [lia |].
      destruct Hcase as [(HF & Heq & _) | (HF & Heq & Hle)]; [| lia].
      right. repeat split; lia.
    + exists avail. split; [rewrite lookup_insert_ne by assumption; exact Hav |].
      split; [lia |].
      destruct Hcase as [(HF & Heq & Hz) | (HF & Heq & Hle)]; [left | right];
        repeat split; lia.
  - destruct (Z.eqb_spec (-1) n); [congruence |]. simpl.
    exists avail. split; [exact Hav |]. split; [lia |].
    destruct Hcase as [(HF & Heq & Hz) | (HF & Heq & Hle)]; [left | right];
      repeat split; lia.
Qed.

Lemma take_goroutine_Some id l g rest :
  take_goroutine id l = Some (g, rest) ->
  taskID (fst g) = id /\ In g l /\ (forall x, In x rest -> In x l)
  /\ Permutation l (g :: rest).
Proof.
  revert g rest. induction l as [| x l IH]; simpl; intros g rest H; [discriminate |].
  destruct (Z.eqb_spec (taskID (fst x)) id) as [Heq | Hne].
  - inversion H; subst. repeat split; auto.
  - destruct (take_goroutine id l) as [[g' r'] |]; [| discriminate].
    inversion H; subst. destruct (IH g r' eq_refl) as (H1 & H2 & H3 & H4).
    repeat split; auto.
    + intros y [-> | Hy]; [left; reflexivity | right; auto].
    + rewrite H4. apply perm_swap.
Qed.

Lemma Queue_Push_In x t q : In x (Queue.Push t q) -> x = t \/ In x q.
Proof.
  unfold Queue.Push. destruct (Queue.Exist (taskID t) q); [auto |].
  intros H. apply in_app_or in H as [H | [H | []]]; auto.
Qed.

Section PassSlots.
Context {W : Type} (E : Env W).

Lemma run_goroutine_costs t n (s : taskScheduler W) :
  0 <= taskSlot t ->
  (forall x, In x (pendingTasks s) -> 0 <= taskSlot x) ->
  forall x, In x (pendingTasks (snd (run_goroutine E t n s))) -> 0 <= taskSlot x.
Proof.
  intros Ht Hq x Hx.
  destruct (run_goroutine_spec E t n s) as (t' & [_ Hslot] & [[Hp _] | [[Hp _] | [Hp _]]]);
    rewrite Hp in Hx; auto.
  apply Queue_Push_In in Hx as [-> | Hx]; [lia | auto].
Qed.

Lemma run_event_slot_inv n a0 (p : Pass W) ev :
  Int64.in_range a0 -> n <> -1 ->
  costs_nonneg p -> node_inv n a0 (pSlots p) (pTrace p) ->
  costs_nonneg (run_event E p ev)
  /\ node_inv n a0 (pSlots (run_event E p ev)) (pTrace (run_event E p ev)).
Proof.
  intros Hrange Hn [Hq Hg] Hinv. destruct ev as [order | id]; simpl.
  - unfold run_loop_iter. destruct (pBroken p); [split; [split |]; assumption |].
    destruct (hasAvailableSlots (pSlots p)); simpl; [| split; [split |]; assumption].
    destruct (pendingTasks (pSched p)) as [| task q] eqn:Hpend; simpl.
    { split; [split; [simpl; rewrite Hpend; intros ? [] | assumption] | assumption]. }
    assert (Hc : 0 <= taskSlot task) by (apply Hq; left; reflexivity).
    split; [split |].
    + intros t Ht. apply Hq. right. exact Ht.
    + intros g Hin. apply in_app_or in Hin as [Hin | [<- | []]]; auto.
    + apply node_inv_step; auto. apply pickNode_outcome.
  - destruct (take_goroutine id (pInflight p)) as [[g rest] |] eqn:Htake; simpl;
      [| split; [split |]; assumption].
    apply take_goroutine_Some in Htake as (_ & Hin & Hrest & _).
    split; [split |]; auto.
    apply run_goroutine_costs; auto.
Qed.

Lemma run_pass_slot_inv n a0 sched (p : Pass W) :
  Int64.in_range a0 -> n <> -1 ->
  costs_nonneg p -> node_inv n a0 (pSlots p) (pTrace p) ->
  node_inv n a0 (pSlots (fold_left (run_event E) sched p))
               (pTrace (fold_left (run_event E) sched p)).
Proof.
  intros Hrange Hn. revert p. induction sched as [| ev sched IH]; intros p Hc Hinv; simpl.
  - assumption.
  - destruct (run_event_slot_inv n a0 p ev Hrange Hn Hc Hinv) as [Hc' Hinv']. auto.
Qed.

End PassSlots.

(** C3.  In a dispatch pass over a well-formed snapshot, with tasks of
    non-negative slot cost, under every schedule of the loop and its
    goroutines and every order of the ranges: for every node [n] of the
    snapshot, the slot costs of the tasks given to [n] because they fitted sum
    to at most the entry [n] started with (and to 0 if that entry was
    negative), and at most one task is given to [n] as the fallback. *)
Theorem C3_dispatch_pass_slots :
  forall (W : Type) (E : Env W) (ws0 : gmap UniqueID Z) (sched : list Event)
         (s : taskScheduler W) (n : UniqueID) (a0 : Z),
    wf_slots ws0 ->
    (forall t, In t (pendingTasks s) -> 0 <= taskSlot t) ->
    ws0 !! n = Some a0 ->
    let trace := pTrace (run_pass E ws0 sched s) in
    (0 <= a0 -> nonfallback_cost n trace <= a0)
    /\ (a0 < 0 -> nonfallback_cost n trace = 0)
    /\ (fallback_count n trace <= 1)%nat.
Proof.
  intros W E ws0 sched s n a0 [Hm1 Hrange] Hcost Hn trace.
  assert (Hne : n <> -1) by (intros ->; congruence).
  assert (Hinv : node_inv n a0 (pSlots (run_pass E ws0 sched s)) trace).
  { unfold trace, run_pass. apply run_pass_slot_inv; auto.
    - exact (Hrange _ _ Hn).
    - split; simpl; [exact Hcost | intros g []].
    - exists a0. simpl. split; [exact Hn |]. unfold nonfallback_cost, fallback_count. simpl.
      split; [lia |]. left. repeat split; auto; lia. }
  destruct Hinv as (avail & _ & HS & [(HF & Heq & Hz) | (HF & Heq & Hle)]).
  - repeat split; lia.
  - repeat split; lia.
Qed.

Lemma C3_dispatch_pass_slots_witness :
  nonfallback_cost 1
    (pTrace (run_pass Examples.env Examples.slots35
               [EvLoop Examples.order12; EvLoop Examples.order12; EvLoop Examples.order12]
               Examples.sched_pending78)) <= 3
  /\ (fallback_count 1
        (pTrace (run_pass Examples.env Examples.slots35
                   [EvLoop Examples.order12; EvLoop Examples.order12; EvLoop Examples.order12]
                   Examples.sched_pending78)) <= 1)%nat.
Proof.
  assert (Hwf : wf_slots Examples.slots35).
  { apply (bool_decide_unpack _). vm_compute. exact I. }
  assert (Hcost : forall t, In t (pendingTasks Examples.sched_pending78) -> 0 <= taskSlot t).
  { intros t [<- | [<- | []]]; simpl; lia. }
  destruct (C3_dispatch_pass_slots unit Examples.env Examples.slots35
              [EvLoop Examples.order12; EvLoop Examples.order12; EvLoop Examples.order12]
              Examples.sched_pending78 1 3 Hwf Hcost eq_refl) as (H1 & _ & H2).
  split; [apply H1; lia | exact H2].
Defined.

(** ** The representation invariant, and where it breaks *)

Lemma Queue_Keys_Push t q :
  Queue.Keys (Queue.Push t q)
  = if Queue.Exist (taskID t) q then Queue.Keys q else Queue.Keys q ++ [taskID t].
Proof.
  unfold Queue.Push. destruct (Queue.Exist (taskID t) q); [reflexivity |].
  unfold Queue.Keys. rewrite List.map_app. reflexivity.
Qed.

Lemma Queue_Keys_Push_fresh t q :
  ~ In (taskID t) (Queue.Keys q) -> Queue.Keys (Queue.Push t q) = Queue.Keys q ++ [taskID t].
Proof.
  intros H. rewrite Queue_Keys_Push.
  apply Queue_Exist_false in H. rewrite H. reflexivity.
Qed.

Lemma Queue_Keys_Remove_filter id q :
  Queue.Keys (Queue.Remove id q) = List.filter (fun j => negb (Z.eqb j id)) (Queue.Keys q).
Proof.
  unfold Queue.Keys, Queue.Remove. induction q as [| x q IH]; simpl; [reflexivity |].
  destruct (Z.eqb (taskID x) id); simpl; rewrite IH; reflexivity.
Qed.

Lemma sched_inv_flight {W : Type} (s : taskScheduler W) :
  sched_inv s <-> flight_inv s [].
Proof. unfold sched_inv, flight_inv, flight_ids. simpl. rewrite app_nil_r. tauto. Qed.

Lemma flight_inv_perm {W : Type} (s : taskScheduler W) l l' :
  Permutation l l' -> flight_inv s l -> flight_inv s l'.
Proof.
  intros Hp (H1 & H2 & H3).
  assert (Hp' : Permutation (Queue.Keys (pendingTasks s) ++ flight_ids l)
                            (Queue.Keys (pendingTasks s) ++ flight_ids l')).
  { apply Permutation_app_head. unfold flight_ids. apply Permutation_map, Hp. }
  repeat split.
  - eapply Permutation_NoDup; eauto.
  - exact H2.
  - intros id Hin. apply H3. eapply Permutation_in; [symmetry; exact Hp' | exact Hin].
Qed.

Section OperationsInv.
Context {W : Type} (E : Env W).

Lemma enqueue_inv task (s : taskScheduler W) :
  sched_inv s -> sched_inv (snd (enqueue E task s)).
Proof.
  intros (H1 & H2 & H3). unfold enqueue.
  destruct (runningTasks s !! taskID task) eqn:Hr; [repeat split; assumption |].
  unfold bind, call, push. destruct (Now E (world s)) as [now w]. simpl.
  unfold sched_inv; simpl. rewrite Queue_Keys_Push. simpl.
  destruct (Queue.Exist (taskID task) (pendingTasks s)) eqn:Hex; [repeat split; assumption |].
  apply Queue_Exist_false in Hex. repeat split.
  - apply List.NoDup_app; [assumption | repeat constructor; intros [] |].
    intros x Hx [<- | []]. contradiction.
  - exact H2.
  - intros id Hin. apply in_app_or in Hin as [Hin | [<- | []]]; auto.
Qed.

Lemma AbortTask_inv id (s : taskScheduler W) :
  sched_inv s -> sched_inv (snd (AbortTask id s)).
Proof.
  intros (H1 & H2 & H3). unfold AbortTask.
  destruct (Queue.Get id (pendingTasks s)) as [task |] eqn:Hg.
  - apply Queue_Get_Some_id in Hg as [Hid _]. unfold sched_inv; simpl. repeat split.
    + rewrite Queue_Keys_Remove_filter. apply List.NoDup_filter, H1.
    + intros j t Hl. destruct (decide (id = j)) as [<- | Hne].
      * rewrite lookup_insert_eq in Hl. inversion Hl. exact Hid.
      * rewrite lookup_insert_ne in Hl by assumption. eauto.
    + intros j Hin. apply Queue_Keys_Remove in Hin as [Hne Hin].
      rewrite lookup_insert_ne by congruence. auto.
  - destruct (runningTasks s !! id) as [rt |] eqn:Hr; [| repeat split; assumption].
    unfold sched_inv; simpl. repeat split.
    + exact H1.
    + intros j t Hl. destruct (decide (id = j)) as [<- | Hne].
      * rewrite lookup_insert_eq in Hl. inversion Hl. simpl. eauto.
      * rewrite lookup_insert_ne in Hl by assumption. eauto.
    + intros j Hin. destruct (decide (id = j)) as [<- | Hne].
      * apply Queue_Get_None in Hg. contradiction.
      * rewrite lookup_insert_ne by assumption. auto.
Qed.

Lemma checkProcessingTasks_body_inv id (s : taskScheduler W) :
  sched_inv s -> sched_inv (snd (checkProcessingTasks_body E id s)).
Proof.
  intros (H1 & H2 & H3). unfold checkProcessingTasks_body.
  destruct (runningTasks s !! id) as [task |] eqn:Hr; [| repeat split; assumption].
  unfold bind.
  pose proof (checkProcessingTask_spec E task s) as (Hst & Hrun & Hpend).
  destruct (checkProcessingTask E task s) as [[suc task'] s1]. simpl in *.
  pose proof (H2 _ _ Hr) as Hid. destruct Hst as [Hid' _].
  assert (Hnp : ~ In id (Queue.Keys (pendingTasks s))).
  { intros Hin. apply H3 in Hin. congruence. }
  destruct suc; unfold removeRunning, insertRunning, sched_inv; simpl.
  - repeat split.
    + destruct Hpend as [-> | [-> _]]; [assumption |].
      rewrite Queue_Keys_Push_fresh by congruence.
      apply List.NoDup_app; [assumption | repeat constructor; intros [] |].
      intros x Hx [<- | []]. congruence.
    + rewrite Hrun. intros j t Hl. apply lookup_delete_Some in Hl as [_ Hl]. eauto.
    + rewrite Hrun. intros j Hin. destruct (decide (id = j)) as [<- | Hne].
      * apply lookup_delete_eq.
      * rewrite lookup_delete_ne by assumption. apply H3.
        destruct Hpend as [Hp | [Hp _]]; rewrite Hp in Hin; [assumption |].
        rewrite Queue_Keys_Push_fresh in Hin by congruence.
        apply in_app_or in Hin as [Hin | [Hin | []]]; [assumption | congruence].
  - destruct Hpend as [Hp | [_ Hf]]; [| discriminate]. rewrite Hp, Hrun. repeat split.
    + assumption.
    + intros j t Hl. destruct (decide (taskID task' = j)) as [<- | Hne].
      * rewrite lookup_insert_eq in Hl. inversion Hl. reflexivity.
      * rewrite lookup_insert_ne in Hl by assumption. eauto.
    + intros j Hin. rewrite lookup_insert_ne; [auto |]. intros Heq. subst j.
      apply Hnp. congruence.
Qed.

Lemma forM_body_inv order (s : taskScheduler W) :
  sched_inv s -> sched_inv (snd (forM_ (checkProcessingTasks_body E) order s)).
Proof.
  revert s. induction order as [| id order IH]; intros s Hs; simpl; [assumption |].
  unfold bind.
  pose proof (checkProcessingTasks_body_inv id s Hs) as Hs'.
  destruct (checkProcessingTasks_body E id s) as [u s1]. simpl in *. apply IH, Hs'.
Qed.

Lemma checkProcessingTasks_inv order (s : taskScheduler W) :
  sched_inv s -> sched_inv (snd (checkProcessingTasks E order s)).
Proof.
  intros Hs. unfold checkProcessingTasks.
  destruct (Z.of_nat (size (runningTasks s)) <=? 0); [assumption |].
  apply forM_body_inv, Hs.
Qed.

End OperationsInv.

Section RunInv.
Context {W : Type} (E : Env W).

(** A goroutine that finishes hands its task to the queue or to the running
    map, or drops it. *)
Lemma run_goroutine_flight g rest (s : taskScheduler W) :
  flight_inv s (g :: rest) ->
  flight_inv (snd (run_goroutine E (fst g) (snd g) s)) rest.
Proof.
  intros (H1 & H2 & H3).
  destruct (run_goroutine_spec E (fst g) (snd g) s) as (t' & [Hid _] & Hcases).
  unfold flight_ids in *. simpl in *.
  set (id := taskID (fst g)) in *.
  assert (Hperm : Permutation (Queue.Keys (pendingTasks s) ++ id :: flight_ids rest)
                              (id :: Queue.Keys (pendingTasks s) ++ flight_ids rest)).
  { symmetry. apply Permutation_middle. }
  assert (Hnd : List.NoDup (id :: Queue.Keys (pendingTasks s) ++ flight_ids rest)).
  { eapply Permutation_NoDup; [exact Hperm | exact H1]. }
  apply List.NoDup_cons_iff in Hnd as [Hfresh Hnd].
  assert (Hnone : forall j, In j (id :: Queue.Keys (pendingTasks s) ++ flight_ids rest) ->
                            runningTasks s !! j = None).
  { intros j Hj. apply H3. eapply Permutation_in; [symmetry; exact Hperm | exact Hj]. }
  unfold flight_inv, flight_ids.
  destruct Hcases as [[Hp Hr] | [[Hp Hr] | [Hp Hr]]]; rewrite Hp, Hr.
  - assert (Hnp : ~ In (taskID t') (Queue.Keys (pendingTasks s))).
    { rewrite Hid. intros Hin. apply Hfresh. apply in_or_app. left. exact Hin. }
    rewrite Queue_Keys_Push_fresh by exact Hnp. rewrite Hid. fold id.
    assert (Hperm2 : Permutation ((Queue.Keys (pendingTasks s) ++ [id]) ++ flight_ids rest)
                                 (id :: Queue.Keys (pendingTasks s) ++ flight_ids rest)).
    { rewrite <- app_assoc. simpl. symmetry. apply Permutation_middle. }
    repeat split.
    + eapply Permutation_NoDup; [symmetry; exact Hperm2 | constructor; assumption].
    + exact H2.
    + intros j Hj. apply Hnone. eapply Permutation_in; [exact Hperm2 | exact Hj].
  - repeat split.
    + exact Hnd.
    + intros j t Hl. destruct (decide (taskID t' = j)) as [<- | Hne].
      * rewrite lookup_insert_eq in Hl. inversion Hl. reflexivity.
      * rewrite lookup_insert_ne in Hl by assumption. eauto.
    + intros j Hj. rewrite lookup_insert_ne.
      * apply Hnone. right. exact Hj.
      * rewrite Hid. fold id. intros <-. contradiction.
  - repeat split.
    + exact Hnd.
    + exact H2.
    + intros j Hj. apply Hnone. right. exact Hj.
Qed.

Lemma run_event_flight (p : Pass W) ev :
  flight_inv (pSched p) (pInflight p) ->
  flight_inv (pSched (run_event E p ev)) (pInflight (run_event E p ev)).
Proof.
  intros Hinv. destruct ev as [order | id]; simpl.
  - unfold run_loop_iter. destruct (pBroken p); [assumption |].
    destruct (hasAvailableSlots (pSlots p)); simpl; [| assumption].
    destruct Hinv as (H1 & H2 & H3).
    destruct (pendingTasks (pSched p)) as [| task q] eqn:Hpend; simpl.
    { unfold flight_inv. rewrite Hpend. repeat split; assumption. }
    unfold flight_inv, flight_ids in *. simpl in *.
    rewrite List.map_app. simpl.
    assert (Hperm : Permutation
              (Queue.Keys q ++ List.map (fun g => taskID (fst g)) (pInflight p) ++ [taskID task])
              (taskID task :: Queue.Keys q ++ List.map (fun g => taskID (fst g)) (pInflight p))).
    { rewrite app_assoc. symmetry. apply Permutation_cons_append. }
    repeat split.
    + eapply Permutation_NoDup; [symmetry; exact Hperm | exact H1].
    + exact H2.
    + intros j Hj. apply H3. exact (Permutation_in j Hperm Hj).
  - destruct (take_goroutine id (pInflight p)) as [[g rest] |] eqn:Htake; simpl;
      [| assumption].
    apply take_goroutine_Some in Htake as (_ & _ & _ & Hperm).
    apply run_goroutine_flight. eapply flight_inv_perm; eauto.
Qed.

Lemma run_pass_flight sched (p : Pass W) :
  flight_inv (pSched p) (pInflight p) ->
  flight_inv (pSched (fold_left (run_event E) sched p))
             (pInflight (fold_left (run_event E) sched p)).
Proof.
  revert p. induction sched as [| ev sched IH]; intros p Hinv; simpl; [assumption |].
  apply IH, run_event_flight, Hinv.
Qed.

Lemma run_wait_inv l (s : taskScheduler W) :
  flight_inv s l -> sched_inv (snd (run_wait E l s)).
Proof.
  revert s. induction l as [| g l IH]; intros s Hinv; simpl.
  - apply sched_inv_flight, Hinv.
  - unfold bind.
    pose proof (run_goroutine_flight g l s Hinv) as Hinv'.
    destruct (run_goroutine E (fst g) (snd g) s) as [u s1]. simpl in *. apply IH, Hinv'.
Qed.

Lemma run_inv sched (s s' : taskScheduler W) :
  sched_inv s -> run E sched s = Some s' -> sched_inv s'.
Proof.
  intros Hs. unfold run.
  destruct (Queue.TaskCount (pendingTasks s) =? 0); [intros H; inversion H; subst; exact Hs |].
  unfold call. destruct (QuerySlots E (world s)) as [ws w].
  set (s0 := mkSched (pendingTasks s) (runningTasks s) w).
  assert (H0 : flight_inv s0 []) by (apply sched_inv_flight; exact Hs).
  pose proof (run_pass_flight sched (mkPass s0 ws [] false []) H0) as Hp.
  fold (run_pass E ws sched s0) in Hp.
  destruct (pBroken (run_pass E ws sched s0)); [| discriminate].
  intros H; inversion H; subst. apply run_wait_inv, Hp.
Qed.

End RunInv.

(** C4.  The claim: at every observation point between scheduler operations
    a tracked task is in exactly one of the pending queue and the running
    map.  It fails when a submission overlaps a dispatch pass.  Task 7 is
    queued and the one worker has room for it.  The pass pops the task and
    starts its goroutine; now the task is in neither container and [exist]
    answers no.  Another goroutine calls [enqueue] for task 7, which looks
    at the running map only and queues the task; then the goroutine of the
    pass puts the task, in progress, into the running map.  When the pass
    and the submission have returned, task 7 is in the queue and in the
    running map. *)
Lemma C4_enqueue_overlaps_dispatch :
  exist 7 (pSched (run_step Examples.env_one_worker
                     (mkPass Examples.sched_pending7 (<[1 := 4]> ∅) [] false [])
                     (StepPass (EvLoop [1])))) = false
  /\ match run_overlapped Examples.env_one_worker
             [ StepPass (EvLoop [1]); StepEnqueue Examples.task7;
               StepPass (EvGoroutine 7); StepPass (EvLoop [1]) ]
             Examples.sched_pending7 with
     | Some s' => in_pending 7 s' = true /\ in_running 7 s' = true
     | None => False
     end.
Proof. vm_compute. repeat split; reflexivity. Qed.

Lemma sched_inv_empty {W : Type} (w : W) : sched_inv (mkSched [] ∅ w).
Proof.
  split; [constructor | split].
  - intros id t H. simpl in H. rewrite lookup_empty in H. discriminate.
  - intros id [].
Qed.

(** X26.  Each operation of the scheduler that runs on its own, with no other
    operation overlapping it, keeps the representation invariant: after
    [enqueue], [AbortTask], a dispatch pass (under every schedule of its
    goroutines) and a polling pass the queue holds an id at most once, the
    running map files a task under its own id, and no id is both queued and
    in the running map. *)
Theorem operations_keep_representation :
  forall (W : Type) (E : Env W) (s : taskScheduler W),
    sched_inv s ->
    (forall task, sched_inv (snd (enqueue E task s)))
    /\ (forall id, sched_inv (snd (AbortTask id s)))
    /\ (forall sched s', run E sched s = Some s' -> sched_inv s')
    /\ (forall order, sched_inv (snd (checkProcessingTasks E order s)))
    /\ (forall id, in_pending id s && in_running id s = false).
Proof.
  intros W E s Hs. split; [| split; [| split; [| split]]].
  - intros task. apply enqueue_inv, Hs.
  - intros id. apply AbortTask_inv, Hs.
  - intros sched s'. apply run_inv, Hs.
  - intros order. apply checkProcessingTasks_inv, Hs.
  - intros id. destruct Hs as (_ & _ & H3). unfold in_pending, in_running.
    destruct (Queue.Exist id (pendingTasks s)) eqn:Hex; [| reflexivity].
    apply Queue_Exist_true, H3 in Hex. rewrite Hex. reflexivity.
Qed.

Lemma operations_keep_representation_witness :
  (forall task, sched_inv (snd (enqueue Examples.env task Examples.sched_pending7)))
  /\ (forall id, sched_inv (snd (AbortTask id Examples.sched_pending7)))
  /\ (forall sched s', run Examples.env sched Examples.sched_pending7 = Some s' -> sched_inv s')
  /\ (forall order,
        sched_inv (snd (checkProcessingTasks Examples.env order Examples.sched_pending7)))
  /\ (forall id, in_pending id Examples.sched_pending7
                 && in_running id Examples.sched_pending7 = false).
Proof.
  apply (operations_keep_representation unit Examples.env Examples.sched_pending7).
  split; [repeat constructor; intros [] | split].
  - intros id t H. simpl in H. rewrite lookup_empty in H. discriminate.
  - intros id _. reflexivity.
Defined.

(** ** Retrying a task *)





(* ===================================================================== *)
(** ** Further properties of the scheduler                                 *)
(* ===================================================================== *)

(** *** Picking a node under the guard of the loop *)

Lemma hasAvailableSlots_true (ws : gmap UniqueID Z) :
  hasAvailableSlots ws = true <-> exists n a, ws !! n = Some a /\ 0 < a.
Proof.
  unfold hasAvailableSlots. rewrite existsb_exists. split.
  - intros [[n a] [Hin Hpos]]. exists n, a. simpl in Hpos. split; [| lia].
    apply elem_of_map_to_list, list_elem_of_In, Hin.
  - intros (n & a & Hn & Hpos). exists (n, a). split.
    + apply list_elem_of_In, elem_of_map_to_list, Hn.
    + simpl. lia.
Qed.

Lemma pickNode_range_registered (order : list UniqueID) (ws : gmap UniqueID Z) (c fb mx : Z) :
  ws !! (-1) = None ->
  (fb = -1 /\ mx = -1) \/ (ws !! fb = Some mx /\ 0 < mx) ->
  (fb <> -1 \/ exists m a, In m order /\ ws !! m = Some a /\ 0 < a) ->
  is_Some (ws !! fst (pickNode_range order ws c fb mx)).
Proof.
  intros Hm1. revert fb mx.
  induction order as [| node rest IH]; intros fb mx Hinv Hsome; simpl.
  - case_bool_decide as Hne; simpl.
    + destruct Hinv as [[-> _] | [Hl _]]; [contradiction | eauto].
    + destruct Hsome as [H | (m & a & [] & _)]. contradiction.
  - destruct (ws !! node) as [avail |] eqn:Hnode.
    + destruct (Z.leb_spec c avail) as [Hfit | Hnofit]; simpl; [eauto |].
      assert (Hkeep : ~ (mx < avail /\ 0 < avail) ->
                fb <> -1 \/ exists m a, In m rest /\ ws !! m = Some a /\ 0 < a).
      { intros Hno. destruct Hsome as [Hfb | (m & a & [<- | Hin] & Hm & Hpos)]; [auto | | eauto 6].
        left. rewrite Hnode in Hm. inversion Hm; subst a.
        destruct Hinv as [[_ ->] | [Hl _]]; [lia |]. intros ->. congruence. }
      destruct (Z.ltb_spec mx avail) as [Hgt | Hle]; destruct (Z.ltb_spec 0 avail) as [Hpos' | Hnp]; simpl.
      * apply IH; [right; auto |]. left. intros ->. congruence.
      * apply IH; [exact Hinv |]. apply Hkeep. lia.
      * apply IH; [exact Hinv |]. apply Hkeep. lia.
      * apply IH; [exact Hinv |]. apply Hkeep. lia.
    + apply IH; [exact Hinv |].
      destruct Hsome as [Hfb | (m & a & [<- | Hin] & Hm & Hpos)]; [auto | congruence | eauto 6].
Qed.

(** X1.  When some worker of the snapshot has a free slot, which is the guard
    ([hasAvailableSlots]) under which the loop of [run] calls it, [pickNode]
    always finds a node: it never returns -1, whatever the cost of the task
    and the order of the [range]; the node is a worker of the snapshot and
    only its entry is changed. *)
Theorem pickNode_under_guard :
  forall (order : list UniqueID) (ws : gmap UniqueID Z) (c : Z),
    range_order order ws -> ws !! (-1) = None ->
    hasAvailableSlots ws = true ->
    let r := pickNode order ws c in
    fst r <> -1
    /\ exists a x, ws !! fst r = Some a /\ snd r = <[fst r := x]> ws.
Proof.
  intros order ws c Hord Hm1 Hav r.
  apply hasAvailableSlots_true in Hav as (n & a & Hn & Hpos).
  assert (Hreg : is_Some (ws !! fst r)).
  { apply pickNode_range_registered; [exact Hm1 | left; auto |].
    right. exists n, a. eauto using range_order_covers. }
  split; [intros Heq; rewrite Heq, Hm1 in Hreg; destruct Hreg; discriminate |].
  pose proof (pickNode_outcome order ws c) as Hout. fold r in Hout.
  destruct Hout as [m b Hm Hfit | m b Hm Hlt Hp Hm1' | ]; simpl in *.
  - eauto.
  - eauto.
  - rewrite Hm1 in Hreg. destruct Hreg; discriminate.
Qed.

Lemma pickNode_under_guard_witness :
  fst (pickNode Examples.order12 Examples.slots35 4) <> -1
  /\ exists a x, Examples.slots35 !! fst (pickNode Examples.order12 Examples.slots35 4) = Some a
                 /\ snd (pickNode Examples.order12 Examples.slots35 4)
                    = <[fst (pickNode Examples.order12 Examples.slots35 4) := x]> Examples.slots35.
Proof.
  apply (pickNode_under_guard Examples.order12 Examples.slots35 4).
  - vm_compute. apply perm_swap.
  - reflexivity.
  - reflexivity.
Defined.

Section NoSlots.
Context {W : Type} (E : Env W).

Lemma run_pass_no_slots sched (s0 : taskScheduler W) ws b :
  hasAvailableSlots ws = false ->
  exists b', fold_left (run_event E) sched (mkPass s0 ws [] b []) = mkPass s0 ws [] b' []
             /\ (b = true -> b' = true).
Proof.
  intros Hno. revert b. induction sched as [| ev sched IH]; intros b; simpl.
  - exists b. auto.
  - destruct ev as [order | id]; simpl.
    + unfold run_loop_iter. simpl. destruct b; simpl.
      * apply IH.
      * rewrite Hno. simpl. destruct (IH true) as (b' & H1 & H2). exists b'. split; [exact H1 | discriminate].
    + apply IH.
Qed.

End NoSlots.

(** X2.  When the snapshot [QuerySlots] returns has no worker with a free slot, a
    dispatch pass is over at the first turn of its loop and pops no task:
    [run] returns, and the pending queue and the running map are as they
    were. *)
Theorem run_without_free_slots :
  forall (W : Type) (E : Env W) (s : taskScheduler W),
    hasAvailableSlots (fst (QuerySlots E (world s))) = false ->
    (forall order rest, exists s', run E (EvLoop order :: rest) s = Some s')
    /\ (forall sched s', run E sched s = Some s' -> frame s s').
Proof.
  intros W E s Hno. split.
  - intros order rest. unfold run.
    destruct (Queue.TaskCount (pendingTasks s) =? 0); [eauto |].
    unfold call. destruct (QuerySlots E (world s)) as [ws w]. simpl in Hno.
    unfold run_pass. simpl. unfold run_loop_iter. simpl. rewrite Hno. simpl.
    destruct (run_pass_no_slots E rest (mkSched (pendingTasks s) (runningTasks s) w) ws true Hno)
      as (b' & -> & Hb). simpl. rewrite Hb by reflexivity. eauto.
  - intros sched s'. unfold run.
    destruct (Queue.TaskCount (pendingTasks s) =? 0).
    { intros H; inversion H; subst. apply frame_refl. }
    unfold call. destruct (QuerySlots E (world s)) as [ws w]. simpl in Hno.
    unfold run_pass.
    destruct (run_pass_no_slots E sched (mkSched (pendingTasks s) (runningTasks s) w) ws false Hno)
      as (b' & -> & _). simpl.
    destruct b'; [| discriminate]. intros H; inversion H; subst. split; reflexivity.
Qed.

Lemma run_without_free_slots_witness :
  (forall order rest,
     exists s', run Examples.env_no_slots (EvLoop order :: rest) Examples.sched_pending7 = Some s')
  /\ (forall sched s',
        run Examples.env_no_slots sched Examples.sched_pending7 = Some s' ->
        frame Examples.sched_pending7 s').
Proof.
  apply (run_without_free_slots unit Examples.env_no_slots Examples.sched_pending7).
  reflexivity.
Defined.


(** *** How many tasks a pass can give out *)

Lemma sum_map_perm {A : Type} (f : A -> Z) (l l' : list A) :
  Permutation l l' ->
  fold_right Z.add 0 (List.map f l) = fold_right Z.add 0 (List.map f l').
Proof. intros H. induction H; simpl; lia. Qed.

Lemma free_slots_insert (ws : gmap UniqueID Z) (n : UniqueID) (a b : Z) :
  ws !! n = Some a ->
  free_slots (<[n := b]> ws) = free_slots ws - Z.max 0 a + Z.max 0 b.
Proof.
  intros Hn. unfold free_slots.
  pose proof (map_to_list_delete ws n a Hn) as P1.
  pose proof (map_to_list_insert (delete n ws) n b (lookup_delete_eq ws n)) as P2.
  rewrite insert_delete_eq in P2.
  rewrite (sum_map_perm _ _ _ P2), <- (sum_map_perm _ _ _ P1). simpl. lia.
Qed.

Lemma dispatched_snoc tr d :
  dispatched (tr ++ [d]) = dispatched tr + (if Z.eqb (dNode d) (-1) then 0 else 1).
Proof.
  unfold dispatched. rewrite List.filter_app, List.length_app. simpl.
  destruct (Z.eqb (dNode d) (-1)); simpl; lia.
Qed.

Lemma pick_outcome_free (ws : gmap UniqueID Z) (c : Z) r :
  wf_slots ws -> 1 <= c -> pick_outcome ws c r ->
  wf_slots (snd r)
  /\ (fst r = -1 /\ snd r = ws \/ fst r <> -1 /\ free_slots (snd r) + 1 <= free_slots ws).
Proof.
  intros [Hm1 Hrange] Hc Hout.
  destruct Hout as [n a Hn Hfit | n a Hn Hlt Hpos Hne | ]; simpl.
  - assert (Hne : n <> -1) by (intros ->; congruence).
    pose proof (Hrange _ _ Hn) as Hr. unfold Int64.in_range, Int64.min_int, Int64.max_int in Hr.
    simpl in Hr.
    assert (Hw : Int64.wrap (a - c) = a - c).
    { apply wrap_in_range. unfold Int64.in_range, Int64.min_int, Int64.max_int. lia. }
    rewrite Hw. split; [split |].
    + rewrite lookup_insert_ne by congruence. exact Hm1.
    + apply map_Forall_insert_2; [| exact Hrange].
      unfold Int64.in_range, Int64.min_int, Int64.max_int. lia.
    + right. split; [exact Hne |]. rewrite (free_slots_insert ws n a (a - c) Hn). lia.
  - split; [split |].
    + rewrite lookup_insert_ne by congruence. exact Hm1.
    + apply map_Forall_insert_2; [| exact Hrange].
      unfold Int64.in_range, Int64.min_int, Int64.max_int. lia.
    + right. split; [exact Hne |]. rewrite (free_slots_insert ws n a 0 Hn). lia.
  - split; [split; assumption |]. left. auto.
Qed.

Section PassBound.
Context {W : Type} (E : Env W).

Lemma run_goroutine_costs_pos t n (s : taskScheduler W) :
  1 <= taskSlot t ->
  (forall x, In x (pendingTasks s) -> 1 <= taskSlot x) ->
  forall x, In x (pendingTasks (snd (run_goroutine E t n s))) -> 1 <= taskSlot x.
Proof.
  intros Ht Hq x Hx.
  destruct (run_goroutine_spec E t n s) as (t' & [_ Hslot] & [[Hp _] | [[Hp _] | [Hp _]]]);
    rewrite Hp in Hx; auto.
  apply Queue_Push_In in Hx as [-> | Hx]; [lia | auto].
Qed.

Lemma run_event_bound B (p : Pass W) ev :
  costs_pos p -> wf_slots (pSlots p) ->
  dispatched (pTrace p) + free_slots (pSlots p) <= B ->
  costs_pos (run_event E p ev) /\ wf_slots (pSlots (run_event E p ev))
  /\ dispatched (pTrace (run_event E p ev)) + free_slots (pSlots (run_event E p ev)) <= B.
Proof.
  intros [Hq Hg] Hwf Hb. destruct ev as [order | id]; simpl.
  - unfold run_loop_iter.
    destruct (pBroken p); [split; [split |]; [| | split]; assumption |].
    destruct (hasAvailableSlots (pSlots p)); simpl;
      [| split; [split |]; [| | split]; assumption].
    destruct (pendingTasks (pSched p)) as [| task q] eqn:Hpend; simpl.
    { split; [split; [simpl; rewrite Hpend; intros ? [] | assumption] | split; assumption]. }
    assert (Hc : 1 <= taskSlot task) by (apply Hq; left; reflexivity).
    destruct (pick_outcome_free (pSlots p) (taskSlot task) _ Hwf Hc
                (pickNode_outcome order (pSlots p) (taskSlot task))) as [Hwf' Hfree].
    split; [split |]; [| | split; [exact Hwf' |]].
    + intros t Ht. apply Hq. right. exact Ht.
    + intros g Hin. apply in_app_or in Hin as [Hin | [<- | []]]; auto.
    + rewrite dispatched_snoc. cbn [dNode].
      destruct Hfree as [[H1 H2] | [H1 H2]].
      * rewrite H1, H2. simpl. lia.
      * destruct (Z.eqb_spec (fst (pickNode order (pSlots p) (taskSlot task))) (-1)); lia.
  - destruct (take_goroutine id (pInflight p)) as [[g rest] |] eqn:Htake; simpl;
      [| split; [split |]; [| | split]; assumption].
    apply take_goroutine_Some in Htake as (_ & Hin & Hrest & _).
    split; [split |]; auto.
    apply run_goroutine_costs_pos; auto.
Qed.

Lemma run_pass_bound B sched (p : Pass W) :
  costs_pos p -> wf_slots (pSlots p) ->
  dispatched (pTrace p) + free_slots (pSlots p) <= B ->
  dispatched (pTrace (fold_left (run_event E) sched p)) <= B
  /\ 0 <= free_slots (pSlots (fold_left (run_event E) sched p)).
Proof.
  revert p. induction sched as [| ev sched IH]; intros p Hc Hwf Hb; simpl.
  - assert (0 <= free_slots (pSlots p)).
    { unfold free_slots. generalize (map_to_list (pSlots p)).
      induction l as [| x l IHl]; simpl; lia. }
    lia.
  - destruct (run_event_bound B p ev Hc Hwf Hb) as (H1 & H2 & H3). auto.
Qed.

End PassBound.

(** X3.  In one dispatch pass, when every queued task costs at least one slot, the
    number of tasks that are given to a worker is at most the number of free
    slots of the snapshot the pass started with (the sum of its positive
    entries), for every schedule of the loop and its goroutines.  The
    snapshot holds [int64] counts and has no entry for -1. *)
Theorem run_pass_dispatch_bound :
  forall (W : Type) (E : Env W) (ws0 : gmap UniqueID Z) (sched : list Event)
         (s : taskScheduler W),
    wf_slots ws0 ->
    (forall t, In t (pendingTasks s) -> 1 <= taskSlot t) ->
    dispatched (pTrace (run_pass E ws0 sched s)) <= free_slots ws0.
Proof.
  intros W E ws0 sched s Hwf Hcost. unfold run_pass.
  apply (run_pass_bound E (free_slots ws0) sched (mkPass s ws0 [] false [])).
  - split; simpl; [exact Hcost | intros g []].
  - exact Hwf.
  - simpl. unfold dispatched. simpl. lia.
Qed.

Lemma run_pass_dispatch_bound_witness :
  dispatched (pTrace (run_pass Examples.env Examples.slots35
               [EvLoop Examples.order12; EvLoop Examples.order12; EvLoop Examples.order12]
               Examples.sched_pending78)) <= free_slots Examples.slots35.
Proof.
  apply (run_pass_dispatch_bound unit Examples.env Examples.slots35).
  - apply (bool_decide_unpack _). vm_compute. exact I.
  - intros t [<- | [<- | []]]; simpl; lia.
Defined.

(** *** What a pass does to the tasks *)

Section PassTasks.
Context {W : Type} (E : Env W).

(** How a goroutine of a dispatch pass ends, by the state the task has when
    [process] is through with it. *)
Lemma run_goroutine_cases (t : Task) (n : UniqueID) (s : taskScheduler W) :
  let s' := snd (run_goroutine E t n s) in
  exists t', same_task t t'
    /\ (waiting t'
          /\ pendingTasks s' = Queue.Push t' (pendingTasks s)
          /\ runningTasks s' = runningTasks s
        \/ ~ waiting t'
           /\ pendingTasks s' = pendingTasks s
           /\ runningTasks s' = <[taskID t' := t']> (runningTasks s)
        \/ GetState t' = JobStateNone
           /\ pendingTasks s' = pendingTasks s /\ runningTasks s' = runningTasks s).
Proof.
  intros s'. subst s'. unfold run_goroutine, bind.
  set (m := if bool_decide (n <> -1) then process E t n else ret (true, t)).
  assert (Hm : same_task t (snd (fst (m s))) /\ frame s (snd (m s))).
  { subst m. case_bool_decide; [apply process_frame | unfold ret; simpl; auto with sched]. }
  destruct (m s) as [[b t1] s1]. simpl in *. destruct Hm as [Hst [Hp Hr]].
  assert (Hactive : GetState t1 <> JobStateNone -> GetState t1 <> JobStateInit ->
    exists t', same_task t t'
      /\ (waiting t' /\ pendingTasks (snd (insertRunning t1 s1)) = Queue.Push t' (pendingTasks s)
            /\ runningTasks (snd (insertRunning t1 s1)) = runningTasks s
          \/ ~ waiting t' /\ pendingTasks (snd (insertRunning t1 s1)) = pendingTasks s
             /\ runningTasks (snd (insertRunning t1 s1)) = <[taskID t' := t']> (runningTasks s)
          \/ GetState t' = JobStateNone /\ pendingTasks (snd (insertRunning t1 s1)) = pendingTasks s
             /\ runningTasks (snd (insertRunning t1 s1)) = runningTasks s)).
  { intros H1 H2. exists t1. split; [assumption |]. right. left.
    unfold insertRunning, waiting; simpl. split; [tauto | split; congruence]. }
  destruct (GetState t1) eqn:Hstate; try (apply Hactive; discriminate).
  - unfold processNone, bind, call, ret.
    destruct (DropTaskMeta E t1 (world s1)) as [ok w2] eqn:Hdrop. simpl.
    exists t1. split; [assumption |].
    destruct ok; simpl; unfold push, ret; simpl.
    + right. right. split; [exact Hstate | split; congruence].
    + left. split; [left; exact Hstate | split; congruence].
  - exists t1. split; [assumption |]. left. unfold push; simpl.
    split; [right; exact Hstate | split; congruence].
Qed.

Lemma Queue_Keys_Push_incl t q j :
  In j (Queue.Keys q) \/ j = taskID t -> In j (Queue.Keys (Queue.Push t q)).
Proof.
  rewrite Queue_Keys_Push. destruct (Queue.Exist (taskID t) q) eqn:Hex.
  - intros [H | ->]; [exact H | apply Queue_Exist_true, Hex].
  - intros [H | ->]; apply in_or_app; [left; exact H | right; left; reflexivity].
Qed.

End PassTasks.

(** *** A pass loses no task *)

Lemma bind_run {S A B : Type} (m : M S A) (k : A -> M S B) (s : S) :
  bind m k s = k (fst (m s)) (snd (m s)).
Proof. unfold bind. destruct (m s). reflexivity. Qed.


Section PassLog.
Context {W : Type} (E : Env W).

Lemma log_grows_refl (s : taskScheduler (W * list Task)) : log_grows s s.
Proof. exists []. rewrite app_nil_r. reflexivity. Qed.

Lemma log_grows_trans (s1 s2 s3 : taskScheduler (W * list Task)) :
  log_grows s1 s2 -> log_grows s2 s3 -> log_grows s1 s3.
Proof.
  intros [n1 H1] [n2 H2]. exists (n1 ++ n2). rewrite H2, H1, app_assoc. reflexivity.
Qed.

Lemma let_go_later (s1 s2 s3 : taskScheduler (W * list Task)) id :
  let_go s1 s2 id -> log_grows s2 s3 -> let_go s1 s3 id.
Proof.
  intros (n1 & t & H1 & Hin & Hid & Hst) [n2 H2]. exists (n1 ++ n2), t.
  rewrite H2, H1, app_assoc. repeat split; auto. apply in_or_app. left. exact Hin.
Qed.

Lemma let_go_earlier (s1 s2 s3 : taskScheduler (W * list Task)) id :
  log_grows s1 s2 -> let_go s2 s3 id -> let_go s1 s3 id.
Proof.
  intros [n1 H1] (n2 & t & H2 & Hin & Hid & Hst). exists (n1 ++ n2), t.
  rewrite H2, H1, app_assoc. repeat split; auto. apply in_or_app. right. exact Hin.
Qed.

Lemma processNone_logged (t : Task) (s : taskScheduler (W * list Task)) :
  let r := processNone (logged E) t s in
  if fst (fst r) then snd (world (snd r)) = snd (world s) ++ [t]
  else snd (world (snd r)) = snd (world s).
Proof.
  unfold processNone, bind, call, ret, logged. simpl.
  destruct (DropTaskMeta E t (fst (world s))) as [[] w]; reflexivity.
Qed.

Lemma processNone_log (t : Task) (s : taskScheduler (W * list Task)) :
  log_grows s (snd (processNone (logged E) t s)).
Proof.
  pose proof (processNone_logged t s) as H. simpl in H.
  destruct (fst (fst (processNone (logged E) t s))).
  - exists [t]. exact H.
  - exists []. rewrite app_nil_r. exact H.
Qed.

Lemma processInit_log (t : Task) (n : UniqueID) (s : taskScheduler (W * list Task)) :
  log_grows s (snd (processInit (logged E) t n s)).
Proof.
  unfold processInit, logged, with_log. hooks; exists []; simpl; rewrite app_nil_r; reflexivity.
Qed.

Lemma process_log (t : Task) (n : UniqueID) (s : taskScheduler (W * list Task)) :
  log_grows s (snd (process (logged E) t n s)).
Proof.
  unfold process. destruct (GetState t); auto using processNone_log, processInit_log;
    apply log_grows_refl.
Qed.

(** How a goroutine of a dispatch pass ends, with the tasks it let go. *)
Lemma run_goroutine_logged (t : Task) (n : UniqueID) (s : taskScheduler (W * list Task)) (j : UniqueID) :
  let s' := snd (run_goroutine (logged E) t n s) in
  log_grows s s'
  /\ (In j (Queue.Keys (pendingTasks s)) \/ j = taskID t \/ is_Some (runningTasks s !! j) ->
      In j (Queue.Keys (pendingTasks s')) \/ is_Some (runningTasks s' !! j) \/ let_go s s' j).
Proof.
  intros s'. subst s'. unfold run_goroutine, bind.
  set (m := if bool_decide (n <> -1) then process (logged E) t n else ret (true, t)).
  assert (Hm : (same_task t (snd (fst (m s))) /\ frame s (snd (m s))) /\ log_grows s (snd (m s))).
  { subst m. case_bool_decide.
    - split; [apply process_frame | apply process_log].
    - unfold ret; simpl. split; [auto with sched | apply log_grows_refl]. }
  destruct (m s) as [[b t1] s1]. simpl in *. destruct Hm as [[[Hid Hcost] [Hp Hr]] Hlog].
  assert (Hrun : GetState t1 <> JobStateNone -> GetState t1 <> JobStateInit ->
    log_grows s (snd (insertRunning t1 s1))
    /\ (In j (Queue.Keys (pendingTasks s)) \/ j = taskID t \/ is_Some (runningTasks s !! j) ->
        In j (Queue.Keys (pendingTasks (snd (insertRunning t1 s1))))
        \/ is_Some (runningTasks (snd (insertRunning t1 s1)) !! j)
        \/ let_go s (snd (insertRunning t1 s1)) j)).
  { intros _ _. unfold insertRunning. simpl. split; [exact Hlog |].
    rewrite Hp, Hr. intros [H | [-> | H]]; [left; exact H | |]; right; left.
    - rewrite Hid. rewrite lookup_insert_eq. eauto.
    - destruct (decide (taskID t1 = j)) as [<- | Hne].
      + rewrite lookup_insert_eq. eauto.
      + rewrite lookup_insert_ne by exact Hne. exact H. }
  assert (Hpush : log_grows s (snd (push t1 s1))
    /\ (In j (Queue.Keys (pendingTasks s)) \/ j = taskID t \/ is_Some (runningTasks s !! j) ->
        In j (Queue.Keys (pendingTasks (snd (push t1 s1))))
        \/ is_Some (runningTasks (snd (push t1 s1)) !! j)
        \/ let_go s (snd (push t1 s1)) j)).
  { unfold push. simpl. split; [exact Hlog |]. rewrite Hp, Hr.
    intros [H | [-> | H]]; [left | left | right; left; exact H];
      apply Queue_Keys_Push_incl; [left; exact H | right; congruence]. }
  destruct (GetState t1) eqn:Hstate; try (apply Hrun; discriminate); [| exact Hpush].
  pose proof (processNone_logged t1 s1) as Hdrop.
  pose proof (processNone_frame (logged E) t1 s1) as [_ [Hp2 Hr2]].
  assert (Ht2 : snd (fst (processNone (logged E) t1 s1)) = t1).
  { unfold processNone, bind, call, ret. simpl.
    destruct (DropTaskMeta E t1 (world s1).1); reflexivity. }
  destruct (processNone (logged E) t1 s1) as [[ok t2] s2]. simpl in *. subst t2.
  destruct ok; simpl.
  - unfold ret. simpl. destruct Hlog as [new Hnew].
    assert (Hgo : let_go s s2 (taskID t)).
    { exists (new ++ [t1]), t1. rewrite Hdrop, Hnew, app_assoc.
      repeat split; auto. apply in_or_app. right. left. reflexivity. }
    split; [exists (new ++ [t1]); rewrite Hdrop, Hnew, app_assoc; reflexivity |].
    rewrite Hp2, Hr2, Hp, Hr.
    intros [H | [-> | H]]; [left; exact H | right; right; exact Hgo | right; left; exact H].
  - assert (Hlog2 : log_grows s s2).
    { destruct Hlog as [new Hnew]. exists new. rewrite Hdrop. exact Hnew. }
    unfold push. simpl. split; [exact Hlog2 |]. rewrite Hp2, Hp, Hr2, Hr.
    intros [H | [-> | H]]; [left | left | right; left; exact H];
      apply Queue_Keys_Push_incl; [left; exact H | right; congruence].
Qed.

Lemma run_event_logged (s0 : taskScheduler (W * list Task)) (p : Pass (W * list Task)) ev
    (j : UniqueID) :
  log_grows s0 (pSched p) ->
  let p' := run_event (logged E) p ev in
  log_grows s0 (pSched p')
  /\ (in_pass p j \/ let_go s0 (pSched p) j -> in_pass p' j \/ let_go s0 (pSched p') j).
Proof.
  intros Hlog p'. subst p'. destruct ev as [order | id]; simpl.
  - unfold run_loop_iter. destruct (pBroken p); [split; [exact Hlog | tauto] |].
    destruct (hasAvailableSlots (pSlots p)); simpl; [| split; [exact Hlog | tauto]].
    destruct (pendingTasks (pSched p)) as [| task q] eqn:Hpend; simpl;
      [split; [exact Hlog | tauto] |].
    split; [exact Hlog |].
    intros [Hin | Hgo]; [left | right; exact Hgo].
    unfold in_pass, flight_ids in *. simpl. rewrite Hpend in Hin. rewrite List.map_app. simpl in *.
    destruct Hin as [[<- | Hin] | [Hin | Hin]]; auto.
    + right. left. apply in_or_app. right. left. reflexivity.
    + right. left. apply in_or_app. left. exact Hin.
  - destruct (take_goroutine id (pInflight p)) as [[g rest] |] eqn:Htake; simpl;
      [| split; [exact Hlog | tauto]].
    apply take_goroutine_Some in Htake as (_ & _ & _ & Hperm).
    assert (Hfl : In j (flight_ids (pInflight p)) -> j = taskID (fst g) \/ In j (flight_ids rest)).
    { intros Hj. unfold flight_ids in *.
      apply (Permutation_in j (Permutation_map (fun g0 => taskID (fst g0)) Hperm)) in Hj.
      simpl in Hj. destruct Hj as [<- | Hj]; auto. }
    destruct (run_goroutine_logged (fst g) (snd g) (pSched p) j) as [Hlog' Hids].
    split; [exact (log_grows_trans _ _ _ Hlog Hlog') |].
    intros [Hin | Hgo]; [| right; exact (let_go_later _ _ _ _ Hgo Hlog')].
    unfold in_pass in *. simpl.
    assert (Hcase : In j (Queue.Keys (pendingTasks (pSched p))) \/ j = taskID (fst g)
                    \/ is_Some (runningTasks (pSched p) !! j) \/ In j (flight_ids rest)).
    { destruct Hin as [Hin | [Hin | Hin]]; auto. destruct (Hfl Hin); auto. }
    destruct Hcase as [H | [H | [H | H]]]; [| | | left; auto].
    all: match goal with
         | |- _ => destruct (Hids ltac:(tauto)) as [H1 | [H1 | H1]];
                   [left; auto | left; auto | right; exact (let_go_earlier _ _ _ _ Hlog H1)]
         end.
Qed.

Lemma run_pass_logged (s0 : taskScheduler (W * list Task)) sched (p : Pass (W * list Task))
    (j : UniqueID) :
  log_grows s0 (pSched p) ->
  let p' := fold_left (run_event (logged E)) sched p in
  log_grows s0 (pSched p')
  /\ (in_pass p j \/ let_go s0 (pSched p) j -> in_pass p' j \/ let_go s0 (pSched p') j).
Proof.
  revert p. induction sched as [| ev sched IH]; intros p Hlog; simpl; [split; [exact Hlog | tauto] |].
  destruct (run_event_logged s0 p ev j Hlog) as [Hlog1 H1].
  destruct (IH _ Hlog1) as [Hlog2 H2]. split; [exact Hlog2 |]. intros H. apply H2, H1, H.
Qed.

Lemma run_wait_logged (s0 : taskScheduler (W * list Task)) l (s : taskScheduler (W * list Task))
    (j : UniqueID) :
  log_grows s0 s ->
  In j (Queue.Keys (pendingTasks s)) \/ In j (flight_ids l) \/ is_Some (runningTasks s !! j)
  \/ let_go s0 s j ->
  let s' := snd (run_wait (logged E) l s) in
  In j (Queue.Keys (pendingTasks s')) \/ is_Some (runningTasks s' !! j) \/ let_go s0 s' j.
Proof.
  revert s. induction l as [| g l IH]; intros s Hlog H; simpl.
  - destruct H as [H | [[] | [H | H]]]; auto.
  - unfold bind.
    pose proof (run_goroutine_logged (fst g) (snd g) s j) as [Hlog1 Hg].
    destruct (run_goroutine (logged E) (fst g) (snd g) s) as [u s1]. simpl in *.
    apply IH; [exact (log_grows_trans _ _ _ Hlog Hlog1) |].
    destruct H as [H | [[<- | H] | [H | H]]]; auto.
    + destruct (Hg (or_introl H)) as [H1 | [H1 | H1]]; auto.
      right; right; right. exact (let_go_earlier _ _ _ _ Hlog H1).
    + destruct (Hg (or_intror (or_introl eq_refl))) as [H1 | [H1 | H1]]; auto.
      right; right; right. exact (let_go_earlier _ _ _ _ Hlog H1).
    + destruct (Hg (or_intror (or_intror H))) as [H1 | [H1 | H1]]; auto.
      right; right; right. exact (let_go_earlier _ _ _ _ Hlog H1).
    + right; right; right. exact (let_go_later _ _ _ _ H Hlog1).
Qed.

End PassLog.

(** The pass over the collaborators with the history variable is the pass over
    the collaborators themselves. *)

Section Erase.
Context {W : Type} (E : Env W).

Lemma processNone_erase (t : Task) (s : taskScheduler (W * list Task)) :
  processNone E t (erase s)
  = (fst (processNone (logged E) t s), erase (snd (processNone (logged E) t s))).
Proof.
  unfold processNone, bind, call, ret, logged, erase. simpl.
  destruct (DropTaskMeta E t (world s).1) as [ok w]. reflexivity.
Qed.

Lemma processInit_erase (t : Task) (n : UniqueID) (s : taskScheduler (W * list Task)) :
  processInit E t n (erase s)
  = (fst (processInit (logged E) t n s), erase (snd (processInit (logged E) t n s))).
Proof.
  unfold processInit, logged, with_log, erase. hooks; reflexivity.
Qed.

Lemma process_erase (t : Task) (n : UniqueID) (s : taskScheduler (W * list Task)) :
  process E t n (erase s)
  = (fst (process (logged E) t n s), erase (snd (process (logged E) t n s))).
Proof.
  unfold process. destruct (GetState t);
    auto using processNone_erase, processInit_erase.
Qed.

Lemma run_goroutine_erase (t : Task) (n : UniqueID) (s : taskScheduler (W * list Task)) :
  run_goroutine E t n (erase s)
  = (fst (run_goroutine (logged E) t n s), erase (snd (run_goroutine (logged E) t n s))).
Proof.
  unfold run_goroutine. rewrite !bind_run.
  assert (Hm : (if bool_decide (n <> -1) then process E t n else ret (true, t)) (erase s)
               = (fst ((if bool_decide (n <> -1) then process (logged E) t n else ret (true, t)) s),
                  erase (snd ((if bool_decide (n <> -1) then process (logged E) t n
                               else ret (true, t)) s)))).
  { case_bool_decide; [apply process_erase | reflexivity]. }
  rewrite Hm. cbn [fst snd].
  destruct ((if bool_decide (n <> -1) then process (logged E) t n else ret (true, t)) s)
    as [[b t1] s1]. cbn [fst snd].
  destruct (GetState t1); try reflexivity.
  rewrite !bind_run, processNone_erase. cbn [fst snd].
  destruct (processNone (logged E) t1 s1) as [[ok t2] s2]. cbn [fst snd].
  destruct ok; reflexivity.
Qed.

Lemma run_event_erase (p : Pass (W * list Task)) ev :
  run_event E (mkPass (erase (pSched p)) (pSlots p) (pInflight p) (pBroken p) (pTrace p)) ev
  = let p' := run_event (logged E) p ev in
    mkPass (erase (pSched p')) (pSlots p') (pInflight p') (pBroken p') (pTrace p').
Proof.
  destruct ev as [order | id]; simpl.
  - unfold run_loop_iter. simpl. destruct (pBroken p) eqn:Hb; [rewrite Hb; reflexivity |].
    destruct (hasAvailableSlots (pSlots p)); simpl; [| reflexivity].
    destruct (pendingTasks (pSched p)) as [| task q]; reflexivity.
  - destruct (take_goroutine id (pInflight p)) as [[g rest] |]; simpl; [| reflexivity].
    rewrite run_goroutine_erase. reflexivity.
Qed.

Lemma run_pass_erase sched (p : Pass (W * list Task)) :
  fold_left (run_event E) sched
    (mkPass (erase (pSched p)) (pSlots p) (pInflight p) (pBroken p) (pTrace p))
  = let p' := fold_left (run_event (logged E)) sched p in
    mkPass (erase (pSched p')) (pSlots p') (pInflight p') (pBroken p') (pTrace p').
Proof.
  revert p. induction sched as [| ev sched IH]; intros p; simpl; [reflexivity |].
  rewrite run_event_erase. cbv zeta. apply IH.
Qed.

Lemma run_wait_erase l (s : taskScheduler (W * list Task)) :
  snd (run_wait E l (erase s)) = erase (snd (run_wait (logged E) l s)).
Proof.
  revert s. induction l as [| g l IH]; intros s; simpl; [reflexivity |].
  rewrite !bind_run, run_goroutine_erase. cbn [fst snd]. apply IH.
Qed.

Lemma run_erase sched (s : taskScheduler (W * list Task)) :
  run E sched (erase s) = option_map erase (run (logged E) sched s).
Proof.
  unfold run. change (pendingTasks (erase s)) with (pendingTasks s).
  destruct (Queue.TaskCount (pendingTasks s) =? 0); [reflexivity |].
  assert (Hq : call (QuerySlots (logged E)) s
               = (fst (QuerySlots E (world s).1),
                  mkSched (pendingTasks s) (runningTasks s)
                          (snd (QuerySlots E (world s).1), (world s).2))).
  { unfold call, logged, with_log. simpl. destruct (QuerySlots E (world s).1). reflexivity. }
  rewrite Hq. unfold call. simpl.
  destruct (QuerySlots E (world s).1) as [ws w]. simpl. unfold run_pass.
  pose proof (run_pass_erase sched
                (mkPass (mkSched (pendingTasks s) (runningTasks s) (w, (world s).2)) ws [] false []))
    as H.
  cbv zeta in H. cbn [pSched pSlots pInflight pBroken pTrace] in H.
  change (erase (mkSched (pendingTasks s) (runningTasks s) (w, (world s).2)))
    with (mkSched (pendingTasks s) (runningTasks s) w) in H.
  change (world (erase s)) with (world s).1. change (pendingTasks (erase s)) with (pendingTasks s).
  change (runningTasks (erase s)) with (runningTasks s).
  rewrite H. cbn [pSched pSlots pInflight pBroken pTrace].
  destruct (pBroken (fold_left (run_event (logged E)) sched _)); [| reflexivity].
  simpl. rewrite run_wait_erase. reflexivity.
Qed.

End Erase.

Lemma exist_iff {W : Type} (s : taskScheduler W) (id : UniqueID) :
  exist id s = true <-> In id (Queue.Keys (pendingTasks s)) \/ is_Some (runningTasks s !! id).
Proof.
  unfold exist. destruct (Queue.Exist id (pendingTasks s)) eqn:Hex.
  - apply Queue_Exist_true in Hex. tauto.
  - apply Queue_Exist_false in Hex.
    destruct (runningTasks s !! id) as [t |]; split.
    + intros _. right. eauto.
    + reflexivity.
    + discriminate.
    + intros [H | [x H]]; [contradiction | discriminate].
Qed.

(** X4.  A dispatch pass loses no task: a task that [exist] reports before [run] is
    reported after it, unless in the course of this pass [DropTaskMeta]
    succeeded on a task of that id in state none (the pass lets such a task
    go).  The calls of the pass are kept in a history variable, the list of
    the tasks on which [DropTaskMeta] succeeded; without the list the pass is
    the pass over the collaborators as they are. *)
Theorem run_loses_no_task :
  forall (W : Type) (E : Env W) (sched : list Event)
         (s s' : taskScheduler (W * list Task)) (id : UniqueID),
    run (logged E) sched s = Some s' ->
    exist id s = true ->
    run E sched (erase s) = Some (erase s')
    /\ (exist id s' = true \/ let_go s s' id).
Proof.
  intros W E sched s s' id Hrun Hex.
  split; [rewrite run_erase, Hrun; reflexivity |].
  apply exist_iff in Hex. unfold run in Hrun.
  destruct (Queue.TaskCount (pendingTasks s) =? 0).
  { inversion Hrun; subst. left. apply exist_iff, Hex. }
  destruct (call (QuerySlots (logged E)) s) as [ws s0] eqn:Hq.
  assert (H0 : pendingTasks s0 = pendingTasks s /\ runningTasks s0 = runningTasks s
               /\ snd (world s0) = snd (world s)).
  { unfold call, logged, with_log in Hq. simpl in Hq.
    destruct (QuerySlots E (world s).1) as [ws' w]. inversion Hq; subst. auto. }
  destruct H0 as (Hp & Hr & Hw).
  assert (Hlog0 : log_grows s0 s0) by apply log_grows_refl.
  destruct (run_pass_logged E s0 sched (mkPass s0 ws [] false []) id Hlog0) as [Hlog1 Hids].
  fold (run_pass (logged E) ws sched s0) in Hlog1, Hids.
  destruct (pBroken (run_pass (logged E) ws sched s0)); [| discriminate].
  inversion Hrun; subst s'. clear Hrun.
  assert (Hin : in_pass (run_pass (logged E) ws sched s0) id
                \/ let_go s0 (pSched (run_pass (logged E) ws sched s0)) id).
  { apply Hids. left. unfold in_pass. simpl. rewrite Hp, Hr. tauto. }
  destruct (run_wait_logged E s0 (pInflight (run_pass (logged E) ws sched s0))
              (pSched (run_pass (logged E) ws sched s0)) id Hlog1) as [H | [H | H]].
  { unfold in_pass in Hin. tauto. }
  - left. apply exist_iff. auto.
  - left. apply exist_iff. auto.
  - right. destruct H as (new & t & Hnew & Ht). exists new, t. rewrite <- Hw. auto.
Qed.

Lemma run_loses_no_task_witness :
  match run (logged Examples.env)
            [EvLoop Examples.order12; EvLoop Examples.order12; EvLoop Examples.order12]
            Examples.sched_pending67 with
  | Some s' =>
      run Examples.env
          [EvLoop Examples.order12; EvLoop Examples.order12; EvLoop Examples.order12]
          (erase Examples.sched_pending67) = Some (erase s')
      /\ (exist 6 s' = true \/ let_go Examples.sched_pending67 s' 6)
  | None => False
  end.
Proof.
  destruct (run (logged Examples.env)
              [EvLoop Examples.order12; EvLoop Examples.order12; EvLoop Examples.order12]
              Examples.sched_pending67) as [s' |] eqn:H.
  - exact (run_loses_no_task unit Examples.env _ Examples.sched_pending67 s' 6 H eq_refl).
  - vm_compute in H. discriminate.
Defined.


Section PassRunning.
Context {W : Type} (E : Env W).

Lemma run_goroutine_tasks g rest (s sp : taskScheduler W) :
  flight_inv sp (g :: rest) -> pass_tasks s sp ->
  pass_tasks s (snd (run_goroutine E (fst g) (snd g) sp)).
Proof.
  intros (_ & _ & Hnone) (I2 & I3 & I4).
  assert (Hfresh : runningTasks sp !! taskID (fst g) = None).
  { apply Hnone. apply in_or_app. right. left. reflexivity. }
  destruct (run_goroutine_cases E (fst g) (snd g) sp)
    as (t' & [Hid _] & [(Hw & Hp & Hr) | [(Hw & Hp & Hr) | (_ & Hp & Hr)]]);
    unfold pass_tasks; rewrite Hp, Hr.
  - repeat split; auto.
    intros t Hin. apply Queue_Push_In in Hin as [-> | Hin]; auto.
  - repeat split; auto.
    + intros id t Hl. rewrite lookup_insert_ne; [auto |].
      intros Heq. apply I2 in Hl. congruence.
    + intros id t Hl. destruct (decide (taskID t' = id)) as [<- | Hne].
      * rewrite lookup_insert_eq in Hl. inversion Hl; subst. auto.
      * rewrite lookup_insert_ne in Hl by exact Hne. auto.
  - repeat split; auto.
Qed.

Lemma run_event_tasks (s : taskScheduler W) (p : Pass W) ev :
  flight_inv (pSched p) (pInflight p) -> pass_tasks s (pSched p) ->
  pass_tasks s (pSched (run_event E p ev)).
Proof.
  intros Hfl Hinv. destruct ev as [order | id]; simpl.
  - unfold run_loop_iter. destruct (pBroken p); [exact Hinv |].
    destruct (hasAvailableSlots (pSlots p)); simpl; [| exact Hinv].
    destruct (pendingTasks (pSched p)) as [| task q] eqn:Hpend; simpl; [exact Hinv |].
    destruct Hinv as (I2 & I3 & I4). unfold pass_tasks. simpl. repeat split; auto.
    intros t Hin. apply I4. rewrite Hpend. right. exact Hin.
  - destruct (take_goroutine id (pInflight p)) as [[g rest] |] eqn:Htake; simpl;
      [| exact Hinv].
    apply take_goroutine_Some in Htake as (_ & _ & _ & Hperm).
    apply (run_goroutine_tasks g rest); [| exact Hinv].
    eapply flight_inv_perm; eauto.
Qed.

Lemma run_pass_tasks (s : taskScheduler W) sched (p : Pass W) :
  flight_inv (pSched p) (pInflight p) -> pass_tasks s (pSched p) ->
  pass_tasks s (pSched (fold_left (run_event E) sched p)).
Proof.
  revert p. induction sched as [| ev sched IH]; intros p Hfl Hinv; simpl; [exact Hinv |].
  apply IH; [apply run_event_flight, Hfl | apply run_event_tasks; assumption].
Qed.

Lemma run_wait_tasks (s : taskScheduler W) l (sp : taskScheduler W) :
  flight_inv sp l -> pass_tasks s sp -> pass_tasks s (snd (run_wait E l sp)).
Proof.
  revert sp. induction l as [| g l IH]; intros sp Hfl Hinv; simpl; [exact Hinv |].
  unfold bind.
  pose proof (run_goroutine_flight E g l sp Hfl) as Hfl'.
  pose proof (run_goroutine_tasks g l s sp Hfl Hinv) as Hinv'.
  destruct (run_goroutine E (fst g) (snd g) sp) as [u s1]. simpl in *. apply IH; assumption.
Qed.

End PassRunning.

(** X5.  What a dispatch pass does to the running map and the queue: every entry of
    the running map stays as it is; a task the pass puts into the running map
    is no longer in state none or init; a task the pass puts back on the queue
    is in state none or init. *)
Theorem run_running_map :
  forall (W : Type) (E : Env W) (sched : list Event) (s s' : taskScheduler W),
    sched_inv s ->
    run E sched s = Some s' ->
    (forall id t, runningTasks s !! id = Some t -> runningTasks s' !! id = Some t)
    /\ (forall id t, runningTasks s' !! id = Some t ->
          runningTasks s !! id = Some t \/ ~ waiting t)
    /\ (forall t, In t (pendingTasks s') -> In t (pendingTasks s) \/ waiting t).
Proof.
  intros W E sched s s' Hs Hrun. unfold run in Hrun.
  destruct (Queue.TaskCount (pendingTasks s) =? 0).
  { inversion Hrun; subst. repeat split; auto. }
  unfold call in Hrun. destruct (QuerySlots E (world s)) as [ws w].
  set (s0 := mkSched (pendingTasks s) (runningTasks s) w) in *.
  assert (H0 : flight_inv s0 []) by (apply sched_inv_flight; exact Hs).
  assert (H1 : pass_tasks s s0) by (unfold pass_tasks; simpl; repeat split; auto).
  pose proof (run_pass_flight E sched (mkPass s0 ws [] false []) H0) as Hfl.
  pose proof (run_pass_tasks E s sched (mkPass s0 ws [] false []) H0 H1) as Hinv.
  fold (run_pass E ws sched s0) in Hfl, Hinv.
  destruct (pBroken (run_pass E ws sched s0)); [| discriminate].
  inversion Hrun; subst s'. apply run_wait_tasks; assumption.
Qed.

Lemma run_running_map_witness :
  match run Examples.env [EvLoop Examples.order12; EvGoroutine 7; EvLoop Examples.order12;
                          EvLoop Examples.order12] Examples.sched_pending78 with
  | Some s' =>
      (forall id t, runningTasks Examples.sched_pending78 !! id = Some t ->
                    runningTasks s' !! id = Some t)
      /\ (forall id t, runningTasks s' !! id = Some t ->
            runningTasks Examples.sched_pending78 !! id = Some t \/ ~ waiting t)
      /\ (forall t, In t (pendingTasks s') ->
            In t (pendingTasks Examples.sched_pending78) \/ waiting t)
  | None => False
  end.
Proof.
  assert (Hinv : sched_inv Examples.sched_pending78).
  { split; [| split].
    - repeat constructor; simpl; intuition discriminate.
    - intros id t H. simpl in H. rewrite lookup_empty in H. discriminate.
    - intros id _. apply lookup_empty. }
  destruct (run Examples.env [EvLoop Examples.order12; EvGoroutine 7; EvLoop Examples.order12;
                              EvLoop Examples.order12] Examples.sched_pending78) as [s' |] eqn:H.
  - exact (run_running_map unit Examples.env _ Examples.sched_pending78 s' Hinv H).
  - vm_compute in H. discriminate.
Defined.

(** *** The polling loop *)

Lemma polled_refl {W : Type} (s : taskScheduler W) : polled s s.
Proof.
  split; [| auto]. exists []. rewrite app_nil_r. split; [reflexivity | intros t []].
Qed.

Lemma polled_trans {W : Type} (s1 s2 s3 : taskScheduler W) :
  polled s1 s2 -> polled s2 s3 -> polled s1 s3.
Proof.
  intros [(n1 & Hp1 & Hn1) Hr1] [(n2 & Hp2 & Hn2) Hr2]. split; [| auto].
  exists (n1 ++ n2). rewrite Hp2, Hp1, app_assoc. split; [reflexivity |].
  intros t Hin. apply in_app_or in Hin as [Hin | Hin].
  - destruct (Hn1 t Hin) as (H1 & H2 & H3). repeat split; auto.
    destruct (runningTasks s3 !! taskID t) eqn:Hl; [| reflexivity].
    assert (Hs : is_Some (runningTasks s2 !! taskID t)) by (apply Hr2; eauto).
    rewrite H3 in Hs. destruct Hs. discriminate.
  - destruct (Hn2 t Hin) as (H1 & H2 & H3). repeat split; auto.
Qed.

Section Polling.
Context {W : Type} (E : Env W).

Lemma checkProcessingTask_push (t : Task) (s : taskScheduler W) :
  let r := checkProcessingTask E t s in
  pendingTasks (snd r) = pendingTasks s
  \/ pendingTasks (snd r) = Queue.Push (snd (fst r)) (pendingTasks s)
     /\ fst (fst r) = true /\ GetState (snd (fst r)) = JobStateInit.
Proof.
  unfold checkProcessingTask. destruct (GetState t).
  1,2: unfold ret; simpl; auto.
  - destruct (processInProgress_frame E t s) as [H1 [H2 H3]]. auto.
  - destruct (processFinished_frame E t s) as [H1 [H2 H3]]. auto.
  - destruct (processFinished_frame E t s) as [H1 [H2 H3]]. auto.
  - unfold processRetry, processRetry_reset, push. hooks; auto.
Qed.

Lemma checkProcessingTasks_body_polled id (s : taskScheduler W) :
  sched_inv s -> polled s (snd (checkProcessingTasks_body E id s)).
Proof.
  intros (H1 & H2 & H3). unfold checkProcessingTasks_body.
  destruct (runningTasks s !! id) as [task |] eqn:Hr; [| apply polled_refl].
  unfold bind.
  pose proof (checkProcessingTask_spec E task s) as (Hst & Hrun & _).
  pose proof (checkProcessingTask_push task s) as Hpend.
  destruct (checkProcessingTask E task s) as [[suc task'] s1]. simpl in *.
  pose proof (H2 _ _ Hr) as Hid. destruct Hst as [Hid' _].
  assert (Hnp : ~ In id (Queue.Keys (pendingTasks s))).
  { intros Hin. apply H3 in Hin. congruence. }
  destruct suc; unfold removeRunning, insertRunning, polled; simpl; rewrite Hrun.
  - split.
    + destruct Hpend as [-> | (-> & _ & Hinit)].
      * exists []. rewrite app_nil_r. split; [reflexivity | intros t []].
      * exists [task']. split.
        { unfold Queue.Push.
          assert (Hex : Queue.Exist (taskID task') (pendingTasks s) = false).
          { apply Queue_Exist_false. congruence. }
          rewrite Hex. reflexivity. }
        intros t [<- | []]. repeat split; [exact Hinit | |].
        { rewrite Hid', Hid, Hr. eauto. }
        { rewrite Hid', Hid. apply lookup_delete_eq. }
    + intros j [x Hx]. apply lookup_delete_Some in Hx as [_ Hx]. eauto.
  - destruct Hpend as [Hp | (_ & Hf & _)]; [| discriminate]. rewrite Hp. split.
    + exists []. rewrite app_nil_r. split; [reflexivity | intros t []].
    + intros j [x Hx]. destruct (decide (taskID task' = j)) as [<- | Hne].
      * rewrite Hid', Hid, Hr. eauto.
      * rewrite lookup_insert_ne in Hx by exact Hne. eauto.
Qed.

Lemma forM_body_polled order (s : taskScheduler W) :
  sched_inv s -> polled s (snd (forM_ (checkProcessingTasks_body E) order s)).
Proof.
  revert s. induction order as [| id order IH]; intros s Hs; simpl; [apply polled_refl |].
  unfold bind.
  pose proof (checkProcessingTasks_body_inv E id s Hs) as Hs'.
  pose proof (checkProcessingTasks_body_polled id s Hs) as Hp.
  destruct (checkProcessingTasks_body E id s) as [u s1]. simpl in *.
  eapply polled_trans; [exact Hp | apply IH, Hs'].
Qed.

End Polling.

(** X6.  A polling pass ([checkProcessingTasks]) only appends to the pending queue,
    and what it appends are tasks in state init which were in the running map
    and are no longer there; it puts no new id into the running map. *)
Theorem checkProcessingTasks_polled :
  forall (W : Type) (E : Env W) (order : list UniqueID) (s : taskScheduler W),
    sched_inv s ->
    let s' := snd (checkProcessingTasks E order s) in
    (exists new, pendingTasks s' = pendingTasks s ++ new
       /\ forall t, In t new ->
            GetState t = JobStateInit
            /\ is_Some (runningTasks s !! taskID t)
            /\ runningTasks s' !! taskID t = None)
    /\ (forall id, is_Some (runningTasks s' !! id) -> is_Some (runningTasks s !! id)).
Proof.
  intros W E order s Hs s'. subst s'. unfold checkProcessingTasks.
  destruct (Z.of_nat (size (runningTasks s)) <=? 0); [apply polled_refl |].
  apply forM_body_polled, Hs.
Qed.

Lemma sched_inv_retry9 : sched_inv Examples.sched_retry9.
Proof.
  split; [constructor | split].
  - intros id t H. simpl in H. apply lookup_insert_Some in H as [[<- <-] | [_ H]].
    + reflexivity.
    + rewrite lookup_empty in H. discriminate.
  - intros id [].
Qed.

Lemma checkProcessingTasks_polled_witness :
  (exists new,
      pendingTasks (snd (checkProcessingTasks Examples.env [9] Examples.sched_retry9))
      = pendingTasks Examples.sched_retry9 ++ new
      /\ forall t, In t new ->
           GetState t = JobStateInit
           /\ is_Some (runningTasks Examples.sched_retry9 !! taskID t)
           /\ runningTasks (snd (checkProcessingTasks Examples.env [9] Examples.sched_retry9))
                !! taskID t = None)
  /\ (forall id,
        is_Some (runningTasks (snd (checkProcessingTasks Examples.env [9] Examples.sched_retry9))
                   !! id) ->
        is_Some (runningTasks Examples.sched_retry9 !! id)).
Proof.
  exact (checkProcessingTasks_polled unit Examples.env [9] Examples.sched_retry9
           sched_inv_retry9).
Defined.

(** X7.  A running task in progress whose worker is no longer registered goes back
    to the queue in two turns of the polling loop: the first turn leaves it in
    the running map in state retry with the reason "node does not exist" and
    leaves the queue alone; the second appends it to the queue in state init,
    with its id and slot cost, and takes it out of the running map. *)
Theorem worker_loss_requeues :
  forall (W : Type) (E : Env W) (s : taskScheduler W) (id : UniqueID) (t : Task),
    sched_inv s ->
    runningTasks s !! id = Some t ->
    GetState t = JobStateInProgress ->
    (forall w, snd (fst (GetClientByID E (GetNodeID t) w)) = false) ->
    let s1 := snd (checkProcessingTasks_body E id s) in
    let s2 := snd (checkProcessingTasks_body E id s1) in
    (pendingTasks s1 = pendingTasks s
     /\ runningTasks s1 = <[id := SetState JobStateRetry "node does not exist" t]> (runningTasks s))
    /\ (exists t2, pendingTasks s2 = pendingTasks s ++ [t2]
          /\ taskID t2 = id /\ taskSlot t2 = taskSlot t /\ GetState t2 = JobStateInit)
    /\ runningTasks s2 = delete id (runningTasks s).
Proof.
  intros W E s id t (Hnd & Hkeys & Hdisj) Hr Hst Hgone s1 s2.
  pose proof (Hkeys _ _ Hr) as Hid.
  assert (Hex : Queue.Exist id (pendingTasks s) = false).
  { apply Queue_Exist_false. intros Hin. apply Hdisj in Hin. congruence. }
  assert (H1 : pendingTasks s1 = pendingTasks s
               /\ runningTasks s1
                  = <[id := SetState JobStateRetry "node does not exist" t]> (runningTasks s)).
  { subst s1. unfold checkProcessingTasks_body. rewrite Hr.
    unfold bind, checkProcessingTask. rewrite Hst.
    unfold processInProgress, bind, call, ret, insertRunning.
    pose proof (Hgone (world s)) as Hg.
    destruct (GetClientByID E (GetNodeID t) (world s)) as [[client ex] w1]. simpl in Hg.
    subst ex. simpl. rewrite Hid. auto. }
  destruct H1 as [Hp1 Hr1]. split; [split; assumption |].
  set (t1 := SetState JobStateRetry "node does not exist" t) in *.
  assert (Hl1 : runningTasks s1 !! id = Some t1) by (rewrite Hr1; apply lookup_insert_eq).
  subst s2. unfold checkProcessingTasks_body. rewrite Hl1.
  unfold bind, checkProcessingTask. change (GetState t1) with JobStateRetry. cbv iota.
  unfold processRetry, processRetry_reset, bind, call, push, ret, removeRunning.
  change (GetNodeID t1) with (GetNodeID t).
  pose proof (Hgone (world s1)) as Hg.
  destruct (GetClientByID E (GetNodeID t) (world s1)) as [[client ex] w1]. simpl in Hg.
  subst ex. simpl.
  destruct (ResetTask E (SetState JobStateInit "" t1) w1) as [n w2]. simpl.
  rewrite Hp1, Hr1. split.
  - exists (SetNodeID n (SetState JobStateInit "" t1)). unfold Queue.Push. simpl.
    rewrite Hid, Hex. auto.
  - apply delete_insert_eq.
Qed.

Lemma sched_inv_running5 : sched_inv Examples.sched_running5.
Proof.
  split; [constructor | split].
  - intros id t H. simpl in H. apply lookup_insert_Some in H as [[<- <-] | [_ H]].
    + reflexivity.
    + rewrite lookup_empty in H. discriminate.
  - intros id [].
Qed.

Lemma worker_loss_requeues_witness :
  let s1 := snd (checkProcessingTasks_body Examples.env_worker_gone 5 Examples.sched_running5) in
  let s2 := snd (checkProcessingTasks_body Examples.env_worker_gone 5 s1) in
  (pendingTasks s1 = pendingTasks Examples.sched_running5
   /\ runningTasks s1
      = <[5 := SetState JobStateRetry "node does not exist" Examples.task5]>
          (runningTasks Examples.sched_running5))
  /\ (exists t2, pendingTasks s2 = pendingTasks Examples.sched_running5 ++ [t2]
        /\ taskID t2 = 5 /\ taskSlot t2 = taskSlot Examples.task5 /\ GetState t2 = JobStateInit)
  /\ runningTasks s2 = delete 5 (runningTasks Examples.sched_running5).
Proof.
  apply (worker_loss_requeues unit Examples.env_worker_gone Examples.sched_running5 5 Examples.task5
           sched_inv_running5 eq_refl eq_refl).
  intros w. reflexivity.
Defined.


(** X8.  After [AbortTask] on a task the scheduler tracks, the next turn of the
    polling loop for that task leaves it out of the pending queue, and either
    removes it from the running map or keeps it there as failed with the
    reason "canceled"; when [SetJobInfo] and [DropTaskOnWorker] do not fail,
    the task is gone from the scheduler. *)
Theorem abort_then_poll :
  forall (W : Type) (E : Env W) (s : taskScheduler W) (id : UniqueID),
    sched_inv s ->
    exist id s = true ->
    let s2 := snd (checkProcessingTasks_body E id (snd (AbortTask id s))) in
    in_pending id s2 = false
    /\ (in_running id s2 = false
        \/ exists t', runningTasks s2 !! id = Some t'
                      /\ GetState t' = JobStateFailed
                      /\ GetFailReason t' = "canceled"%string)
    /\ ((forall t w, fst (SetJobInfo E t w) = true) ->
        (forall t w, fst (DropTaskOnWorker E t w) = true) ->
        exist id s2 = false).
Proof.
  intros W E s id Hs Hex s2.
  assert (Habort : exists tf, runningTasks (snd (AbortTask id s)) !! id = Some tf
                     /\ taskID tf = id
                     /\ GetState tf = JobStateFailed /\ GetFailReason tf = "canceled"%string
                     /\ Queue.Exist id (pendingTasks (snd (AbortTask id s))) = false).
  { destruct Hs as (Hnd & Hkeys & Hdisj). unfold AbortTask.
    destruct (Queue.Get id (pendingTasks s)) as [task |] eqn:Hg; simpl.
    - exists (SetState JobStateFailed "canceled" task). rewrite lookup_insert_eq.
      apply Queue_Get_Some_id in Hg as [Hid _]. repeat split; auto.
      apply Queue_Exist_false. rewrite Queue_Keys_Remove. tauto.
    - unfold exist, Queue.Exist in Hex. rewrite Hg in Hex.
      destruct (runningTasks s !! id) as [rt |] eqn:Hr; [| discriminate]. simpl.
      exists (SetState JobStateFailed "canceled" rt). rewrite lookup_insert_eq.
      repeat split; auto.
      + simpl. eauto.
      + unfold Queue.Exist. rewrite Hg. reflexivity. }
  destruct Habort as (tf & Hl & Hid & Hst & Hreason & Hnq).
  set (s1 := snd (AbortTask id s)) in *.
  subst s2. unfold checkProcessingTasks_body. rewrite Hl.
  unfold bind, checkProcessingTask. rewrite Hst.
  unfold processFinished, bind, call, ret, removeRunning, insertRunning.
  unfold in_pending, in_running, exist.
  destruct (SetJobInfo E tf (world s1)) as [ok w1] eqn:Hset. simpl.
  destruct ok; simpl.
  - destruct (Now E w1) as [now w2]. simpl.
    destruct (GetClientByID E (GetNodeID (SetEndTime now tf)) w2) as [[client ex] w3]. simpl.
    destruct ex; simpl.
    + destruct (DropTaskOnWorker E (SetEndTime now tf) w3) as [ok2 w4] eqn:Hdrop. simpl.
      destruct ok2; simpl.
      * rewrite Hnq, lookup_delete_eq. auto.
      * rewrite Hnq, Hid, lookup_insert_eq. split; [reflexivity |]. split.
        { right. eexists. split; [reflexivity |]. auto. }
        intros _ Hd. specialize (Hd (SetEndTime now tf) w3). rewrite Hdrop in Hd. discriminate.
    + rewrite Hnq, lookup_delete_eq. auto.
  - rewrite Hnq, Hid, lookup_insert_eq. split; [reflexivity |]. split.
    + right. eexists. split; [reflexivity |]. auto.
    + intros Hj _. specialize (Hj tf (world s1)). rewrite Hset in Hj. discriminate.
Qed.

Lemma abort_then_poll_witness :
  let s2 := snd (checkProcessingTasks_body Examples.env 7 (snd (AbortTask 7 Examples.sched_pending7))) in
  in_pending 7 s2 = false
  /\ (in_running 7 s2 = false
      \/ exists t', runningTasks s2 !! 7 = Some t'
                    /\ GetState t' = JobStateFailed
                    /\ GetFailReason t' = "canceled"%string)
  /\ ((forall t w, fst (SetJobInfo Examples.env t w) = true) ->
      (forall t w, fst (DropTaskOnWorker Examples.env t w) = true) ->
      exist 7 s2 = false).
Proof.
  apply (abort_then_poll unit Examples.env Examples.sched_pending7 7).
  - split; [| split].
    + repeat constructor. intros [].
    + intros id t H. simpl in H. rewrite lookup_empty in H. discriminate.
    + intros id _. apply lookup_empty.
  - reflexivity.
Defined.

Lemma Queue_Exist_Remove (id j : UniqueID) (q : Queue.t) :
  Queue.Exist j (Queue.Remove id q) = negb (Z.eqb j id) && Queue.Exist j q.
Proof.
  destruct (Queue.Exist j (Queue.Remove id q)) eqn:H1.
  - apply Queue_Exist_true, Queue_Keys_Remove in H1 as [Hne Hin].
    apply Queue_Exist_true in Hin. rewrite Hin.
    destruct (Z.eqb_spec j id); [contradiction | reflexivity].
  - apply Queue_Exist_false in H1. rewrite Queue_Keys_Remove in H1.
    destruct (Z.eqb_spec j id); [reflexivity |]. simpl.
    symmetry. apply Queue_Exist_false. tauto.
Qed.

(** X9.  [AbortTask] is idempotent, tracks the same ids as before ([exist] answers
    the same for every id) and calls no collaborator. *)
Theorem AbortTask_idempotent :
  forall (W : Type) (s : taskScheduler W) (id : UniqueID),
    snd (AbortTask id (snd (AbortTask id s))) = snd (AbortTask id s)
    /\ (forall j, exist j (snd (AbortTask id s)) = exist j s)
    /\ world (snd (AbortTask id s)) = world s.
Proof.
  intros W s id.
  destruct (Queue.Get id (pendingTasks s)) as [task |] eqn:Hg.
  - assert (H1 : snd (AbortTask id s)
                 = mkSched (Queue.Remove id (pendingTasks s))
                           (<[id := SetState JobStateFailed "canceled" task]> (runningTasks s))
                           (world s)).
    { unfold AbortTask. rewrite Hg. reflexivity. }
    rewrite H1. split; [| split; [| reflexivity]].
    + unfold AbortTask. simpl.
      assert (Hnone : Queue.Get id (Queue.Remove id (pendingTasks s)) = None).
      { apply Queue_Get_None. rewrite Queue_Keys_Remove. tauto. }
      rewrite Hnone, lookup_insert_eq. simpl. rewrite insert_insert_eq. reflexivity.
    + intros j. unfold exist. simpl. rewrite Queue_Exist_Remove.
      destruct (Z.eqb_spec j id) as [-> | Hne]; simpl.
      * rewrite lookup_insert_eq. unfold Queue.Exist. rewrite Hg. reflexivity.
      * rewrite lookup_insert_ne by congruence. reflexivity.
  - destruct (runningTasks s !! id) as [rt |] eqn:Hr.
    + assert (H1 : snd (AbortTask id s)
                   = mkSched (pendingTasks s)
                             (<[id := SetState JobStateFailed "canceled" rt]> (runningTasks s))
                             (world s)).
      { unfold AbortTask. rewrite Hg, Hr. reflexivity. }
      rewrite H1. split; [| split; [| reflexivity]].
      * unfold AbortTask. simpl. rewrite Hg, lookup_insert_eq. simpl.
        rewrite insert_insert_eq. reflexivity.
      * intros j. unfold exist. simpl. destruct (Queue.Exist j (pendingTasks s)); [reflexivity |].
        destruct (decide (id = j)) as [<- | Hne].
        { rewrite lookup_insert_eq, Hr. reflexivity. }
        { rewrite lookup_insert_ne by exact Hne. reflexivity. }
    + assert (H1 : snd (AbortTask id s) = s).
      { unfold AbortTask. rewrite Hg, Hr. reflexivity. }
      rewrite H1. split; [exact H1 | split; reflexivity].
Qed.

(** X10.  After [enqueue] the task's id is tracked ([exist]); no other id changes,
    the running map is untouched, and the id is appended to the queue exactly
    when the scheduler did not track it before. *)
Theorem enqueue_tracks :
  forall (W : Type) (E : Env W) (task : Task) (s : taskScheduler W),
    let s' := snd (enqueue E task s) in
    exist (taskID task) s' = true
    /\ (forall j, j <> taskID task -> exist j s' = exist j s)
    /\ runningTasks s' = runningTasks s
    /\ Queue.Keys (pendingTasks s')
       = (if exist (taskID task) s then Queue.Keys (pendingTasks s)
          else Queue.Keys (pendingTasks s) ++ [taskID task]).
Proof.
  intros W E task s s'. subst s'. unfold enqueue.
  destruct (runningTasks s !! taskID task) as [rt |] eqn:Hr.
  - simpl. unfold exist. rewrite Hr.
    destruct (Queue.Exist (taskID task) (pendingTasks s)); auto.
  - unfold bind, call, push. destruct (Now E (world s)) as [now w]. simpl.
    unfold exist. simpl. rewrite Hr.
    change (taskID (SetQueueTime now task)) with (taskID task).
    rewrite Queue_Keys_Push. change (taskID (SetQueueTime now task)) with (taskID task).
    destruct (Queue.Exist (taskID task) (pendingTasks s)) eqn:Hex.
    + unfold Queue.Push. change (taskID (SetQueueTime now task)) with (taskID task).
      rewrite Hex. repeat split; auto. rewrite Hex. reflexivity.
    + repeat split; auto.
      * assert (Hin : Queue.Exist (taskID task) (Queue.Push (SetQueueTime now task) (pendingTasks s)) = true).
        { apply Queue_Exist_true. apply Queue_Keys_Push_incl. right. reflexivity. }
        rewrite Hin. reflexivity.
      * intros j Hne.
        assert (Heq : Queue.Exist j (Queue.Push (SetQueueTime now task) (pendingTasks s))
                      = Queue.Exist j (pendingTasks s)).
        { destruct (Queue.Exist j (pendingTasks s)) eqn:Hj.
          - apply Queue_Exist_true. apply Queue_Keys_Push_incl. left.
            apply Queue_Exist_true, Hj.
          - apply Queue_Exist_false. rewrite Queue_Keys_Push.
            change (taskID (SetQueueTime now task)) with (taskID task). rewrite Hex.
            apply Queue_Exist_false in Hj. intros Hin.
            apply in_app_or in Hin as [Hin | [Hin | []]]; [contradiction | congruence]. }
        rewrite Heq. reflexivity.
Qed.


(** *** Reloading from the meta *)

Section ReloadProps.

Import SchedReload.

Context {W : Type} (E : Sched.Env W) (R : SchedReload.Env W).

Lemma reloads_ret {A : Type} (a : A) : reloads (ret (S := taskScheduler W) a).
Proof. intros s Hs. exact Hs. Qed.

Lemma reloads_call {A : Type} (m : M W A) : reloads (Sched.call m).
Proof.
  intros s Hs. unfold Sched.call. destruct (m (Sched.world s)). exact Hs.
Qed.

Lemma reloads_bind {A B : Type} (m : M (taskScheduler W) A) (k : A -> M (taskScheduler W) B) :
  reloads m -> (forall s, reloads (k (fst (m s)))) -> reloads (bind m k).
Proof.
  intros Hm Hk s Hs. unfold bind. specialize (Hm s Hs). specialize (Hk s).
  destruct (m s) as [a s1]. simpl in *. apply Hk, Hm.
Qed.

Lemma reloads_forM {A : Type} (f : A -> M (taskScheduler W) unit) (l : list A) :
  (forall a, reloads (f a)) -> reloads (forM_ f l).
Proof.
  intros H. induction l as [| a l IH]; simpl; [apply reloads_ret |].
  apply reloads_bind; [apply H | intros _; exact IH].
Qed.

Lemma reloads_push (t : Task) : waiting t -> reloads (push (W := W) t).
Proof.
  intros Hw s (Hnd & Hp & Hr). unfold push, reloaded. simpl. split; [| split].
  - rewrite Queue_Keys_Push. destruct (Queue.Exist (taskID t) (pendingTasks s)) eqn:Hex;
      [exact Hnd |].
    apply Queue_Exist_false in Hex.
    apply List.NoDup_app; [exact Hnd | repeat constructor; intros [] |].
    intros x Hx [<- | []]. contradiction.
  - intros x Hx. apply Queue_Push_In in Hx as [-> | Hx]; auto.
  - exact Hr.
Qed.

Lemma reloads_insertRunning (t : Task) :
  GetState t = JobStateInProgress \/ GetState t = JobStateRetry \/ GetState t = JobStateFailed ->
  reloads (insertRunning (W := W) t).
Proof.
  intros Hst s (Hnd & Hp & Hr). unfold insertRunning, reloaded. simpl.
  split; [exact Hnd |]. split; [exact Hp |].
  intros id x Hl. destruct (decide (taskID t = id)) as [<- | Hne].
  - rewrite lookup_insert_eq in Hl. inversion Hl; subst. auto.
  - rewrite lookup_insert_ne in Hl by exact Hne. auto.
Qed.

Lemma newTask_state id slot node st reason (s : taskScheduler W) :
  GetState (fst (newTask E id slot node st reason s)) = st
  /\ taskID (fst (newTask E id slot node st reason s)) = id.
Proof.
  unfold newTask, bind, Sched.call, ret. simpl.
  destruct (Now E (Sched.world s)) as [t1 w1]. simpl.
  destruct (Now E w1) as [t2 w2]. simpl.
  destruct (Now E w2) as [t3 w3]. simpl. auto.
Qed.

Lemma reloads_newTask id slot node st reason : reloads (newTask E id slot node st reason).
Proof.
  unfold newTask.
  repeat (apply reloads_bind; [apply reloads_call | intros ?]). apply reloads_ret.
Qed.

Lemma reloads_reloadSegmentIndex segment segIndex :
  reloads (reloadSegmentIndex E R segment segIndex).
Proof.
  unfold reloadSegmentIndex. destruct (IsDeleted segIndex); [apply reloads_ret |].
  apply reloads_bind; [apply reloads_newTask | intros s].
  destruct (newTask_state (BuildID segIndex) (calculateIndexTaskSlot R (SegSize segment))
              (SegIndexNodeID segIndex) (JobState_of_IndexState (SegIndexState segIndex))
              (SegIndexFailReason segIndex) s) as [Hst _].
  destruct (SegIndexState segIndex); simpl in Hst.
  - apply reloads_push. left. exact Hst.
  - apply reloads_push. right. exact Hst.
  - apply reloads_insertRunning. auto.
  - apply reloads_ret.
  - apply reloads_ret.
  - apply reloads_insertRunning. auto.
Qed.

Lemma reloads_reloadAnalyzeTask entry : reloads (reloadAnalyzeTask E R entry).
Proof.
  unfold reloadAnalyzeTask.
  apply reloads_bind; [apply reloads_newTask | intros s].
  destruct (newTask_state (fst entry) (analyzeTaskSlot R) (AnalyzeNodeID (snd entry))
              (AnalyzeState (snd entry)) (AnalyzeFailReason (snd entry)) s) as [Hst _].
  destruct (AnalyzeState (snd entry)).
  - apply reloads_push. left. exact Hst.
  - apply reloads_push. right. exact Hst.
  - apply reloads_insertRunning. auto.
  - apply reloads_ret.
  - apply reloads_ret.
  - apply reloads_insertRunning. auto.
Qed.

Lemma reloads_reloadStatsTask entry : reloads (reloadStatsTask E R entry).
Proof.
  unfold reloadStatsTask.
  apply reloads_bind; [apply reloads_call | intros s0].
  apply reloads_bind; [apply reloads_newTask | intros s].
  match goal with
  | |- context [fst (newTask E ?id ?slot ?node ?st ?reason s)] =>
      destruct (newTask_state id slot node st reason s) as [Hst _];
      set (task := fst (newTask E id slot node st reason s)) in *
  end.
  assert (Hrun : GetState task = JobStateInProgress \/ GetState task = JobStateRetry ->
    reloads
      (r <- Sched.call (CheckAndSetSegmentsCompacting R (StatsSegmentID (snd entry))) ;;
       if negb (fst r) || negb (snd r) then
         ok <- Sched.call (DropStatsTask R (StatsTaskID (snd entry))) ;;
         if ok then ret tt
         else insertRunning
                (SetState JobStateFailed "segment is not exist or is compacting" task)
       else
         stating <- Sched.call (checkAndSetSegmentStating R (StatsInsertChannel (snd entry))
                                  (StatsSegmentID (snd entry))) ;;
         if negb stating then
           _ <- Sched.call (SetSegmentsCompacting R (StatsSegmentID (snd entry)) false) ;;
           ok <- Sched.call (DropStatsTask R (StatsTaskID (snd entry))) ;;
           if ok then ret tt
           else insertRunning
                  (SetState JobStateFailed "segment is not exist or is l0 compacting" task)
         else insertRunning task)).
  { intros Hs.
    apply reloads_bind; [apply reloads_call | intros s1].
    match goal with |- reloads (if ?b then _ else _) => destruct b end.
    - apply reloads_bind; [apply reloads_call | intros s2].
      match goal with |- reloads (if ?b then _ else _) => destruct b end;
        [apply reloads_ret |]. apply reloads_insertRunning. auto.
    - apply reloads_bind; [apply reloads_call | intros s2].
      match goal with |- reloads (if ?b then _ else _) => destruct b end.
      + apply reloads_bind; [apply reloads_call | intros s3].
        apply reloads_bind; [apply reloads_call | intros s4].
        match goal with |- reloads (if ?b then _ else _) => destruct b end;
          [apply reloads_ret |]. apply reloads_insertRunning. auto.
      + apply reloads_insertRunning. tauto. }
  destruct (StatsState (snd entry)).
  - apply reloads_push. left. exact Hst.
  - apply reloads_push. right. exact Hst.
  - apply Hrun. auto.
  - apply reloads_ret.
  - apply reloads_ret.
  - apply Hrun. auto.
Qed.

Lemma reloads_reloadFromMeta : reloads (reloadFromMeta E R).
Proof.
  unfold reloadFromMeta.
  apply reloads_bind; [apply reloads_call | intros s0].
  apply reloads_bind.
  { apply reloads_forM. intros segment. unfold reloadSegment.
    apply reloads_bind; [apply reloads_call | intros s1].
    apply reloads_forM. intros segIndex. apply reloads_reloadSegmentIndex. }
  intros s1. apply reloads_bind; [apply reloads_call | intros s2].
  apply reloads_bind; [apply reloads_forM, reloads_reloadAnalyzeTask | intros s3].
  apply reloads_bind; [apply reloads_call | intros s4].
  apply reloads_forM, reloads_reloadStatsTask.
Qed.

End ReloadProps.

(** X11.  The scheduler [newTaskScheduler] returns, filled by [reloadFromMeta] from
    the meta: the queue holds an id at most once and only tasks in state none
    or init; the running map files each task under its own id and holds only
    tasks that are in progress, to be retried, or failed (a stats task that
    could be neither resumed nor dropped). *)
Theorem reloadFromMeta_places_by_state :
  forall (W : Type) (E : Sched.Env W) (R : SchedReload.Env W) (w : W),
    let s := SchedReload.newTaskScheduler E R w in
    List.NoDup (Queue.Keys (pendingTasks s))
    /\ (forall t, In t (pendingTasks s) -> waiting t)
    /\ (forall id t, runningTasks s !! id = Some t ->
          taskID t = id
          /\ (GetState t = JobStateInProgress \/ GetState t = JobStateRetry
              \/ GetState t = JobStateFailed)).
Proof.
  intros W E R w s. subst s. unfold SchedReload.newTaskScheduler.
  apply (reloads_reloadFromMeta E R). split; [constructor | split].
  - intros t [].
  - intros id t H. simpl in H. rewrite lookup_empty in H. discriminate.
Qed.


(* ===================================================================== *)
(** ** The channel manager                                                 *)
(* ===================================================================== *)

Import Channel.

(** ** Terms and histories *)

Lemma TryAssignToServerID_term mode node m :
  term_above_history m ->
  Int64.in_range (Term (Channel m)) ->
  Term (Channel m) < Int64.max_int ->
  term_above_history (snd (TryAssignToServerID mode node m))
  /\ Term (Channel m) <= Term (Channel (snd (TryAssignToServerID mode node m)))
     <= Term (Channel m) + 1.
Proof.
  intros Hinv Hr Hmax. unfold TryAssignToServerID.
  destruct (_ && _); simpl; [split; [exact Hinv | lia] |].
  assert (Hw : Int64.wrap (Term (Channel m) + 1) = Term (Channel m) + 1).
  { apply wrap_in_range. unfold Int64.in_range, Int64.min_int, Int64.max_int in *. lia. }
  unfold term_above_history in *. simpl. rewrite Hw. split; [| lia].
  assert (Hold : Forall (fun h => LogTerm h < Term (Channel m) + 1) (Histories m)).
  { eapply Forall_impl; [exact Hinv |]. simpl. intros h Hh. lia. }
  case_bool_decide; [| exact Hold].
  apply Forall_app. split; [exact Hold |]. constructor; [simpl; lia | constructor].
Qed.

Lemma AssignToServerDone_term now m :
  term_above_history m ->
  term_above_history (AssignToServerDone now m)
  /\ Term (Channel (AssignToServerDone now m)) = Term (Channel m).
Proof.
  intros Hinv. unfold AssignToServerDone. case_bool_decide; [| auto].
  split; [constructor | reflexivity].
Qed.

(** C6.  If the term of a channel is above the term of every entry of its
    history, it still is after every sequence of assignments
    ([TryAssignToServerID]) and confirmations ([AssignToServerDone]), as long
    as the term does not reach the end of the [int64] range; and the term
    never goes down. *)
Theorem C6_term_above_history :
  forall (m : PChannelMeta) (ops : list ChannelOp),
    term_above_history m ->
    Int64.in_range (Term (Channel m)) ->
    Term (Channel m) + Z.of_nat (length ops) <= Int64.max_int ->
    term_above_history (fold_left apply_op ops m)
    /\ Term (Channel m) <= Term (Channel (fold_left apply_op ops m)).
Proof.
  intros m ops. revert m. induction ops as [| op ops IH]; intros m Hinv Hr Hlen.
  - simpl. split; [exact Hinv | lia].
  - simpl fold_left.
    assert (Hstep : term_above_history (apply_op m op)
                    /\ Term (Channel m) <= Term (Channel (apply_op m op))
                       <= Term (Channel m) + 1).
    { destruct op as [mode node | now]; simpl.
      - apply TryAssignToServerID_term; auto.
        rewrite length_cons in Hlen. lia.
      - destruct (AssignToServerDone_term now m Hinv) as [H1 H2]. split; [exact H1 | lia]. }
    destruct Hstep as [Hinv' Hterm].
    destruct (IH (apply_op m op) Hinv') as [H1 H2].
    + unfold Int64.in_range, Int64.min_int, Int64.max_int in *.
      rewrite length_cons in Hlen. lia.
    + rewrite length_cons in Hlen. lia.
    + split; [exact H1 | lia].
Qed.


Lemma C6_term_above_history_witness :
  term_above_history (fold_left apply_op Examples.channel_ops Examples.chan_c1)
  /\ Term (Channel Examples.chan_c1)
     <= Term (Channel (fold_left apply_op Examples.channel_ops Examples.chan_c1)).
Proof.
  apply (C6_term_above_history Examples.chan_c1 Examples.channel_ops).
  - constructor.
  - unfold Int64.in_range, Int64.min_int, Int64.max_int. simpl. lia.
  - unfold Int64.max_int. simpl. lia.
Defined.

(** ** Assigning a batch twice *)

Lemma TryAssignToServerID_cases mode node m :
  (TryAssignToServerID mode node m = (false, m)
   /\ AccessMode_ (Channel m) = mode /\ CurrentServerID m = ServerID node
   /\ State m = PCHANNEL_META_STATE_ASSIGNED)
  \/ (exists m', TryAssignToServerID mode node m = (true, m')
      /\ AccessMode_ (Channel m') = mode /\ CurrentServerID m' = ServerID node
      /\ State m' = PCHANNEL_META_STATE_ASSIGNING
      /\ ~ (AccessMode_ (Channel m) = mode /\ CurrentServerID m = ServerID node
            /\ State m = PCHANNEL_META_STATE_ASSIGNED)).
Proof.
  unfold TryAssignToServerID, ChannelInfo.
  destruct (bool_decide_reflect (AccessMode_ (Channel m) = mode)) as [H1 | H1]; simpl.
  - destruct (Z.eqb_spec (CurrentServerID m) (ServerID node)) as [H2 | H2]; simpl.
    + destruct (bool_decide_reflect (State m = PCHANNEL_META_STATE_ASSIGNED)) as [H3 | H3].
      * left. auto.
      * right. eexists. split; [reflexivity |]. simpl. repeat split; auto. tauto.
    + right. eexists. split; [reflexivity |]. simpl. repeat split; auto. tauto.
  - right. eexists. split; [reflexivity |]. simpl. repeat split; auto. tauto.
Qed.

Lemma AssignPChannels_range_other pf updates cm e cm' id :
  AssignPChannels_range pf updates cm = (e, cm') ->
  ~ In id (List.map fst updates) ->
  channels cm' !! id = channels cm !! id.
Proof.
  revert cm. induction updates as [| [i u] rest IH]; intros cm H Hnin; simpl in *.
  - inversion H; subst. reflexivity.
  - destruct (channels cm !! i) as [ch |] eqn:Hch; [| inversion H; subst; reflexivity].
    destruct (TryAssignToServerID _ _ ch) as [changed mch].
    destruct changed.
    + unfold persistAssignment in H. destruct (pf mch).
      * inversion H; subst. simpl. apply lookup_insert_ne. tauto.
      * apply IH in H; [| tauto]. rewrite H. simpl. apply lookup_insert_ne. tauto.
    + apply IH in H; tauto.
Qed.

(** After a successful pass over a batch, every channel of the batch has the
    batch's mode and node and is assigning or assigned. *)
Lemma AssignPChannels_range_result pf updates cm cm' :
  List.NoDup (List.map fst updates) ->
  AssignPChannels_range pf updates cm = (None, cm') ->
  forall id u, In (id, u) updates ->
    exists m, channels cm' !! id = Some m /\ matches u m
              /\ (State m = PCHANNEL_META_STATE_ASSIGNING
                  \/ State m = PCHANNEL_META_STATE_ASSIGNED).
Proof.
  revert cm. induction updates as [| [i u0] rest IH]; intros cm Hnd H id u Hin; simpl in *.
  - destruct Hin.
  - apply List.NoDup_cons_iff in Hnd as [Hfresh Hnd].
    destruct (channels cm !! i) as [ch |] eqn:Hch; [| discriminate].
    destruct (TryAssignToServerID_cases (AccessMode_ (AssignedChannel u0)) (AssignedNode u0) ch)
      as [(Heq & Hm & Hn & Hs) | (mch & Heq & Hm & Hn & Hs & _)]; rewrite Heq in H.
    + destruct Hin as [Hin | Hin]; [| eauto].
      inversion Hin; subst i u0.
      exists ch. split; [| split; [split; assumption | right; assumption]].
      rewrite (AssignPChannels_range_other _ _ _ _ _ id H Hfresh). exact Hch.
    + unfold persistAssignment in H. destruct (pf mch); [discriminate |].
      destruct Hin as [Hin | Hin]; [| eauto].
      inversion Hin; subst i u0.
      exists mch. split; [| split; [split; assumption | left; assumption]].
      rewrite (AssignPChannels_range_other _ _ _ _ _ id H Hfresh). simpl.
      apply lookup_insert_eq.
Qed.

Lemma AssignToServerDone_idem now m :
  AssignToServerDone now (AssignToServerDone now m) = AssignToServerDone now m.
Proof.
  unfold AssignToServerDone.
  destruct (bool_decide_reflect (State m = PCHANNEL_META_STATE_ASSIGNING)) as [H1 | H1]; simpl.
  - reflexivity.
  - rewrite bool_decide_eq_false_2 by exact H1. reflexivity.
Qed.

Lemma confirm_channels_other (now : Z) (ids : list ChannelID)
    (chs : gmap ChannelID PChannelMeta) (id : ChannelID) :
  ~ In id ids -> fold_left (confirm_channel now) ids chs !! id = chs !! id.
Proof.
  revert chs. induction ids as [| i ids IH]; intros chs Hnin; simpl; [reflexivity |].
  rewrite IH by (intros H; apply Hnin; right; exact H). unfold confirm_channel.
  destruct (chs !! i); [| reflexivity].
  apply lookup_insert_ne. intros ->. apply Hnin. left. reflexivity.
Qed.

Lemma confirm_channels_done (now : Z) (ids : list ChannelID)
    (chs : gmap ChannelID PChannelMeta) (id : ChannelID) (m : PChannelMeta) :
  chs !! id = Some (AssignToServerDone now m) ->
  fold_left (confirm_channel now) ids chs !! id = Some (AssignToServerDone now m).
Proof.
  revert chs. induction ids as [| i ids IH]; intros chs Hm; simpl; [exact Hm |].
  apply IH. unfold confirm_channel. destruct (decide (i = id)) as [-> | Hne].
  - rewrite Hm. rewrite lookup_insert_eq. rewrite AssignToServerDone_idem. reflexivity.
  - destruct (chs !! i); [rewrite lookup_insert_ne by exact Hne |]; exact Hm.
Qed.

Lemma confirm_channels_lookup (now : Z) (ids : list ChannelID)
    (chs : gmap ChannelID PChannelMeta) (id : ChannelID) (m : PChannelMeta) :
  In id ids -> chs !! id = Some m ->
  fold_left (confirm_channel now) ids chs !! id = Some (AssignToServerDone now m).
Proof.
  revert chs. induction ids as [| i ids IH]; intros chs Hin Hm; simpl; [destruct Hin |].
  destruct (decide (i = id)) as [-> | Hne].
  - apply confirm_channels_done. unfold confirm_channel. rewrite Hm.
    apply lookup_insert_eq.
  - destruct Hin as [Heq | Hin]; [contradiction |].
    apply IH; [exact Hin |]. unfold confirm_channel.
    destruct (chs !! i); [rewrite lookup_insert_ne by exact Hne |]; exact Hm.
Qed.

(** A batch whose every entry is what its channel already has, assigned, is
    passed over without a change. *)
Lemma AssignPChannels_range_noop pf updates cm :
  (forall id u, In (id, u) updates ->
     exists m, channels cm !! id = Some m /\ matches u m
               /\ State m = PCHANNEL_META_STATE_ASSIGNED) ->
  AssignPChannels_range pf updates cm = (None, cm).
Proof.
  induction updates as [| [i u] rest IH]; intros H; simpl; [reflexivity |].
  destruct (H i u (or_introl eq_refl)) as (m & Hm & [Hmode Hnode] & Hst).
  rewrite Hm.
  destruct (TryAssignToServerID_cases (AccessMode_ (AssignedChannel u)) (AssignedNode u) m)
    as [(Heq & _) | (mch & _ & _ & _ & _ & Hnot)].
  - rewrite Heq. apply IH. intros id u' Hin. apply H. right. exact Hin.
  - exfalso. apply Hnot. auto.
Qed.

(** C5, as the code has it.  When a batch has been assigned without error
    and its channels have been confirmed, assigning the same batch again (its
    entries visited in any order) changes no channel, so no term, and
    persists no record; the call succeeds and, as every successful call does,
    adds one to the local counter of the version. *)
Theorem C5_assign_twice_after_confirm :
  forall (persistFails persistFails' : PChannelMeta -> bool)
         (updates updates' : list (ChannelID * PChannelInfoAssigned))
         (cm cm1 : ChannelManager) (nowSeconds : Z),
    List.NoDup (List.map fst updates) ->
    Permutation updates updates' ->
    AssignPChannels persistFails updates cm = (None, cm1) ->
    let cm2 := confirm nowSeconds (List.map fst updates) cm1 in
    let r := AssignPChannels persistFails' updates' cm2 in
    fst r = None
    /\ channels (snd r) = channels cm2
    /\ persisted (snd r) = persisted cm2
    /\ Global (version (snd r)) = Global (version cm2)
    /\ Local (version (snd r)) = Int64.wrap (Local (version cm2) + 1).
Proof.
  intros pf pf' updates updates' cm cm1 now Hnd Hperm H1 cm2 r.
  unfold AssignPChannels in H1.
  destruct (AssignPChannels_range pf updates cm) as [[e |] cm'] eqn:Hrange; [discriminate |].
  inversion H1; subst cm1. clear H1.
  assert (Hnoop : AssignPChannels_range pf' updates' cm2 = (None, cm2)).
  { apply AssignPChannels_range_noop. intros id u Hin.
    assert (Hin' : In (id, u) updates) by (eapply Permutation_in; [symmetry |]; eauto).
    destruct (AssignPChannels_range_result pf updates cm cm' Hnd Hrange id u Hin')
      as (m & Hm & [Hmode Hnode] & Hst).
    exists (AssignToServerDone now m). subst cm2. unfold confirm. simpl.
    split.
    { apply confirm_channels_lookup; [| exact Hm].
      apply in_map_iff. exists (id, u). split; [reflexivity | exact Hin']. }
    unfold AssignToServerDone, matches, CurrentServerID in *.
    destruct Hst as [Hst | Hst]; rewrite Hst; simpl; auto. }
  subst r. unfold AssignPChannels. rewrite Hnoop. simpl. auto.
Qed.

Lemma C5_assign_twice_after_confirm_witness :
  let cm1 := snd (AssignPChannels Examples.never_fails Examples.batch1 Examples.manager1) in
  let cm2 := confirm 5 (List.map fst Examples.batch1) cm1 in
  let r := AssignPChannels Examples.never_fails Examples.batch1 cm2 in
  fst r = None
  /\ channels (snd r) = channels cm2
  /\ persisted (snd r) = persisted cm2
  /\ Global (version (snd r)) = Global (version cm2)
  /\ Local (version (snd r)) = Int64.wrap (Local (version cm2) + 1).
Proof.
  apply (C5_assign_twice_after_confirm Examples.never_fails Examples.never_fails
           Examples.batch1 Examples.batch1 Examples.manager1).
  - repeat constructor. intros [].
  - reflexivity.
  - vm_compute. reflexivity.
Defined.

(** What the two calls of the counterexample leave: the second call, made
    while the channel is still assigning, raises the term from 1 to 2,
    persists a second record and moves the local counter from 1 to 2. *)
Lemma assign_twice_values :
  let cm1 := snd (AssignPChannels Examples.never_fails Examples.batch1 Examples.manager1) in
  let cm2 := snd (AssignPChannels Examples.never_fails Examples.batch1 cm1) in
  (Term <$> (Channel <$> channels cm1 !! "c1"%string)) = Some 1
  /\ (Term <$> (Channel <$> channels cm2 !! "c1"%string)) = Some 2
  /\ length (persisted cm1) = 1%nat /\ length (persisted cm2) = 2%nat
  /\ Local (version cm1) = 1 /\ Local (version cm2) = 2.
Proof. vm_compute. repeat split; reflexivity. Qed.

(** The claim as the spec states it fails: a second call right after the
    first finds the channel assigning, not assigned, and assigns it again. *)
Lemma C5_counterexample :
  ~ (forall (persistFails : PChannelMeta -> bool)
            (updates : list (ChannelID * PChannelInfoAssigned))
            (cm cm1 cm2 : ChannelManager),
       AssignPChannels persistFails updates cm = (None, cm1) ->
       AssignPChannels persistFails updates cm1 = (None, cm2) ->
       channels cm2 = channels cm1
       /\ persisted cm2 = persisted cm1
       /\ Local (version cm2) = Local (version cm1)).
Proof.
  intros H.
  pose (cm1 := snd (AssignPChannels Examples.never_fails Examples.batch1 Examples.manager1)).
  pose (cm2 := snd (AssignPChannels Examples.never_fails Examples.batch1 cm1)).
  assert (H1 : AssignPChannels Examples.never_fails Examples.batch1 Examples.manager1
               = (None, cm1)) by (vm_compute; reflexivity).
  assert (H2 : AssignPChannels Examples.never_fails Examples.batch1 cm1 = (None, cm2))
    by (vm_compute; reflexivity).
  destruct (H _ _ _ _ _ H1 H2) as (_ & _ & HL).
  vm_compute in HL. discriminate.
Qed.

(* ===================================================================== *)
(** ** Further properties of the channel manager                           *)
(* ===================================================================== *)

(** *** What a batch of assignments does *)

Lemma AssignPChannels_range_keys pf updates cm e cm' id :
  AssignPChannels_range pf updates cm = (e, cm') ->
  (is_Some (channels cm' !! id) <-> is_Some (channels cm !! id)).
Proof.
  revert cm. induction updates as [| [i u] rest IH]; intros cm H; simpl in *.
  - inversion H; subst. tauto.
  - destruct (channels cm !! i) as [ch |] eqn:Hch; [| inversion H; subst; tauto].
    destruct (TryAssignToServerID _ _ ch) as [changed mch].
    assert (Hins : is_Some (<[i := mch]> (channels cm) !! id) <-> is_Some (channels cm !! id)).
    { destruct (decide (i = id)) as [-> | Hne].
      - rewrite lookup_insert_eq, Hch. split; eauto.
      - rewrite lookup_insert_ne by exact Hne. tauto. }
    destruct changed.
    + unfold persistAssignment in H. destruct (pf mch).
      * inversion H; subst. simpl. exact Hins.
      * apply IH in H. simpl in H. tauto.
    + apply IH in H. exact H.
Qed.

(** The loop of [AssignPChannels] when it goes through. *)
Lemma AssignPChannels_range_success pf updates cm cm' :
  List.NoDup (List.map fst updates) ->
  AssignPChannels_range pf updates cm = (None, cm') ->
  version cm' = version cm
  /\ exists new, persisted cm' = persisted cm ++ new
     /\ (forall id u, In (id, u) updates ->
           exists m, channels cm !! id = Some m
             /\ channels cm' !! id = Some (snd (assigned_entry u m))
             /\ (fst (assigned_entry u m) = true -> In (snd (assigned_entry u m)) new))
     /\ (forall r, In r new ->
           pf r = false
           /\ exists id u m, In (id, u) updates /\ channels cm !! id = Some m
                             /\ assigned_entry u m = (true, r)).
Proof.
  revert cm. induction updates as [| [i u0] rest IH]; intros cm Hnd H; simpl in *.
  - inversion H; subst. split; [reflexivity |]. exists []. rewrite app_nil_r.
    split; [reflexivity |]. split; [intros id u [] | intros r []].
  - apply List.NoDup_cons_iff in Hnd as [Hfresh Hnd].
    destruct (channels cm !! i) as [ch |] eqn:Hch; [| discriminate].
    destruct (TryAssignToServerID (AccessMode_ (AssignedChannel u0)) (AssignedNode u0) ch)
      as [changed mch] eqn:Htry.
    destruct changed.
    + unfold persistAssignment in H. destruct (pf mch) eqn:Hpf; [discriminate |].
      pose proof (AssignPChannels_range_other _ _ _ _ _ i H Hfresh) as Hi. simpl in Hi.
      rewrite lookup_insert_eq in Hi.
      destruct (IH _ Hnd H) as (Hv & new & Hp & Hall & Hnew). simpl in *.
      split; [exact Hv |]. exists (mch :: new).
      split; [rewrite Hp, <- app_assoc; reflexivity |]. split.
      * intros id u [Heq | Hin].
        { inversion Heq; subst i u0. exists ch. unfold assigned_entry. rewrite Htry. simpl.
          split; [exact Hch |]. split; [exact Hi |]. intros _. left. reflexivity. }
        { destruct (Hall id u Hin) as (m & Hm & Hm' & Hc).
          assert (Hne : i <> id).
          { intros ->. apply Hfresh. apply in_map_iff. exists (id, u). auto. }
          rewrite lookup_insert_ne in Hm by exact Hne.
          exists m. split; [exact Hm |]. split; [exact Hm' |]. intros Ht. right. auto. }
      * intros r [<- | Hin].
        { split; [exact Hpf |]. exists i, u0, ch. unfold assigned_entry. auto. }
        { destruct (Hnew r Hin) as (Hr & id & u & m & Hin' & Hm & Hm').
          split; [exact Hr |].
          assert (Hne : i <> id).
          { intros ->. apply Hfresh. apply in_map_iff. exists (id, u). auto. }
          rewrite lookup_insert_ne in Hm by exact Hne.
          exists id, u, m. auto. }
    + pose proof (AssignPChannels_range_other _ _ _ _ _ i H Hfresh) as Hi.
      assert (mch = ch) as ->.
      { destruct (TryAssignToServerID_cases (AccessMode_ (AssignedChannel u0))
                    (AssignedNode u0) ch) as [(Heq & _) | (m' & Heq & _)];
          rewrite Heq in Htry; inversion Htry; reflexivity. }
      destruct (IH _ Hnd H) as (Hv & new & Hp & Hall & Hnew).
      split; [exact Hv |]. exists new. split; [exact Hp |]. split.
      * intros id u [Heq | Hin]; [| auto].
        inversion Heq; subst i u0. exists ch. unfold assigned_entry. rewrite Htry. simpl.
        split; [exact Hch |]. split; [congruence | discriminate].
      * intros r Hin. destruct (Hnew r Hin) as (Hr & id & u & m & Hin' & Hm & Hm').
        split; [exact Hr |]. exists id, u, m. auto.
Qed.

(** What a batch that went through did with each of its entries. *)
Lemma AssignPChannels_entries pf updates cm cm' :
  List.NoDup (List.map fst updates) ->
  AssignPChannels pf updates cm = (None, cm') ->
  forall id u, In (id, u) updates ->
    exists m m', channels cm !! id = Some m /\ channels cm' !! id = Some m'
      /\ matches u m'
      /\ (m' = m /\ State m = PCHANNEL_META_STATE_ASSIGNED
          \/ State m' = PCHANNEL_META_STATE_ASSIGNING
             /\ Term (Channel m') = Int64.wrap (Term (Channel m) + 1)
             /\ In m' (persisted cm')).
Proof.
  intros Hnd H. unfold AssignPChannels in H.
  destruct (AssignPChannels_range pf updates cm) as [[e |] cm1] eqn:Hrange; [discriminate |].
  inversion H; subst cm'. clear H. simpl.
  destruct (AssignPChannels_range_success pf updates cm cm1 Hnd Hrange)
    as (Hv & new & Hp & Hall & Hnew).
  intros id u Hin. destruct (Hall id u Hin) as (m & Hm & Hm' & Hc).
  exists m, (snd (assigned_entry u m)). split; [exact Hm |]. split; [exact Hm' |].
  unfold assigned_entry in *.
  destruct (TryAssignToServerID_cases (AccessMode_ (AssignedChannel u)) (AssignedNode u) m)
    as [(Heq & Hmode & Hnode & Hst) | (mch & Heq & Hmode & Hnode & Hst & _)];
    rewrite Heq in *; simpl in *.
  - split; [split; assumption |]. left. auto.
  - split; [split; assumption |]. right. split; [exact Hst |]. split.
    + unfold TryAssignToServerID in Heq.
      destruct (_ && _); [discriminate |]. inversion Heq; subst mch. reflexivity.
    + rewrite Hp. apply in_or_app. right. apply Hc. reflexivity.
Qed.

(** X12.  When [AssignPChannels] returns without an error, on a batch with one
    entry per channel: every channel of the batch has the mode and the node of
    its entry; it is either unchanged (it was assigned) or in state assigning
    with its term one higher and its record persisted; every other channel is
    unchanged; the records persisted by the call are current records of
    channels of the batch; and the local version is one higher. *)
Theorem AssignPChannels_success :
  forall (persistFails : PChannelMeta -> bool)
         (updates : list (ChannelID * PChannelInfoAssigned)) (cm cm' : ChannelManager),
    List.NoDup (List.map fst updates) ->
    AssignPChannels persistFails updates cm = (None, cm') ->
    (forall id u, In (id, u) updates ->
       exists m m', channels cm !! id = Some m /\ channels cm' !! id = Some m'
         /\ matches u m'
         /\ (m' = m /\ State m = PCHANNEL_META_STATE_ASSIGNED
             \/ State m' = PCHANNEL_META_STATE_ASSIGNING
                /\ Term (Channel m') = Int64.wrap (Term (Channel m) + 1)
                /\ In m' (persisted cm')))
    /\ (forall id, ~ In id (List.map fst updates) -> channels cm' !! id = channels cm !! id)
    /\ (exists new, persisted cm' = persisted cm ++ new
          /\ forall r, In r new ->
               exists id, In id (List.map fst updates) /\ channels cm' !! id = Some r)
    /\ version cm' = mkVersion (Global (version cm)) (Int64.wrap (Local (version cm) + 1)).
Proof.
  intros pf updates cm cm' Hnd H.
  split; [exact (AssignPChannels_entries pf updates cm cm' Hnd H) |].
  unfold AssignPChannels in H.
  destruct (AssignPChannels_range pf updates cm) as [[e |] cm1] eqn:Hrange; [discriminate |].
  inversion H; subst cm'. clear H. simpl.
  destruct (AssignPChannels_range_success pf updates cm cm1 Hnd Hrange)
    as (Hv & new & Hp & Hall & Hnew).
  split; [| split].
  - intros id Hnin. eapply AssignPChannels_range_other; eauto.
  - exists new. split; [exact Hp |]. intros r Hin.
    destruct (Hnew r Hin) as (_ & id & u & m & Hin' & Hm & Htry).
    exists id. split; [apply in_map_iff; exists (id, u); auto |].
    destruct (Hall id u Hin') as (m0 & Hm0 & Hm0' & _).
    rewrite Hm in Hm0. inversion Hm0; subst m0. rewrite Htry in Hm0'. exact Hm0'.
  - rewrite Hv. reflexivity.
Qed.

Lemma AssignPChannels_success_witness :
  match AssignPChannels Examples.never_fails Examples.batch1 Examples.manager1 with
  | (None, cm') =>
      exists new, persisted cm' = persisted Examples.manager1 ++ new
        /\ forall r, In r new ->
             exists id, In id (List.map fst Examples.batch1) /\ channels cm' !! id = Some r
  | (Some _, _) => False
  end.
Proof.
  destruct (AssignPChannels Examples.never_fails Examples.batch1 Examples.manager1)
    as [[e |] cm'] eqn:H.
  - vm_compute in H. discriminate.
  - assert (Hnd : List.NoDup (List.map fst Examples.batch1)).
    { repeat constructor. intros []. }
    exact (proj1 (proj2 (proj2
             (AssignPChannels_success Examples.never_fails Examples.batch1 Examples.manager1
                cm' Hnd H)))).
Defined.

(** The loop of [AssignPChannels] when it stops at an error. *)
Lemma AssignPChannels_range_failure pf updates cm e cm' :
  AssignPChannels_range pf updates cm = (Some e, cm') ->
  version cm' = version cm
  /\ (exists new, persisted cm' = persisted cm ++ new /\ Forall (fun r => pf r = false) new)
  /\ match e with
     | ErrChannelNotExist =>
         exists id, In id (List.map fst updates) /\ channels cm' !! id = None
     | ErrPersist =>
         exists id m', In id (List.map fst updates)
                       /\ channels cm' !! id = Some m'
                       /\ State m' = PCHANNEL_META_STATE_ASSIGNING
                       /\ pf m' = true
     end.
Proof.
  revert cm. induction updates as [| [i u] rest IH]; intros cm H; simpl in *; [discriminate |].
  destruct (channels cm !! i) as [ch |] eqn:Hch.
  - destruct (TryAssignToServerID_cases (AccessMode_ (AssignedChannel u)) (AssignedNode u) ch)
      as [(Heq & _) | (mch & Heq & _ & _ & Hst & _)]; rewrite Heq in H.
    + destruct (IH _ H) as (Hv & Hp & He). split; [exact Hv |]. split; [exact Hp |].
      destruct e.
      * destruct He as (id & Hin & Hid). exists id. auto.
      * destruct He as (id & m' & Hin & Hid). exists id, m'. tauto.
    + unfold persistAssignment in H. destruct (pf mch) eqn:Hpf.
      * inversion H; subst e cm'. simpl. split; [reflexivity |]. split.
        { exists []. rewrite app_nil_r. split; [reflexivity | constructor]. }
        exists i, mch. rewrite lookup_insert_eq. auto.
      * destruct (IH _ H) as (Hv & (new & Hp & HF) & He). simpl in *.
        split; [exact Hv |]. split.
        { exists (mch :: new). rewrite Hp, <- app_assoc. split; [reflexivity |].
          constructor; assumption. }
        destruct e.
        { destruct He as (id & Hin & Hid). exists id. auto. }
        { destruct He as (id & m' & Hin & Hid). exists id, m'. tauto. }
  - inversion H; subst e cm'. split; [reflexivity |]. split.
    + exists []. rewrite app_nil_r. split; [reflexivity | constructor].
    + exists i. auto.
Qed.

(** X13.  When [AssignPChannels] returns an error, the version is not incremented
    and every record the call persisted was saved.  [ErrChannelNotExist]
    means a channel of the batch is missing from the manager.  After a failed
    save the manager holds, for some channel of the batch, a record in state
    assigning that is not among the records the call persisted: memory is
    ahead of the catalog. *)
Theorem AssignPChannels_failure :
  forall (persistFails : PChannelMeta -> bool)
         (updates : list (ChannelID * PChannelInfoAssigned)) (cm cm' : ChannelManager)
         (e : AssignError),
    AssignPChannels persistFails updates cm = (Some e, cm') ->
    version cm' = version cm
    /\ (exists new, persisted cm' = persisted cm ++ new
                    /\ forall r, In r new -> persistFails r = false)
    /\ (e = ErrChannelNotExist ->
        exists id, In id (List.map fst updates) /\ channels cm !! id = None)
    /\ (e = ErrPersist ->
        exists id m', In id (List.map fst updates)
                      /\ channels cm' !! id = Some m'
                      /\ State m' = PCHANNEL_META_STATE_ASSIGNING
                      /\ persistFails m' = true
                      /\ forall new, persisted cm' = persisted cm ++ new -> ~ In m' new).
Proof.
  intros pf updates cm cm' e H. unfold AssignPChannels in H.
  destruct (AssignPChannels_range pf updates cm) as [[e1 |] cm1] eqn:Hrange; [| discriminate].
  inversion H; subst e1 cm1. clear H.
  destruct (AssignPChannels_range_failure pf updates cm e cm' Hrange)
    as (Hv & (new & Hp & HF) & He).
  rewrite List.Forall_forall in HF.
  split; [exact Hv |]. split; [exists new; auto |]. split.
  - intros ->. destruct He as (id & Hin & Hid). exists id. split; [exact Hin |].
    destruct (channels cm !! id) as [m |] eqn:Hm; [| reflexivity].
    assert (Hs : is_Some (channels cm' !! id)).
    { apply (AssignPChannels_range_keys pf updates cm (Some ErrChannelNotExist) cm' id Hrange).
      eauto. }
    rewrite Hid in Hs. destruct Hs. discriminate.
  - intros ->. destruct He as (id & m' & Hin & Hid & Hst & Hpf).
    exists id, m'. repeat split; auto.
    intros new' Hp' Hbad. rewrite Hp in Hp'. apply app_inv_head in Hp'. subst new'.
    apply HF in Hbad. congruence.
Qed.

Lemma AssignPChannels_failure_witness :
  match AssignPChannels Examples.always_fails Examples.batch1 Examples.manager1 with
  | (Some e, cm') =>
      e = ErrPersist
      /\ version cm' = version Examples.manager1
      /\ exists id m', In id (List.map fst Examples.batch1)
           /\ channels cm' !! id = Some m'
           /\ State m' = PCHANNEL_META_STATE_ASSIGNING
           /\ Examples.always_fails m' = true
           /\ forall new, persisted cm' = persisted Examples.manager1 ++ new -> ~ In m' new
  | (None, _) => False
  end.
Proof.
  destruct (AssignPChannels Examples.always_fails Examples.batch1 Examples.manager1)
    as [[e |] cm'] eqn:H.
  - assert (He : e = ErrPersist) by (vm_compute in H; congruence).
    destruct (AssignPChannels_failure Examples.always_fails Examples.batch1 Examples.manager1
                cm' e H) as (Hv & _ & _ & Hp).
    split; [exact He |]. split; [exact Hv |]. exact (Hp He).
  - vm_compute in H. discriminate.
Defined.

Lemma wrap_succ_ne (t : Z) : Int64.wrap (t + 1) <> t.
Proof.
  unfold Int64.wrap. intros H.
  pose proof (Z.div_mod (t + 1 + 2 ^ 63) (2 ^ 64) ltac:(lia)) as Hd.
  lia.
Qed.

(** X14.  After a successful [AssignPChannels], [FindPChannelNodeLocation] on a
    channel of the batch either finds the node of the entry (the channel was
    already assigned to it and is unchanged) or finds nothing (the channel was
    reassigned and waits for its confirmation); once [AssignToServerDone] ran
    on the channel it finds the node of the entry. *)
Theorem location_after_assignment :
  forall (persistFails : PChannelMeta -> bool)
         (updates : list (ChannelID * PChannelInfoAssigned)) (cm cm1 : ChannelManager)
         (id : ChannelID) (u : PChannelInfoAssigned) (nowSeconds : Z),
    List.NoDup (List.map fst updates) ->
    AssignPChannels persistFails updates cm = (None, cm1) ->
    In (id, u) updates ->
    (FindPChannelNodeLocation id cm1 = (ServerID (AssignedNode u), true)
       /\ channels cm1 !! id = channels cm !! id
     \/ FindPChannelNodeLocation id cm1 = (-1, false)
        /\ channels cm1 !! id <> channels cm !! id)
    /\ forall m1, channels cm1 !! id = Some m1 ->
         FindPChannelNodeLocation id
           (mkManager (<[id := AssignToServerDone nowSeconds m1]> (channels cm1))
                      (version cm1) (persisted cm1))
         = (ServerID (AssignedNode u), true).
Proof.
  intros pf updates cm cm1 id u now Hnd H Hin.
  destruct (AssignPChannels_entries pf updates cm cm1 Hnd H id u Hin) as (m & m' & Hm & Hm' & [Hmode Hnode] & Hcase).
  unfold FindPChannelNodeLocation, IsAssigned. split.
  - rewrite Hm'. destruct Hcase as [[-> Hst] | (Hst & Hterm & _)].
    + left. rewrite Hst, bool_decide_eq_true_2 by reflexivity. rewrite Hnode, Hm. auto.
    + right. rewrite Hst. rewrite bool_decide_eq_false_2 by discriminate.
      split; [reflexivity |]. rewrite Hm. intros Heq. inversion Heq; subst m'.
      exact (wrap_succ_ne _ (eq_sym Hterm)).
  - intros m1 Hm1. rewrite Hm' in Hm1. inversion Hm1; subst m1. simpl.
    rewrite lookup_insert_eq. unfold AssignToServerDone.
    destruct Hcase as [[-> Hst] | (Hst & _)]; rewrite Hst; simpl.
    + rewrite Hst. rewrite bool_decide_eq_true_2 by reflexivity. rewrite Hnode. reflexivity.
    + unfold CurrentServerID in *. simpl. rewrite Hnode. reflexivity.
Qed.

Lemma location_after_assignment_witness :
  match AssignPChannels Examples.never_fails Examples.batch1 Examples.manager1 with
  | (None, cm1) =>
      forall m1, channels cm1 !! "c1"%string = Some m1 ->
        FindPChannelNodeLocation "c1"
          (mkManager (<["c1"%string := AssignToServerDone 5 m1]> (channels cm1))
                     (version cm1) (persisted cm1))
        = (ServerID Examples.node1, true)
  | (Some _, _) => False
  end.
Proof.
  destruct (AssignPChannels Examples.never_fails Examples.batch1 Examples.manager1)
    as [[e |] cm1] eqn:H.
  - vm_compute in H. discriminate.
  - assert (Hnd : List.NoDup (List.map fst Examples.batch1)).
    { repeat constructor. intros []. }
    exact (proj2 (location_after_assignment Examples.never_fails Examples.batch1
                    Examples.manager1 cm1 "c1"%string
                    (mkAssigned (mkPChannelInfo "c1" 0 AccessMode_RW) Examples.node1) 5
                    Hnd H (or_introl eq_refl))).
Defined.


(** *** Recovery *)

Lemma recoverFromMeta_fold_lookup (metas : list PChannelMeta)
    (acc : gmap ChannelID PChannelMeta) (id : ChannelID) :
  (~ In id (List.map ChannelID_of metas) ->
   fold_left (fun channels c => <[ChannelID_of c := c]> channels) metas acc !! id = acc !! id)
  /\ (forall m, List.NoDup (List.map ChannelID_of metas) -> In m metas -> ChannelID_of m = id ->
      fold_left (fun channels c => <[ChannelID_of c := c]> channels) metas acc !! id = Some m).
Proof.
  revert acc. induction metas as [| c metas IH]; intros acc; simpl.
  - split; [reflexivity | intros m _ []].
  - destruct (IH (<[ChannelID_of c := c]> acc)) as [IH1 IH2]. split.
    + intros Hnin. rewrite IH1 by tauto. apply lookup_insert_ne. tauto.
    + intros m Hnd [-> | Hin] Hid.
      * apply List.NoDup_cons_iff in Hnd as [Hfresh _].
        rewrite IH1 by (rewrite <- Hid; exact Hfresh). rewrite Hid. apply lookup_insert_eq.
      * apply List.NoDup_cons_iff in Hnd as [_ Hnd]. auto.
Qed.

Section RecoverProps.
Context (newPChannelMeta : string -> AccessMode -> PChannelMeta).
Context (Hname : forall name mode, ChannelID_of (newPChannelMeta name mode) = name).

Lemma recoverFromConfiguration_lookup sv (incoming : list string)
    (chs : gmap ChannelID PChannelMeta) (id : ChannelID) :
  recoverFromConfiguration newPChannelMeta sv incoming chs !! id
  = match chs !! id with
    | Some m => Some m
    | None => if bool_decide (id ∈ incoming)
              then Some (newPChannelMeta id (recovered_mode sv)) else None
    end.
Proof.
  unfold recoverFromConfiguration. revert chs.
  induction incoming as [| n incoming IH]; intros chs; cbn [fold_left].
  - destruct (chs !! id); [reflexivity |].
    rewrite bool_decide_eq_false_2 by apply not_elem_of_nil. reflexivity.
  - assert (Hc : match sv with
                 | None => newPChannelMeta n AccessMode_RO
                 | Some _ => newPChannelMeta n AccessMode_RW
                 end = newPChannelMeta n (recovered_mode sv)) by (destruct sv; reflexivity).
    rewrite Hc, Hname.
    destruct (chs !! n) as [x |] eqn:Hn.
    + rewrite IH. destruct (chs !! id) as [m |] eqn:Hid; [reflexivity |].
      destruct (decide (n = id)) as [-> | Hne]; [congruence |].
      rewrite (bool_decide_ext (id ∈ n :: incoming) (id ∈ incoming)); [reflexivity |].
      rewrite elem_of_cons. split; [intros [? | ?]; [congruence | assumption] | auto].
    + rewrite IH. destruct (decide (n = id)) as [-> | Hne].
      * rewrite lookup_insert_eq, Hn. rewrite bool_decide_eq_true_2 by (apply elem_of_cons; left; reflexivity).
        reflexivity.
      * rewrite lookup_insert_ne by exact Hne. destruct (chs !! id); [reflexivity |].
        rewrite (bool_decide_ext (id ∈ n :: incoming) (id ∈ incoming)); [reflexivity |].
        rewrite elem_of_cons. split; [intros [? | ?]; [congruence | assumption] | auto].
Qed.

End RecoverProps.

(** X15.  [recoverFromConfigurationAndMeta], when the catalog lists the channels
    (with different names): every record of the catalog is recovered as it
    is, also when the configuration names its channel; a channel of the
    configuration that the catalog does not have is created, read-only when
    there is no streaming version and read-write otherwise; and nothing else
    is recovered. *)
Theorem recovery_prefers_meta :
  forall (newPChannelMeta : string -> AccessMode -> PChannelMeta)
         (channelMetas : list PChannelMeta) (streamingVersion : option Z)
         (incomingChannel : list string),
    (forall name mode, ChannelID_of (newPChannelMeta name mode) = name) ->
    List.NoDup (List.map ChannelID_of channelMetas) ->
    exists channels,
      recoverFromConfigurationAndMeta newPChannelMeta (Some channelMetas) streamingVersion
        incomingChannel = Some channels
      /\ (forall m, In m channelMetas -> channels !! ChannelID_of m = Some m)
      /\ (forall name, In name incomingChannel ->
            ~ In name (List.map ChannelID_of channelMetas) ->
            channels !! name = Some (newPChannelMeta name (recovered_mode streamingVersion)))
      /\ (forall id, is_Some (channels !! id) ->
            In id (List.map ChannelID_of channelMetas) \/ In id incomingChannel).
Proof.
  intros new metas sv incoming Hname Hnd. eexists. split; [reflexivity |].
  split; [| split].
  - intros m Hin. rewrite (recoverFromConfiguration_lookup new Hname).
    unfold recoverFromMeta.
    rewrite (proj2 (recoverFromMeta_fold_lookup metas ∅ (ChannelID_of m)) m Hnd Hin eq_refl).
    reflexivity.
  - intros name Hin Hnin. rewrite (recoverFromConfiguration_lookup new Hname).
    unfold recoverFromMeta.
    rewrite (proj1 (recoverFromMeta_fold_lookup metas ∅ name) Hnin), lookup_empty.
    rewrite bool_decide_eq_true_2 by (apply list_elem_of_In; exact Hin). reflexivity.
  - intros id [x Hx]. rewrite (recoverFromConfiguration_lookup new Hname) in Hx.
    destruct (in_dec string_dec id (List.map ChannelID_of metas)) as [Hin | Hnin]; [auto |].
    unfold recoverFromMeta in Hx.
    rewrite (proj1 (recoverFromMeta_fold_lookup metas ∅ id) Hnin), lookup_empty in Hx.
    case_bool_decide as Hel; [right; apply list_elem_of_In, Hel | discriminate].
Qed.

Lemma recovery_prefers_meta_witness :
  exists channels,
    recoverFromConfigurationAndMeta Examples.new_channel (Some [Examples.chan_c1]) (Some 1)
      ["c1"; "c2"]%string = Some channels
    /\ (forall m, In m [Examples.chan_c1] -> channels !! ChannelID_of m = Some m)
    /\ (forall name, In name ["c1"; "c2"]%string ->
          ~ In name (List.map ChannelID_of [Examples.chan_c1]) ->
          channels !! name = Some (Examples.new_channel name (recovered_mode (Some 1))))
    /\ (forall id, is_Some (channels !! id) ->
          In id (List.map ChannelID_of [Examples.chan_c1]) \/ In id ["c1"; "c2"]%string).
Proof.
  apply (recovery_prefers_meta Examples.new_channel [Examples.chan_c1] (Some 1)
           ["c1"; "c2"]%string).
  - intros name mode. reflexivity.
  - repeat constructor. intros [].
Defined.


(** *** The streaming-enabled notifiers *)

Lemma enable_ops_account ops cm :
  Permutation (cancelCalls cm ++ streamingEnableNotifiers cm ++ registered ops)
              (cancelCalls (fold_left enable_op ops cm)
               ++ streamingEnableNotifiers (fold_left enable_op ops cm)).
Proof.
  revert cm. induction ops as [| op ops IH]; intros cm; simpl.
  - unfold registered. simpl. rewrite app_nil_r. reflexivity.
  - rewrite <- IH. destruct op as [n | saved]; simpl.
    + unfold RegisterStreamingEnabledNotifier, registered. simpl.
      fold (registered ops).
      destruct (streamingVersion cm); simpl.
      * rewrite <- !app_assoc. apply Permutation_app_head. simpl.
        symmetry. apply Permutation_middle.
      * rewrite <- !app_assoc. reflexivity.
    + unfold MarkStreamingHasEnabled, registered. simpl. fold (registered ops).
      destruct saved; simpl.
      * rewrite <- !app_assoc. reflexivity.
      * reflexivity.
Qed.

Lemma enable_ops_enabled ops cm :
  streamingVersion cm <> None -> streamingEnableNotifiers cm = [] ->
  streamingVersion (fold_left enable_op ops cm) <> None
  /\ streamingEnableNotifiers (fold_left enable_op ops cm) = [].
Proof.
  revert cm. induction ops as [| op ops IH]; intros cm Hv Hw; simpl; [auto |].
  apply IH; destruct op as [n | saved]; simpl.
  - unfold RegisterStreamingEnabledNotifier.
    destruct (streamingVersion cm) eqn:Hsv; [simpl; congruence | contradiction].
  - unfold MarkStreamingHasEnabled. destruct saved; simpl; discriminate.
  - unfold RegisterStreamingEnabledNotifier.
    destruct (streamingVersion cm) eqn:Hsv; [simpl; exact Hw | contradiction].
  - unfold MarkStreamingHasEnabled. destruct saved; simpl; [reflexivity | exact Hw].
Qed.

Lemma enable_ops_marked ops cm :
  In (OpMark true) ops -> streamingEnableNotifiers (fold_left enable_op ops cm) = [].
Proof.
  revert cm. induction ops as [| op ops IH]; intros cm Hin; [destruct Hin |].
  simpl. destruct Hin as [-> | Hin]; [| apply IH, Hin].
  apply enable_ops_enabled; simpl; [discriminate | reflexivity].
Qed.

(** X16.  Starting from a manager without a streaming version, after any sequence
    of [RegisterStreamingEnabledNotifier] and [MarkStreamingHasEnabled]: every
    registered notifier has been cancelled exactly once or still waits, never
    both; once a mark has saved the version no notifier waits.  A mark whose
    save fails saves nothing and notifies nobody, yet a notifier registered
    after it is cancelled at once. *)
Theorem streaming_enabled_notifiers :
  forall (ops : list EnableOp),
    let cm := fold_left enable_op ops fresh_enable in
    Permutation (registered ops) (cancelCalls cm ++ streamingEnableNotifiers cm)
    /\ (In (OpMark true) ops ->
        streamingEnableNotifiers cm = [] /\ Permutation (registered ops) (cancelCalls cm))
    /\ (forall (cm0 : StreamingEnable) (notifier : Z),
          let cm1 := snd (MarkStreamingHasEnabled false cm0) in
          savedVersions cm1 = savedVersions cm0
          /\ streamingEnableNotifiers (RegisterStreamingEnabledNotifier notifier cm1)
             = streamingEnableNotifiers cm0
          /\ cancelCalls (RegisterStreamingEnabledNotifier notifier cm1)
             = cancelCalls cm0 ++ [notifier]).
Proof.
  intros ops cm.
  pose proof (enable_ops_account ops fresh_enable) as Hacc. simpl in Hacc. fold cm in Hacc.
  split; [exact Hacc |]. split.
  - intros Hin. pose proof (enable_ops_marked ops fresh_enable Hin) as Hw. fold cm in Hw.
    split; [exact Hw |]. rewrite Hw, app_nil_r in Hacc. exact Hacc.
  - intros cm0 n. simpl. auto.
Qed.


(* ===================================================================== *)
(** ** The garbage collector                                               *)
(* ===================================================================== *)

Import Gc.

(** *** Dropped segments and their compaction children *)

Lemma untouched_same {W : Type} id (s s' : State W) :
  segments s' = segments s -> actions s' = actions s -> untouched id s s'.
Proof.
  intros Hs Ha. split; [| rewrite Hs; reflexivity].
  exists []. rewrite app_nil_r. split; [exact Ha | constructor].
Qed.

Lemma untouched_refl {W : Type} id (s : State W) : untouched id s s.
Proof. apply untouched_same; reflexivity. Qed.

Lemma untouched_trans {W : Type} id (s1 s2 s3 : State W) :
  untouched id s1 s2 -> untouched id s2 s3 -> untouched id s1 s3.
Proof.
  intros [(n1 & H1 & F1) E1] [(n2 & H2 & F2) E2]. split.
  - exists (n1 ++ n2). rewrite H2, H1, app_assoc. split; [reflexivity |].
    apply Forall_app. split; assumption.
  - congruence.
Qed.

Lemma spares_ret {W A : Type} id (a : A) : spares (W := W) id (ret a).
Proof. intros s. apply untouched_refl. Qed.

Lemma spares_bind {W A B : Type} id (m : M (State W) A) (k : A -> M (State W) B) :
  spares id m -> (forall a, spares id (k a)) -> spares id (bind m k).
Proof.
  intros Hm Hk s. unfold bind. specialize (Hm s).
  destruct (m s) as [a s1]. simpl in Hm.
  eapply untouched_trans; [exact Hm | apply Hk].
Qed.

Lemma spares_call {W A : Type} id (m : M W A) : spares id (call m).
Proof.
  intros s. unfold call. destruct (m (world s)). simpl.
  apply untouched_same; reflexivity.
Qed.

Lemma spares_record {W : Type} id a :
  concerns id a = false -> spares (W := W) id (record a).
Proof.
  intros Ha s. unfold record. simpl. split; [| reflexivity].
  exists [a]. split; [reflexivity | repeat constructor; exact Ha].
Qed.

Lemma spares_getSegments {W : Type} id : spares (W := W) id getSegments.
Proof. intros s. apply untouched_refl. Qed.

Lemma concerns_other_remove id k path : k <> id -> concerns id (ActRemoveLog k path) = false.
Proof. intros H. simpl. destruct (Z.eqb_spec k id); [contradiction | reflexivity]. Qed.

Lemma concerns_other_drop id k : k <> id -> concerns id (ActDropSegment k) = false.
Proof. intros H. simpl. destruct (Z.eqb_spec k id); [contradiction | reflexivity]. Qed.

Ltac spares_step :=
  first
    [ apply spares_ret
    | apply spares_call
    | apply spares_getSegments
    | apply spares_record; first [reflexivity | apply concerns_other_remove; assumption
                                   | apply concerns_other_drop; assumption]
    | apply spares_bind; [| intros ?]
    | match goal with
      | |- spares _ (if ?b then _ else _) => destruct b
      | |- spares _ (match ?x with _ => _ end) => destruct x
      end ].

Section SegmentPass.
Context {W : Type} (E : Env W) (opt : GcOption).

Lemma removeSegment_other id k segs :
  k <> id ->
  List.filter (fun si => Z.eqb (ID si) id) (removeSegment k segs)
  = List.filter (fun si => Z.eqb (ID si) id) segs.
Proof.
  intros Hne. unfold removeSegment. induction segs as [| x segs IH]; simpl; [reflexivity |].
  destruct (Z.eqb_spec (ID x) k) as [Hk | Hk]; simpl.
  - destruct (Z.eqb_spec (ID x) id); [congruence | exact IH].
  - destruct (Z.eqb (ID x) id); [f_equal |]; exact IH.
Qed.

Lemma spares_DropSegment id k : k <> id -> spares id (DropSegment E k).
Proof.
  intros Hne. unfold DropSegment. repeat spares_step.
  intros s. split; simpl.
  - exists []. rewrite app_nil_r. split; [reflexivity | constructor].
  - apply removeSegment_other, Hne.
Qed.

Lemma spares_removeLogs_turns id k order p :
  k <> id -> spares id (removeLogs_turns E k order p).
Proof.
  intros Hne. revert p.
  induction order as [| i order IH]; intros p; simpl; [apply spares_ret |].
  apply spares_bind; [| intros p'; apply IH].
  unfold removeLogs_turn. destruct (jobs p !! i) as [[l phase] |]; [| apply spares_ret].
  unfold removeLogs_job. destruct phase; repeat spares_step.
Qed.

Lemma spares_removeLogs id k logs :
  k <> id -> spares id (removeLogs E k logs).
Proof.
  intros Hne. unfold removeLogs.
  apply spares_bind; [apply spares_call | intros order].
  apply spares_bind; [apply spares_removeLogs_turns, Hne | intros p; apply spares_ret].
Qed.

Lemma spares_checkDroppedSegmentGC id segment child idx cp :
  spares id (checkDroppedSegmentGC E opt segment child idx cp).
Proof. unfold checkDroppedSegmentGC, isExpire. repeat spares_step. Qed.

Lemma spares_clearEtcd_segment id drops compactTo idx cps k :
  (forall j x, drops !! j = Some x -> ID x = j) ->
  k <> id ->
  spares id (clearEtcd_segment E opt drops compactTo idx cps k).
Proof.
  intros Hkeys Hne. unfold clearEtcd_segment.
  destruct (drops !! k) as [segment |] eqn:Hd; [| apply spares_ret].
  assert (Hne' : ID segment <> id) by (rewrite (Hkeys _ _ Hd); exact Hne).
  apply spares_bind; [apply spares_checkDroppedSegmentGC | intros ok].
  destruct (negb ok); [apply spares_ret |].
  apply spares_bind; [apply spares_removeLogs; exact Hne' | intros removed].
  apply spares_bind.
  { destruct removed; [| apply spares_ret].
    apply spares_bind; [apply spares_DropSegment; exact Hne' | intros ?; apply spares_ret]. }
  intros _. repeat spares_step.
Qed.

(** A dropped segment whose recorded compaction child is not in the indexed
    set is passed over. *)
Lemma clearEtcd_segment_skip drops compactTo idx cps (A C : SegmentInfo) (s : State W) :
  drops !! ID A = Some A ->
  compactTo !! ID A = Some C ->
  ID C ∉ idx ->
  clearEtcd_segment E opt drops compactTo idx cps (ID A) s = (tt, s).
Proof.
  intros Hd Hc Hidx. unfold clearEtcd_segment. rewrite Hd. unfold bind.
  unfold checkDroppedSegmentGC. rewrite Hc.
  rewrite bool_decide_eq_false_2 by exact Hidx. reflexivity.
Qed.

Lemma clearEtcd_range_untouched drops compactTo idx cps (A C : SegmentInfo) dropIDs
    (s : State W) :
  (forall j x, drops !! j = Some x -> ID x = j) ->
  drops !! ID A = Some A ->
  compactTo !! ID A = Some C ->
  ID C ∉ idx ->
  untouched (ID A) s (snd (clearEtcd_range E opt drops compactTo idx cps dropIDs s)).
Proof.
  intros Hkeys Hd Hc Hidx. revert s.
  induction dropIDs as [| k rest IH]; intros s; simpl; [apply untouched_refl |].
  unfold bind.
  destruct (decide (k = ID A)) as [-> | Hne].
  - rewrite (clearEtcd_segment_skip drops compactTo idx cps A C s Hd Hc Hidx). apply IH.
  - pose proof (spares_clearEtcd_segment (ID A) drops compactTo idx cps k Hkeys Hne s) as H.
    destruct (clearEtcd_segment E opt drops compactTo idx cps k s) as [u s1]. simpl in H.
    eapply untouched_trans; [exact H | apply IH].
Qed.

Lemma collectDrops_keys all j x :
  collectDrops all !! j = Some x -> ID x = j /\ In x all /\ SegState x = Dropped.
Proof.
  unfold collectDrops.
  assert (Hgen : forall (acc : gmap UniqueID SegmentInfo),
    (forall j x, acc !! j = Some x -> ID x = j /\ In x all /\ SegState x = Dropped) ->
    forall l, (forall y, In y l -> In y all) ->
    forall j x,
      fold_left (fun drops cloned =>
                   if bool_decide (SegState cloned = Dropped)
                   then <[ID cloned := cloned]> drops else drops) l acc !! j = Some x ->
      ID x = j /\ In x all /\ SegState x = Dropped).
  { intros acc Hacc l. revert acc Hacc.
    induction l as [| y l IH]; intros acc Hacc Hl j' x' H; simpl in H; [eauto |].
    eapply IH; [| | exact H].
    - intros j2 x2 H2. case_bool_decide as Hs; [| eauto].
      destruct (decide (ID y = j2)) as [<- | Hne].
      + rewrite lookup_insert_eq in H2. inversion H2; subst.
        repeat split; auto. apply Hl. left. reflexivity.
      + rewrite lookup_insert_ne in H2 by exact Hne. eauto.
    - intros z Hz. apply Hl. right. exact Hz. }
  apply Hgen; [| auto].
  intros j2 x2 H2. rewrite lookup_empty in H2. discriminate.
Qed.

Lemma spares_channelCheckpoints id chans : spares id (channelCheckpoints E chans).
Proof. induction chans as [| c rest IH]; simpl; repeat spares_step. exact IH. Qed.

End SegmentPass.

Lemma clearEtcd_spares_unindexed {W : Type} (E : Env W) (opt : GcOption) (s : State W)
    (A C : SegmentInfo) :
  collectDrops (segments s) !! ID A = Some A ->
  collectCompactTo (segments s) !! ID A = Some C ->
  ID C ∉ indexedSetOf
           (fst (FilterInIndexedSegments E
                   (droppedCompactTo (collectDrops (segments s))
                                     (collectCompactTo (segments s)))
                   (world s))) ->
  untouched (ID A) s (snd (clearEtcd E opt s)).
Proof.
  intros Hd Hc Hidx. unfold clearEtcd, bind, getSegments.
  cbn [fst snd]. unfold call at 1.
  destruct (FilterInIndexedSegments E _ (world s)) as [indexed w1]. cbn [fst snd] in *.
  set (s1 := mkState (segments s) (actions s) w1).
  pose proof (spares_channelCheckpoints E (ID A) (elements (collectChannels (segments s))) s1)
    as H1.
  destruct (channelCheckpoints E (elements (collectChannels (segments s))) s1) as [cps s2].
  cbn [fst snd] in *.
  eapply untouched_trans; [apply (untouched_same (ID A) s s1); reflexivity |].
  eapply untouched_trans; [exact H1 |].
  eapply clearEtcd_range_untouched; eauto.
  intros j x Hx. apply collectDrops_keys in Hx. tauto.
Qed.

(** What the two maps of the pass hold. *)

Lemma compactTo_sources_lookup (c : SegmentInfo) (froms : list UniqueID)
    (acc : gmap UniqueID SegmentInfo) (id : UniqueID) :
  (In id froms ->
   fold_left (fun m from => <[from := c]> m) froms acc !! id = Some c)
  /\ (~ In id froms ->
      fold_left (fun m from => <[from := c]> m) froms acc !! id = acc !! id).
Proof.
  revert acc. induction froms as [| f froms IH]; intros acc; simpl.
  - split; [intros [] | reflexivity].
  - destruct (IH (<[f := c]> acc)) as [IH1 IH2]. split.
    + intros [-> | Hin].
      * destruct (in_dec Z.eq_dec id froms) as [Hin | Hnin]; [auto |].
        rewrite IH2 by exact Hnin. apply lookup_insert_eq.
      * auto.
    + intros Hnin. rewrite IH2 by tauto. apply lookup_insert_ne. tauto.
Qed.

Lemma collectCompactTo_fold_sound (l : list SegmentInfo) (acc : gmap UniqueID SegmentInfo)
    (id : UniqueID) (C : SegmentInfo) :
  fold_left
    (fun compactTo cloned =>
       fold_left (fun m from => <[from := cloned]> m) (CompactionFrom cloned) compactTo)
    l acc !! id = Some C ->
  (In C l /\ In id (CompactionFrom C)) \/ acc !! id = Some C.
Proof.
  revert acc. induction l as [| x l IH]; intros acc H; simpl in H; [right; exact H |].
  apply IH in H as [[Hin Hfrom] | H]; [left; split; [right |]; assumption |].
  destruct (in_dec Z.eq_dec id (CompactionFrom x)) as [Hin | Hnin].
  - rewrite (proj1 (compactTo_sources_lookup x (CompactionFrom x) acc id) Hin) in H.
    inversion H; subst. left. split; [left; reflexivity | exact Hin].
  - rewrite (proj2 (compactTo_sources_lookup x (CompactionFrom x) acc id) Hnin) in H.
    right. exact H.
Qed.

Lemma collectCompactTo_fold_some (l : list SegmentInfo) (acc : gmap UniqueID SegmentInfo)
    (id : UniqueID) :
  (is_Some (acc !! id) \/ exists C, In C l /\ In id (CompactionFrom C)) ->
  is_Some (fold_left
             (fun compactTo cloned =>
                fold_left (fun m from => <[from := cloned]> m) (CompactionFrom cloned) compactTo)
             l acc !! id).
Proof.
  revert acc. induction l as [| x l IH]; intros acc H; simpl.
  - destruct H as [H | (C & [] & _)]. exact H.
  - apply IH.
    destruct (in_dec Z.eq_dec id (CompactionFrom x)) as [Hin | Hnin].
    + left. rewrite (proj1 (compactTo_sources_lookup x (CompactionFrom x) acc id) Hin). eauto.
    + rewrite (proj2 (compactTo_sources_lookup x (CompactionFrom x) acc id) Hnin).
      destruct H as [H | (C & [-> | Hin] & Hfrom)]; [left; exact H | contradiction |].
      right. exists C. auto.
Qed.

(** The child [clearEtcd] records for an id is a segment of the listing that
    names the id among its compaction sources. *)
Lemma collectCompactTo_sound (all : list SegmentInfo) (id : UniqueID) (C : SegmentInfo) :
  collectCompactTo all !! id = Some C -> In C all /\ In id (CompactionFrom C).
Proof.
  intros H. apply collectCompactTo_fold_sound in H as [H | H]; [exact H |].
  rewrite lookup_empty in H. discriminate.
Qed.

(** When one segment only names the id, it is the child recorded. *)
Lemma collectCompactTo_only_child (all : list SegmentInfo) (id : UniqueID) (C : SegmentInfo) :
  In C all -> In id (CompactionFrom C) ->
  (forall C', In C' all -> In id (CompactionFrom C') -> C' = C) ->
  collectCompactTo all !! id = Some C.
Proof.
  intros Hin Hfrom Honly.
  destruct (collectCompactTo_fold_some all ∅ id) as [C' HC'].
  { right. exists C. auto. }
  fold (collectCompactTo all) in HC'.
  destruct (collectCompactTo_sound all id C' HC') as [Hin' Hfrom'].
  rewrite HC'. f_equal. auto.
Qed.

(** With one record per id in the meta, a dropped segment is the one the
    pass files under its id. *)
Lemma collectDrops_lookup (all : list SegmentInfo) (A : SegmentInfo) :
  List.NoDup (List.map ID all) -> In A all -> SegState A = Dropped ->
  collectDrops all !! ID A = Some A.
Proof.
  intros Hnd Hin Hd. unfold collectDrops.
  assert (Hgen : forall l (acc : gmap UniqueID SegmentInfo),
    List.NoDup (List.map ID l) ->
    (In A l \/ (acc !! ID A = Some A /\ ~ In (ID A) (List.map ID l))) ->
    fold_left (fun drops cloned =>
                 if bool_decide (SegState cloned = Dropped)
                 then <[ID cloned := cloned]> drops else drops) l acc !! ID A = Some A).
  { induction l as [| x l IH]; intros acc Hndl H; simpl.
    - destruct H as [[] | [H _]]. exact H.
    - simpl in Hndl. apply List.NoDup_cons_iff in Hndl as [Hfresh Hndl].
      apply IH; [exact Hndl |].
      destruct H as [[-> | H] | [Hacc Hnin]].
      + right. rewrite bool_decide_eq_true_2 by exact Hd.
        split; [apply lookup_insert_eq | exact Hfresh].
      + left. exact H.
      + right. simpl in Hnin. split; [| tauto].
        case_bool_decide; [| exact Hacc].
        rewrite lookup_insert_ne by tauto. exact Hacc. }
  apply Hgen; [exact Hnd | left; exact Hin].
Qed.

(** The same in terms of the meta alone: its records have pairwise different
    ids, [A] is dropped, and [C] is the one segment that names [A] among its
    compaction sources. *)
Lemma clearEtcd_spares_until_child_indexed {W : Type} (E : Env W) (opt : GcOption)
    (s : State W) (A C : SegmentInfo) :
  List.NoDup (List.map ID (segments s)) ->
  In A (segments s) -> SegState A = Dropped ->
  In C (segments s) -> In (ID A) (CompactionFrom C) ->
  (forall C', In C' (segments s) -> In (ID A) (CompactionFrom C') -> C' = C) ->
  ID C ∉ indexedSetOf
           (fst (FilterInIndexedSegments E
                   (droppedCompactTo (collectDrops (segments s))
                                     (collectCompactTo (segments s)))
                   (world s))) ->
  untouched (ID A) s (snd (clearEtcd E opt s)).
Proof.
  intros Hnd HA Hd HC Hfrom Honly Hidx.
  apply (clearEtcd_spares_unindexed E opt s A C).
  - apply collectDrops_lookup; assumption.
  - apply collectCompactTo_only_child; assumption.
  - exact Hidx.
Qed.

(** The other condition of the pass, the channel checkpoint. *)

Section Checkpoint.
Context {W : Type} (E : Env W) (opt : GcOption).

Lemma collectChannels_dropped all x :
  In x all -> SegState x = Dropped -> InsertChannel x ∈ collectChannels all.
Proof.
  intros Hin Hd. unfold collectChannels.
  assert (Hgen : forall l (acc : gset string),
    (InsertChannel x ∈ acc \/ In x l) ->
    InsertChannel x ∈ fold_left
      (fun channels cloned =>
         if bool_decide (SegState cloned = Dropped)
         then {[InsertChannel cloned]} ∪ channels else channels) l acc).
  { induction l as [| y l IH]; intros acc H; simpl.
    - destruct H as [H | []]. exact H.
    - apply IH. destruct H as [H | [-> | H]].
      + left. case_bool_decide; set_solver.
      + left. rewrite bool_decide_eq_true_2 by exact Hd. set_solver.
      + right. exact H. }
  apply Hgen. right. exact Hin.
Qed.

Lemma channelCheckpoints_lookup chans (s : State W) c :
  In c chans ->
  exists w, fst (channelCheckpoints E chans s) !! c = Some (fst (GetChannelCheckpoint E c w)).
Proof.
  revert s. induction chans as [| c0 rest IH]; intros s Hin; [destruct Hin |].
  simpl. unfold bind, call.
  destruct (GetChannelCheckpoint E c0 (world s)) as [ts w1] eqn:Hts. simpl.
  set (s1 := mkState (segments s) (actions s) w1).
  destruct (decide (c0 = c)) as [-> | Hne].
  - destruct (channelCheckpoints E rest s1) as [cps s2]. simpl.
    exists (world s). rewrite Hts. simpl. apply lookup_insert_eq.
  - destruct Hin as [Heq | Hin]; [contradiction |].
    destruct (IH s1 Hin) as [w Hw].
    destruct (channelCheckpoints E rest s1) as [cps s2]. simpl in *.
    exists w. rewrite lookup_insert_ne by exact Hne. exact Hw.
Qed.

Lemma checkDroppedSegmentGC_behind segment child idx cp (s : State W) :
  (forall w, fst (ChannelExists E (InsertChannel segment) w) = true) ->
  cp < DmlTimestamp segment ->
  fst (checkDroppedSegmentGC E opt segment child idx cp s) = false.
Proof.
  intros Hex Hcp. unfold checkDroppedSegmentGC, isExpire.
  assert (Hchan : forall s0 : State W,
    fst ((channelExists <- call (ChannelExists E (InsertChannel segment)) ;;
          if channelExists && (cp <? DmlTimestamp segment) then ret false else ret true) s0)
    = false).
  { intros s0. unfold bind, call. specialize (Hex (world s0)).
    destruct (ChannelExists E (InsertChannel segment) (world s0)) as [b w1]. simpl in *.
    subst b. destruct (Z.ltb_spec cp (DmlTimestamp segment)); [reflexivity | lia]. }
  destruct child as [c |]; simpl.
  - destruct (negb (bool_decide (ID c ∈ idx))); [reflexivity | apply Hchan].
  - destruct (Compacted segment); [apply Hchan |].
    unfold bind, ret. destruct (call (Now E) s) as [now s1]. cbn beta iota.
    match goal with |- context [negb ?b] => destruct b end; simpl;
      [apply Hchan | reflexivity].
Qed.

Lemma spares_clearEtcd_segment_rejected drops compactTo idx cps (A : SegmentInfo) :
  drops !! ID A = Some A ->
  (forall s, fst (checkDroppedSegmentGC E opt A (compactTo !! ID A) idx
                    (default 0 (cps !! InsertChannel A)) s) = false) ->
  spares (ID A) (clearEtcd_segment E opt drops compactTo idx cps (ID A)).
Proof.
  intros Hd Hrej s. unfold clearEtcd_segment. rewrite Hd. unfold bind.
  pose proof (spares_checkDroppedSegmentGC E opt (ID A) A (compactTo !! ID A) idx
                (default 0 (cps !! InsertChannel A)) s) as H.
  specialize (Hrej s).
  destruct (checkDroppedSegmentGC E opt A (compactTo !! ID A) idx
              (default 0 (cps !! InsertChannel A)) s) as [ok s1].
  simpl in *. subst ok. simpl. exact H.
Qed.

Lemma spares_clearEtcd_range drops compactTo idx cps id dropIDs :
  (forall j x, drops !! j = Some x -> ID x = j) ->
  spares id (clearEtcd_segment E opt drops compactTo idx cps id) ->
  spares id (clearEtcd_range E opt drops compactTo idx cps dropIDs).
Proof.
  intros Hkeys Hid.
  induction dropIDs as [| k rest IH]; simpl; [apply spares_ret |].
  apply spares_bind; [| intros _; exact IH].
  destruct (decide (k = id)) as [-> | Hne]; [exact Hid |].
  apply spares_clearEtcd_segment; assumption.
Qed.

(** A dropped segment whose DML position is past the checkpoint of its
    channel, while the channel exists, is passed over. *)
Lemma clearEtcd_spares_behind_checkpoint (s : State W) (A : SegmentInfo) :
  collectDrops (segments s) !! ID A = Some A ->
  (forall w, fst (ChannelExists E (InsertChannel A) w) = true) ->
  (forall w, fst (GetChannelCheckpoint E (InsertChannel A) w) < DmlTimestamp A) ->
  untouched (ID A) s (snd (clearEtcd E opt s)).
Proof.
  intros Hd Hex Hcp. unfold clearEtcd, bind, getSegments.
  cbn [fst snd]. unfold call at 1.
  destruct (FilterInIndexedSegments E _ (world s)) as [indexed w1]. cbn [fst snd] in *.
  set (s1 := mkState (segments s) (actions s) w1).
  pose proof (spares_channelCheckpoints E (ID A) (elements (collectChannels (segments s))) s1)
    as H1.
  destruct (collectDrops_keys _ _ _ Hd) as (_ & Hin & Hdropped).
  destruct (channelCheckpoints_lookup (elements (collectChannels (segments s))) s1
              (InsertChannel A)) as [w Hw].
  { apply list_elem_of_In, elem_of_elements, collectChannels_dropped; assumption. }
  destruct (channelCheckpoints E (elements (collectChannels (segments s))) s1) as [cps s2].
  cbn [fst snd] in *.
  eapply untouched_trans; [apply (untouched_same (ID A) s s1); reflexivity |].
  eapply untouched_trans; [exact H1 |].
  apply spares_clearEtcd_range.
  - intros j x Hx. apply collectDrops_keys in Hx. tauto.
  - apply spares_clearEtcd_segment_rejected; [exact Hd |].
    intros s0. apply checkDroppedSegmentGC_behind; [exact Hex |].
    rewrite Hw. simpl. apply Hcp.
Qed.

End Checkpoint.

(** C7.  The claim: a dropped segment whose compaction child is in the meta
    and not indexed loses no log file and keeps its record.  It fails when
    two segments of the meta name the dropped segment in [CompactionFrom].
    Segment 1 is dropped; segments 5 and 6 are in the meta, both compacted
    from 1; [FilterInIndexedSegments] is asked about segment 6 alone (the
    pass recorded, of the two, the one listed last) and answers that it is
    indexed; segment 5 is not indexed.  The pass removes the log of segment
    1 and drops its record. *)
Lemma C7_unindexed_child_ignored :
  let s := Examples.gc_state_two_children in
  let s' := snd (clearEtcd Examples.gc_env_indexed6 Examples.gc_option s) in
  collectDrops (segments s) !! 1 = Some Examples.seg1
  /\ In Examples.seg5 (segments s) /\ In 1 (CompactionFrom Examples.seg5)
  /\ droppedCompactTo (collectDrops (segments s)) (collectCompactTo (segments s))
     = [Examples.seg6]
  /\ fst (FilterInIndexedSegments Examples.gc_env_indexed6 [Examples.seg5; Examples.seg6] tt)
     = [Examples.seg6]
  /\ actions s' = [ActRemoveLog 1 "files/insert_log/1/a"; ActDropSegment 1]
  /\ segments s' = [Examples.seg5; Examples.seg6].
Proof.
  cbv zeta. split; [vm_compute; reflexivity |].
  split; [right; left; reflexivity |].
  split; [left; reflexivity |].
  repeat split; vm_compute; reflexivity.
Qed.

(** X25.  Let [A] be a dropped segment of the meta and [C] the segment the
    pass records as its compaction child: a segment of the meta that names
    [A] in its [CompactionFrom] ([collectCompactTo_sound]), the only
    candidate when one segment names [A] ([collectCompactTo_only_child]) and
    the last one listed when several do.  If [C] is not among the segments
    [FilterInIndexedSegments] returns, one pass of [clearEtcd] makes no
    removal of a log of [A], does not drop the record of [A], and [A] is
    still in the meta afterwards. *)
Theorem clearEtcd_spares_while_recorded_child_unindexed :
  forall (W : Type) (E : Env W) (opt : GcOption) (s : State W) (A C : SegmentInfo),
    collectDrops (segments s) !! ID A = Some A ->
    collectCompactTo (segments s) !! ID A = Some C ->
    ID C ∉ indexedSetOf
             (fst (FilterInIndexedSegments E
                     (droppedCompactTo (collectDrops (segments s))
                                       (collectCompactTo (segments s)))
                     (world s))) ->
    let s' := snd (clearEtcd E opt s) in
    (exists new, actions s' = actions s ++ new
                 /\ (forall path, ~ In (ActRemoveLog (ID A) path) new)
                 /\ ~ In (ActDropSegment (ID A)) new)
    /\ In A (segments s').
Proof.
  intros W E opt s A C Hd Hc Hidx s'.
  destruct (clearEtcd_spares_unindexed E opt s A C Hd Hc Hidx) as [(new & Hact & Hnew) Hseg].
  fold s' in Hact, Hseg. rewrite List.Forall_forall in Hnew. split.
  - exists new. split; [exact Hact |]. split.
    + intros path Hin. apply Hnew in Hin. simpl in Hin. rewrite Z.eqb_refl in Hin. discriminate.
    + intros Hin. apply Hnew in Hin. simpl in Hin. rewrite Z.eqb_refl in Hin. discriminate.
  - apply collectDrops_keys in Hd as (_ & Hin & _).
    assert (HinF : In A (List.filter (fun si => Z.eqb (ID si) (ID A)) (segments s))).
    { apply filter_In. split; [exact Hin | apply Z.eqb_refl]. }
    rewrite <- Hseg in HinF. apply filter_In in HinF. tauto.
Qed.

Lemma clearEtcd_spares_while_recorded_child_unindexed_witness :
  (exists new,
      actions (snd (clearEtcd Examples.gc_env Examples.gc_option Examples.gc_state))
      = actions Examples.gc_state ++ new
      /\ (forall path, ~ In (ActRemoveLog (ID Examples.seg1) path) new)
      /\ ~ In (ActDropSegment (ID Examples.seg1)) new)
  /\ In Examples.seg1
        (segments (snd (clearEtcd Examples.gc_env Examples.gc_option Examples.gc_state))).
Proof.
  apply (clearEtcd_spares_while_recorded_child_unindexed unit Examples.gc_env Examples.gc_option
           Examples.gc_state Examples.seg1 Examples.seg3).
  - vm_compute. reflexivity.
  - vm_compute. reflexivity.
  - apply not_elem_of_empty.
Defined.

(** The two passes of the scenario.  While segment 3 is not indexed, the pass
    does nothing at all; once it is, the pass removes the logs of segments 1
    and 2 and drops their records. *)
Lemma clearEtcd_scenario :
  actions (snd (clearEtcd Examples.gc_env Examples.gc_option Examples.gc_state)) = []
  /\ segments (snd (clearEtcd Examples.gc_env Examples.gc_option Examples.gc_state))
     = [Examples.seg1; Examples.seg2; Examples.seg3]
  /\ actions (snd (clearEtcd Examples.gc_env_indexed Examples.gc_option Examples.gc_state))
     = [ ActRemoveLog 1 "files/insert_log/1/a"; ActDropSegment 1;
         ActRemoveLog 2 "files/insert_log/2/a"; ActDropSegment 2 ]
  /\ segments (snd (clearEtcd Examples.gc_env_indexed Examples.gc_option Examples.gc_state))
     = [Examples.seg3].
Proof. vm_compute. repeat split; reflexivity. Qed.

(** *** The scan of the log prefixes *)

Section ScanPass.
Context {W : Type} (E : Env W) (opt : GcOption).

Lemma checker_false segs segmentID objectPath prefix :
  checker E segs segmentID objectPath prefix = false ->
  unreferenced E segs (mkRemoval prefix (mkHolder objectPath 0 false) 0 segmentID).
Proof.
  unfold checker, GetSegments, unreferenced. simpl.
  destruct (GetSegment segmentID segs) as [info |]; [| auto].
  destruct (strings_Contains prefix (SegmentInsertLogPath E)); [discriminate |].
  destruct (strings_Contains prefix (SegmentStatslogPath E)).
  - destruct (referenced objectPath (Statslogs info)); [discriminate | auto].
  - destruct (strings_Contains prefix (SegmentDeltaLogPath E)); [| discriminate].
    destruct (referenced objectPath (Deltalogs info)); [discriminate | auto].
Qed.

Lemma scan_object_inv s0 prefix st o s :
  scan_inv E opt s0 st s ->
  scan_inv E opt s0 (fst (scan_object E opt prefix st o s)) (snd (scan_object E opt prefix st o s)).
Proof.
  intros (Hseg & Hkeys & Hact & Hall). unfold scan_object.
  destruct (Err o) eqn:Herr; [simpl; repeat split; assumption |].
  unfold bind, call. destruct (Now E (world s)) as [now w1]. simpl.
  destruct (Z.leb_spec (GoTime.Since now (ModTime o)) (missingTolerance opt)) as [Hyoung | Hold];
    [simpl; repeat split; assumption |].
  destruct (ParseSegmentIDByBinlog E (RootPath E) (Path o)) as [segmentID |] eqn:Hparse;
    [| simpl; repeat split; assumption].
  unfold getSegments. simpl.
  destruct (checker E (segments s) segmentID (Path o) prefix) eqn:Hchk;
    [simpl; repeat split; assumption |].
  unfold record. simpl.
  destruct (Remove E (Path o) w1) as [r w2]. simpl.
  assert (Hnew : removal_justified E opt (segments s0) (mkRemoval prefix o now segmentID)).
  { repeat split; simpl; auto.
    rewrite Hseg in Hchk. apply checker_false in Hchk.
    unfold unreferenced in *. simpl in *. exact Hchk. }
  destruct r; unfold scan_inv, ret; cbn [fst snd segments actions removedKeys removals];
    (split; [exact Hseg |];
     split; [rewrite List.map_app, Hkeys; reflexivity |];
     split; [rewrite Hact, List.map_app, app_assoc; reflexivity |];
     apply Forall_app; split; [exact Hall | constructor; [exact Hnew | constructor]]).
Qed.

Lemma scan_objects_inv s0 prefix l st s :
  scan_inv E opt s0 st s ->
  scan_inv E opt s0 (fst (scan_objects E opt prefix st l s))
                    (snd (scan_objects E opt prefix st l s)).
Proof.
  revert st s. induction l as [| o l IH]; intros st s Hinv; simpl; [exact Hinv |].
  unfold bind.
  pose proof (scan_object_inv s0 prefix st o s Hinv) as H.
  destruct (scan_object E opt prefix st o s) as [st1 s1]. simpl in H. apply IH, H.
Qed.

Lemma scan_prefixes_inv s0 prefixes st s :
  scan_inv E opt s0 st s ->
  scan_inv E opt s0 (fst (scan_prefixes E opt st prefixes s))
                    (snd (scan_prefixes E opt st prefixes s)).
Proof.
  revert st s. induction prefixes as [| prefix rest IH]; intros st s Hinv; simpl; [exact Hinv |].
  unfold bind, call. destruct (ListWithPrefix E prefix true (world s)) as [l w1]. simpl.
  set (s1 := mkState (segments s) (actions s) w1).
  assert (H1 : scan_inv E opt s0 st s1).
  { destruct Hinv as (H1 & H2 & H3 & H4). repeat split; assumption. }
  pose proof (scan_objects_inv s0 prefix l st s1 H1) as H.
  destruct (scan_objects E opt prefix st l s1) as [st2 s2]. simpl in H. apply IH, H.
Qed.

End ScanPass.

(** C8.  Every [Remove] that [scan] calls is for an object that was listed
    without error, whose time since its last modification, when the scan
    looked at it, was above the missing tolerance, whose key parsed to a
    segment id, and for which the meta did not vouch: the segment is not in
    the meta, or the object was listed under the stats-log or delta-log
    prefix and the segment's logs of that kind do not name its path.  The
    scan leaves the meta as it is. *)
Theorem C8_scan_removes_old_unreferenced :
  forall (W : Type) (E : Env W) (opt : GcOption) (s : State W),
    let st := fst (scan E opt s) in
    let s' := snd (scan E opt s) in
    actions s' = actions s ++ List.map ActScanRemove (removedKeys st)
    /\ removedKeys st = List.map (fun x => Path (rObject x)) (removals st)
    /\ segments s' = segments s
    /\ forall x, In x (removals st) ->
         Err (rObject x) = false
         /\ missingTolerance opt < GoTime.Since (rNow x) (ModTime (rObject x))
         /\ ParseSegmentIDByBinlog E (RootPath E) (Path (rObject x)) = Some (rSegmentID x)
         /\ unreferenced E (segments s) x.
Proof.
  intros W E opt s st s'. subst st s'. unfold scan.
  destruct (scan_prefixes_inv E opt s (scan_prefix_list E) (mkScanStats 0 0 0 [] []) s)
    as (H1 & H2 & H3 & H4).
  { repeat split; simpl; auto. rewrite app_nil_r. reflexivity. }
  repeat split; auto.
  all: rewrite List.Forall_forall in H4; apply H4 in H; destruct H as (Ha & Hb & Hc & Hd); auto.
Qed.

(** The scan of the scenario: of the three objects listed, only the old
    object of the unknown segment is removed. *)
Lemma scan_scenario :
  removedKeys (fst (scan Examples.gc_env Examples.gc_option Examples.gc_state))
  = ["files/insert_log/9/a"%string]
  /\ actions (snd (scan Examples.gc_env Examples.gc_option Examples.gc_state))
     = [ActScanRemove "files/insert_log/9/a"].
Proof. vm_compute. split; reflexivity. Qed.

(* ===================================================================== *)
(** ** Further properties of the garbage collector                         *)
(* ===================================================================== *)

(** *** The pool of [removeLogs] *)

Section PoolSteps.
Context {W : Type} (E : Env W) (k : UniqueID).

Lemma removeLogs_turns_app order1 order2 p (s : State W) :
  removeLogs_turns E k (order1 ++ order2) p s
  = removeLogs_turns E k order2 (fst (removeLogs_turns E k order1 p s))
      (snd (removeLogs_turns E k order1 p s)).
Proof.
  revert p s. induction order1 as [| i order1 IH]; intros p s; simpl; [reflexivity |].
  rewrite !bind_run. apply IH.
Qed.

(** What a step of the job at place [i] does to the pool: the other jobs stay
    as they are, and the job itself moves on. *)
Lemma removeLogs_turn_phase i p (s : State W) :
  let p' := fst (removeLogs_turn E k i p s) in
  (forall j, j <> i -> jobs p' !! j = jobs p !! j)
  /\ (forall l phase, jobs p !! i = Some (l, phase) ->
        exists phase', jobs p' !! i = Some (l, phase')
          /\ match phase with
             | JobSubmitted => phase' <> JobSubmitted
             | _ => phase' = JobDone
             end)
  /\ (jobs p !! i = None -> p' = p).
Proof.
  unfold removeLogs_turn.
  destruct (jobs p !! i) as [[l phase] |] eqn:Hi; simpl.
  2: { repeat split; auto. intros l phase H. discriminate. }
  assert (Hlt : (i < length (jobs p))%nat) by (eapply lookup_lt_Some; eauto).
  rewrite bind_run. cbn [ret fst snd jobs].
  split; [| split].
  - intros j Hne. apply list_lookup_insert_ne. congruence.
  - intros l0 phase0 Heq. inversion Heq; subst l0 phase0.
    eexists. split; [apply list_lookup_insert_eq, Hlt |].
    unfold removeLogs_job. destruct phase; simpl.
    + destruct (cancelled p); discriminate.
    + unfold bind, record, call. simpl.
      destruct (Remove E (LogPath l) (world s)) as [[] w]; reflexivity.
    + reflexivity.
  - discriminate.
Qed.

Lemma removeLogs_turn_done i p (s : State W) j l :
  jobs p !! j = Some (l, JobDone) ->
  jobs (fst (removeLogs_turn E k i p s)) !! j = Some (l, JobDone).
Proof.
  intros Hj. destruct (removeLogs_turn_phase i p s) as (Hother & Hself & _).
  destruct (decide (j = i)) as [-> | Hne].
  - destruct (Hself l JobDone Hj) as (phase' & Hl & ->). exact Hl.
  - rewrite Hother by exact Hne. exact Hj.
Qed.

Lemma removeLogs_turns_done order p (s : State W) j l :
  jobs p !! j = Some (l, JobDone) ->
  jobs (fst (removeLogs_turns E k order p s)) !! j = Some (l, JobDone).
Proof.
  revert p s. induction order as [| i order IH]; intros p s Hj; simpl; [exact Hj |].
  rewrite bind_run. apply IH. apply removeLogs_turn_done, Hj.
Qed.

(** Two steps end a job. *)
Lemma removeLogs_two_turns i p (s : State W) l phase :
  jobs p !! i = Some (l, phase) ->
  jobs (fst (removeLogs_turns E k [i; i] p s)) !! i = Some (l, JobDone).
Proof.
  intros Hi. simpl. rewrite !bind_run. cbn [ret fst snd].
  destruct (removeLogs_turn_phase i p s) as (_ & Hself & _).
  destruct (Hself l phase Hi) as (phase1 & H1 & Hp1).
  set (r1 := removeLogs_turn E k i p s) in *.
  destruct (removeLogs_turn_phase i (fst r1) (snd r1)) as (_ & Hself2 & _).
  destruct (Hself2 l phase1 H1) as (phase2 & H2 & Hp2).
  destruct phase1.
  - destruct phase; [contradiction | discriminate | discriminate].
  - subst phase2. exact H2.
  - subst phase2. exact H2.
Qed.

Lemma removeLogs_turns_lookup order p (s : State W) j l phase :
  jobs p !! j = Some (l, phase) ->
  exists phase', jobs (fst (removeLogs_turns E k order p s)) !! j = Some (l, phase').
Proof.
  revert p s phase. induction order as [| i order IH]; intros p s phase Hj; simpl; [eauto |].
  rewrite bind_run.
  destruct (removeLogs_turn_phase i p s) as (Hother & Hself & _).
  destruct (decide (j = i)) as [-> | Hne].
  - destruct (Hself l phase Hj) as (phase' & Hl & _). eapply IH, Hl.
  - eapply IH. rewrite Hother by exact Hne. exact Hj.
Qed.

(** [w.Wait()] returns when every job has. *)
Lemma removeLogs_wait_done (places : list nat) p (s : State W) j l phase :
  In j places ->
  jobs p !! j = Some (l, phase) ->
  jobs (fst (removeLogs_turns E k (List.flat_map (fun i => [i; i]) places) p s)) !! j
  = Some (l, JobDone).
Proof.
  revert p s phase. induction places as [| i places IH]; intros p s phase Hin Hj; [destruct Hin |].
  cbn [List.flat_map]. rewrite removeLogs_turns_app.
  set (r := removeLogs_turns E k [i; i] p s).
  destruct (decide (j = i)) as [-> | Hne].
  - apply removeLogs_turns_done. apply (removeLogs_two_turns i p s l phase Hj).
  - destruct Hin as [-> | Hin]; [contradiction |].
    destruct (removeLogs_turns_lookup [i; i] p s j l phase Hj) as (phase' & Hl).
    eapply IH; [exact Hin | exact Hl].
Qed.

End PoolSteps.

Section PoolInv.
Context {W : Type} (E : Env W) (k : UniqueID) (logs : list Binlog).

Lemma map_fst_insert_same (js : list (Binlog * JobPhase)) i l phase phase' :
  js !! i = Some (l, phase) ->
  List.map fst (<[i := (l, phase')]> js) = List.map fst js.
Proof.
  revert i. induction js as [| x js IH]; intros i Hi; [reflexivity |].
  destruct i as [| i]; simpl in *.
  - inversion Hi; subst x. reflexivity.
  - f_equal. apply IH, Hi.
Qed.

Lemma pool_inv_job i l phase p :
  List.map fst (jobs p) = logs -> jobs p !! i = Some (l, phase) -> In l logs.
Proof.
  intros Hmap Hi. rewrite <- Hmap. apply in_map_iff. exists (l, phase).
  split; [reflexivity |]. apply list_elem_of_In. eapply list_elem_of_lookup_2, Hi.
Qed.

Lemma removeLogs_turn_inv i p new0 (s : State W) :
  pool_inv E k logs p new0 ->
  segments (snd (removeLogs_turn E k i p s)) = segments s
  /\ exists new1,
       actions (snd (removeLogs_turn E k i p s)) = actions s ++ new1
       /\ pool_inv E k logs (fst (removeLogs_turn E k i p s)) (new0 ++ new1).
Proof.
  intros (Hmap & Hnew & Hdone). unfold removeLogs_turn.
  destruct (jobs p !! i) as [[l phase] |] eqn:Hi.
  2: { split; [reflexivity |]. exists []. rewrite !app_nil_r.
       split; [reflexivity |]. split; [exact Hmap | split; [exact Hnew | exact Hdone]]. }
  assert (Hlt : (i < length (jobs p))%nat) by (eapply lookup_lt_Some; eauto).
  assert (Hl : In l logs) by (eapply pool_inv_job; eauto).
  rewrite bind_run. cbn [ret fst snd].
  destruct phase; simpl.
  - (* the job looks at the context *)
    split; [reflexivity |]. exists []. rewrite !app_nil_r. split; [reflexivity |].
    split; [| split]; cbn [jobs cancelled].
    + rewrite (map_fst_insert_same _ _ _ _ _ Hi). exact Hmap.
    + exact Hnew.
    + intros Hc j l' Hj. rewrite Hc in Hj.
      destruct (decide (i = j)) as [<- | Hne].
      * rewrite list_lookup_insert_eq in Hj by exact Hlt. discriminate.
      * rewrite list_lookup_insert_ne in Hj by exact Hne. exact (Hdone Hc j l' Hj).
  - (* the job calls Remove *)
    unfold bind, record, call. simpl.
    destruct (Remove E (LogPath l) (world s)) as [r w] eqn:Hr. simpl.
    assert (Hgoal :
      segments (snd (match r with
                     | RemoveFailed => ret (JobDone, true)
                     | _ => ret (JobDone, cancelled p)
                     end
                       (mkState (segments s) (actions s ++ [ActRemoveLog k (LogPath l)]) w)))
      = segments s
      /\ actions (snd (match r with
                       | RemoveFailed => ret (JobDone, true)
                       | _ => ret (JobDone, cancelled p)
                       end
                         (mkState (segments s) (actions s ++ [ActRemoveLog k (LogPath l)]) w)))
         = actions s ++ [ActRemoveLog k (LogPath l)]
      /\ fst (match r with
              | RemoveFailed => ret (JobDone, true)
              | _ => ret (JobDone, cancelled p)
              end
                (mkState (segments s) (actions s ++ [ActRemoveLog k (LogPath l)]) w))
         = (JobDone, match r with RemoveFailed => true | _ => cancelled p end)).
    { destruct r; repeat split. }
    destruct Hgoal as (Hs & Ha & Hp). rewrite Hp. cbn [fst snd].
    split; [exact Hs |]. exists [ActRemoveLog k (LogPath l)]. split; [exact Ha |].
    split; [| split]; cbn [jobs cancelled].
    + rewrite (map_fst_insert_same _ _ _ _ _ Hi). exact Hmap.
    + intros a Hin. apply in_app_or in Hin as [Hin | [<- | []]]; [auto | eauto].
    + intros Hc j l' Hj.
      assert (Hc0 : cancelled p = false /\ r <> RemoveFailed).
      { destruct r; simpl in Hc; try discriminate; split; auto; discriminate. }
      destruct Hc0 as [Hc0 Hok].
      destruct (decide (i = j)) as [<- | Hne].
      * rewrite list_lookup_insert_eq in Hj by exact Hlt. inversion Hj; subst l'.
        split; [apply in_or_app; right; left; reflexivity |].
        exists (world s). rewrite Hr. exact Hok.
      * rewrite list_lookup_insert_ne in Hj by exact Hne.
        destruct (Hdone Hc0 j l' Hj) as [Hin Hw]. split; [| exact Hw].
        apply in_or_app. left. exact Hin.
  - (* the job has returned *)
    split; [reflexivity |]. exists []. rewrite !app_nil_r. split; [reflexivity |].
    rewrite list_insert_id by exact Hi.
    destruct p as [js c]. simpl in *. split; [exact Hmap | split; [exact Hnew | exact Hdone]].
Qed.

Lemma removeLogs_turns_inv order p new0 (s : State W) :
  pool_inv E k logs p new0 ->
  segments (snd (removeLogs_turns E k order p s)) = segments s
  /\ exists new1,
       actions (snd (removeLogs_turns E k order p s)) = actions s ++ new1
       /\ pool_inv E k logs (fst (removeLogs_turns E k order p s)) (new0 ++ new1).
Proof.
  revert p new0 s. induction order as [| i order IH]; intros p new0 s Hinv; simpl.
  - split; [reflexivity |]. exists []. rewrite !app_nil_r. auto.
  - rewrite bind_run.
    destruct (removeLogs_turn_inv i p new0 s Hinv) as (Hs1 & new1 & Ha1 & Hinv1).
    destruct (IH _ _ (snd (removeLogs_turn E k i p s)) Hinv1) as (Hs2 & new2 & Ha2 & Hinv2).
    split; [congruence |]. exists (new1 ++ new2).
    rewrite Ha2, Ha1, <- app_assoc. split; [reflexivity |].
    rewrite app_assoc. exact Hinv2.
Qed.

(** [removeLogs]: it leaves the meta alone; what it does is remove logs of
    the list; and when it returns [true] it has called [Remove] on every log
    of the list and no call ended in an error that cancels. *)
Lemma removeLogs_spec (s : State W) :
  segments (snd (removeLogs E k logs s)) = segments s
  /\ exists new,
       actions (snd (removeLogs E k logs s)) = actions s ++ new
       /\ (forall a, In a new -> exists l, In l logs /\ a = ActRemoveLog k (LogPath l))
       /\ (fst (removeLogs E k logs s) = true ->
           forall l, In l logs ->
             In (ActRemoveLog k (LogPath l)) new
             /\ exists w, fst (Remove E (LogPath l) w) <> RemoveFailed).
Proof.
  unfold removeLogs. rewrite bind_run.
  set (s0 := snd (call (removeLogPool E (length logs)) s)).
  set (order := fst (call (removeLogPool E (length logs)) s)).
  assert (Hs0 : segments s0 = segments s /\ actions s0 = actions s).
  { unfold s0, call. destruct (removeLogPool E (length logs) (world s)). split; reflexivity. }
  destruct Hs0 as [Hseg0 Hact0].
  rewrite bind_run. cbn [ret fst snd].
  set (p0 := mkPool (List.map (fun l => (l, JobSubmitted)) logs) false).
  assert (Hinv0 : pool_inv E k logs p0 []).
  { split; [| split].
    - unfold p0. simpl. rewrite List.map_map. simpl. apply List.map_id.
    - intros a [].
    - intros _ i l Hi. unfold p0 in Hi. simpl in Hi.
      apply list_elem_of_lookup_2, list_elem_of_In, in_map_iff in Hi as (l0 & Heq & _).
      discriminate. }
  destruct (removeLogs_turns_inv (order ++ wait_order (length logs)) p0 [] s0 Hinv0)
    as (Hs & new & Ha & Hmap & Hnew & Hdone).
  split; [congruence |]. exists new. split; [congruence |]. split; [exact Hnew |].
  intros Hret l Hl.
  apply negb_true_iff in Hret.
  apply list_elem_of_In, list_elem_of_lookup_1 in Hl as [i Hi].
  assert (Hi0 : jobs p0 !! i = Some (l, JobSubmitted)).
  { unfold p0. simpl. rewrite list_lookup_fmap, Hi. reflexivity. }
  apply (Hdone Hret i).
  rewrite removeLogs_turns_app. unfold wait_order.
  destruct (removeLogs_turns_lookup E k order p0 s0 i l JobSubmitted Hi0) as (phase & Hph).
  eapply removeLogs_wait_done; [| exact Hph].
  apply in_seq. apply lookup_lt_Some in Hi. lia.
Qed.

End PoolInv.

(** *** What a pass of [clearEtcd] does and leaves *)

Section Acts.
Context {W : Type} (P : Action -> Prop) (K : UniqueID -> Prop).

Lemma acts_same {A : Type} (m : M (State W) A) :
  (forall s, segments (snd (m s)) = segments s /\ actions (snd (m s)) = actions s) ->
  acts P K m.
Proof.
  intros H s. destruct (H s) as [Hs Ha]. rewrite Hs, Ha. split; [| auto].
  exists []. rewrite app_nil_r. split; [reflexivity | constructor].
Qed.

Lemma acts_ret {A : Type} (a : A) : acts P K (ret (S := State W) a).
Proof. apply acts_same. intros s. split; reflexivity. Qed.

Lemma acts_call {A : Type} (m : M W A) : acts P K (call m).
Proof.
  apply acts_same. intros s. unfold call. destruct (m (world s)). split; reflexivity.
Qed.

Lemma acts_getSegments : acts P K (getSegments (W := W)).
Proof. apply acts_same. intros s. split; reflexivity. Qed.

Lemma acts_record a : P a -> acts P K (record (W := W) a).
Proof.
  intros Ha s. unfold record. simpl. split; [| auto].
  exists [a]. split; [reflexivity | repeat constructor; exact Ha].
Qed.

Lemma acts_bind {A B : Type} (m : M (State W) A) (k : A -> M (State W) B) :
  acts P K m -> (forall a, acts P K (k a)) -> acts P K (bind m k).
Proof.
  intros Hm Hk s. unfold bind. specialize (Hm s).
  destruct (m s) as [a s1]. simpl in Hm.
  destruct Hm as ((n1 & Ha1 & F1) & Hsub1 & Hkeep1).
  destruct (Hk a s1) as ((n2 & Ha2 & F2) & Hsub2 & Hkeep2).
  split; [| split].
  - exists (n1 ++ n2). rewrite Ha2, Ha1, app_assoc. split; [reflexivity |].
    apply Forall_app. split; assumption.
  - auto.
  - auto.
Qed.

End Acts.

Ltac acts_step :=
  first
    [ apply acts_ret
    | apply acts_call
    | apply acts_getSegments
    | apply acts_bind; [| intros ?]
    | match goal with
      | |- acts _ _ (if ?b then _ else _) => destruct b
      | |- acts _ _ (match ?x with _ => _ end) => destruct x
      end ].

Section ActsPass.
Context {W : Type} (E : Env W) (opt : GcOption) (P : Action -> Prop) (K : UniqueID -> Prop).

Lemma acts_DropSegment k :
  P (ActDropSegment k) -> ~ K k -> acts P K (DropSegment E k).
Proof.
  intros HP HK. unfold DropSegment.
  apply acts_bind; [apply acts_record, HP | intros _].
  apply acts_bind; [apply acts_call | intros ok].
  destruct ok; [| apply acts_ret].
  intros s. simpl. split; [| split].
  - exists []. rewrite app_nil_r. split; [reflexivity | constructor].
  - intros si Hin. unfold removeSegment in Hin. apply filter_In in Hin. tauto.
  - intros si Hin Hk. unfold removeSegment. apply filter_In. split; [exact Hin |].
    destruct (Z.eqb_spec (ID si) k); [subst; contradiction | reflexivity].
Qed.

Lemma acts_removeLogs k logs :
  (forall l, In l logs -> P (ActRemoveLog k (LogPath l))) ->
  acts P K (removeLogs E k logs).
Proof.
  intros HP s. destruct (removeLogs_spec E k logs s) as (Hs & new & Ha & Hnew & _).
  split; [| rewrite Hs; auto].
  exists new. split; [exact Ha |]. apply List.Forall_forall. intros a Hin.
  destruct (Hnew a Hin) as (l & Hl & ->). auto.
Qed.

Lemma acts_checkDroppedSegmentGC segment child idx cp :
  acts P K (checkDroppedSegmentGC E opt segment child idx cp).
Proof. unfold checkDroppedSegmentGC, isExpire. repeat acts_step. Qed.

Lemma acts_channelCheckpoints chans : acts P K (channelCheckpoints E chans).
Proof. induction chans as [| c rest IH]; simpl; repeat acts_step. exact IH. Qed.

(** The tail of the loop body of [clearEtcd], after the logs were removed. *)
Lemma acts_clearEtcd_tail (segment : SegmentInfo) :
  P (ActDropChannelCheckpoint (InsertChannel segment)) ->
  acts P K
    (segs <- getSegments ;;
     match GetSegmentsByChannel (InsertChannel segment) segs with
     | [] =>
         channelExists <- call (ChannelExists E (InsertChannel segment)) ;;
         if negb channelExists then
           _ <- record (ActDropChannelCheckpoint (InsertChannel segment)) ;;
           _ <- call (DropChannelCheckpoint E (InsertChannel segment)) ;;
           ret tt
         else ret tt
     | _ :: _ => ret tt
     end).
Proof.
  intros HP. apply acts_bind; [apply acts_getSegments | intros segs].
  destruct (GetSegmentsByChannel (InsertChannel segment) segs); [| apply acts_ret].
  apply acts_bind; [apply acts_call | intros ex].
  destruct (negb ex); [| apply acts_ret].
  apply acts_bind; [apply acts_record, HP | intros _].
  apply acts_bind; [apply acts_call | intros _]. apply acts_ret.
Qed.

Lemma acts_clearEtcd_segment drops compactTo idx cps k :
  (forall seg, drops !! k = Some seg ->
     (forall l, In l (getLogs seg) -> P (ActRemoveLog (ID seg) (LogPath l)))
     /\ P (ActDropSegment (ID seg)) /\ ~ K (ID seg)
     /\ P (ActDropChannelCheckpoint (InsertChannel seg))) ->
  acts P K (clearEtcd_segment E opt drops compactTo idx cps k).
Proof.
  intros H. unfold clearEtcd_segment.
  destruct (drops !! k) as [segment |] eqn:Hd; [| apply acts_ret].
  destruct (H segment eq_refl) as (H1 & H2 & H3 & H4).
  apply acts_bind; [apply acts_checkDroppedSegmentGC | intros ok].
  destruct (negb ok); [apply acts_ret |].
  apply acts_bind; [apply acts_removeLogs, H1 | intros removed].
  apply acts_bind.
  { destruct removed; [| apply acts_ret].
    apply acts_bind; [apply acts_DropSegment; assumption | intros ?; apply acts_ret]. }
  intros _. apply acts_clearEtcd_tail, H4.
Qed.

Lemma acts_clearEtcd_range drops compactTo idx cps dropIDs :
  (forall k, acts P K (clearEtcd_segment E opt drops compactTo idx cps k)) ->
  acts P K (clearEtcd_range E opt drops compactTo idx cps dropIDs).
Proof.
  intros H. induction dropIDs as [| k rest IH]; simpl; [apply acts_ret |].
  apply acts_bind; [apply H | intros _; exact IH].
Qed.

(** [clearEtcd], given what holds of the body of its last loop on the maps
    it builds from the meta [segs] it started from. *)
Lemma acts_clearEtcd (s : State W) :
  (forall idx cps k,
     acts P K (clearEtcd_segment E opt (collectDrops (segments s))
                 (collectCompactTo (segments s)) idx cps k)) ->
  (exists new, actions (snd (clearEtcd E opt s)) = actions s ++ new /\ Forall P new)
  /\ (forall si, In si (segments (snd (clearEtcd E opt s))) -> In si (segments s))
  /\ (forall si, In si (segments s) -> K (ID si) -> In si (segments (snd (clearEtcd E opt s)))).
Proof.
  intros H. unfold clearEtcd.
  set (m := fun all : list SegmentInfo =>
    indexedSegments <-
      call (FilterInIndexedSegments E (droppedCompactTo (collectDrops all) (collectCompactTo all))) ;;
    channelCPs <- channelCheckpoints E (elements (collectChannels all)) ;;
    clearEtcd_range E opt (collectDrops all) (collectCompactTo all)
      (indexedSetOf indexedSegments) channelCPs
      (merge_sort Z.le (map fst (map_to_list (collectDrops all))))).
  unfold bind at 1, getSegments. cbn [fst snd].
  assert (Hm : acts P K (m (segments s))).
  { unfold m. apply acts_bind; [apply acts_call | intros indexed].
    apply acts_bind; [apply acts_channelCheckpoints | intros cps].
    apply acts_clearEtcd_range. intros k. apply H. }
  exact (Hm s).
Qed.

End ActsPass.

(** X17.  Every removal of a log, drop of a segment record and drop of a channel
    checkpoint that [clearEtcd] makes is for a segment of the meta that is in
    state dropped: a log of that segment, its record, the checkpoint of its
    channel. *)
Theorem clearEtcd_acts_on_dropped :
  forall (W : Type) (E : Env W) (opt : GcOption) (s : State W),
    let s' := snd (clearEtcd E opt s) in
    exists new, actions s' = actions s ++ new
                /\ forall a, In a new -> collects (segments s) a.
Proof.
  intros W E opt s s'.
  destruct (acts_clearEtcd E opt (collects (segments s)) (fun _ => False) s) as [(new & Ha & HF) _].
  - intros idx cps k. apply acts_clearEtcd_segment. intros seg Hseg.
    apply collectDrops_keys in Hseg as (Hid & Hin & Hd).
    repeat split.
    + intros l Hl. simpl. exists seg. repeat split; auto. apply in_map, Hl.
    + simpl. eauto.
    + tauto.
    + simpl. eauto.
  - exists new. split; [exact Ha |]. apply List.Forall_forall, HF.
Qed.

Lemma NoDup_map_ID_inj (segs : list SegmentInfo) (x y : SegmentInfo) :
  List.NoDup (List.map ID segs) -> In x segs -> In y segs -> ID x = ID y -> x = y.
Proof.
  induction segs as [| z segs IH]; simpl; intros Hnd Hx Hy Heq; [destruct Hx |].
  apply List.NoDup_cons_iff in Hnd as [Hfresh Hnd].
  destruct Hx as [-> | Hx]; destruct Hy as [-> | Hy]; auto.
  - exfalso. apply Hfresh. rewrite Heq. apply in_map, Hy.
  - exfalso. apply Hfresh. rewrite <- Heq. apply in_map, Hx.
Qed.

(** X18.  [clearEtcd] adds no segment to the meta and removes only records it
    collected as dropped: a segment that is not dropped is still in the meta
    afterwards (ids being unique). *)
Theorem clearEtcd_keeps_live_segments :
  forall (W : Type) (E : Env W) (opt : GcOption) (s : State W),
    let s' := snd (clearEtcd E opt s) in
    (forall si, In si (segments s') -> In si (segments s))
    /\ (forall si, In si (segments s) -> collectDrops (segments s) !! ID si = None ->
                   In si (segments s'))
    /\ (List.NoDup (List.map ID (segments s)) ->
        forall si, In si (segments s) -> SegState si <> Dropped -> In si (segments s')).
Proof.
  intros W E opt s s'.
  destruct (acts_clearEtcd E opt (fun _ => True)
              (fun id => collectDrops (segments s) !! id = None) s) as (_ & Hsub & Hkeep).
  - intros idx cps k. apply acts_clearEtcd_segment. intros seg Hseg.
    pose proof (collectDrops_keys _ _ _ Hseg) as (Hid & Hin & Hd).
    repeat split; auto. rewrite Hid, Hseg. discriminate.
  - split; [exact Hsub |]. split; [exact Hkeep |].
    intros Hnd si Hin Hlive. apply Hkeep; [exact Hin |].
    destruct (collectDrops (segments s) !! ID si) as [x |] eqn:Hx; [| reflexivity].
    apply collectDrops_keys in Hx as (Hid & Hinx & Hd).
    assert (x = si) by (eapply NoDup_map_ID_inj; eauto). subst x. contradiction.
Qed.


Lemma acts_bind_with {W A B : Type} (P : Action -> Prop) (K : UniqueID -> Prop)
    (Q : A -> Prop) (m : M (State W) A) (k : A -> M (State W) B) :
  acts P K m -> (forall s, Q (fst (m s))) -> (forall a, Q a -> acts P K (k a)) ->
  acts P K (bind m k).
Proof.
  intros Hm HQ Hk s. unfold bind. specialize (Hm s). specialize (HQ s).
  destruct (m s) as [a s1]. simpl in Hm, HQ.
  destruct Hm as ((n1 & Ha1 & F1) & Hsub1 & Hkeep1).
  destruct (Hk a HQ s1) as ((n2 & Ha2 & F2) & Hsub2 & Hkeep2).
  split; [| split].
  - exists (n1 ++ n2). rewrite Ha2, Ha1, app_assoc. split; [reflexivity |].
    apply Forall_app. split; assumption.
  - auto.
  - auto.
Qed.

Section Stuck.
Context {W : Type} (E : Env W) (opt : GcOption).

(** A log whose removal always ends in an error that cancels makes
    [removeLogs] return [false], however the pool runs the jobs. *)
Lemma removeLogs_stuck k logs l (s : State W) :
  In l logs ->
  (forall w, fst (Remove E (LogPath l) w) = RemoveFailed) ->
  fst (removeLogs E k logs s) = false.
Proof.
  intros Hl Hfail. destruct (fst (removeLogs E k logs s)) eqn:Hr; [| reflexivity].
  destruct (removeLogs_spec E k logs s) as (_ & new & _ & _ & Hall).
  destruct (Hall Hr l Hl) as (_ & w & Hw). specialize (Hfail w). contradiction.
Qed.

(** The pass on the maps built from the meta, for a segment [A] that the
    body of the last loop keeps: every other dropped segment is dealt with
    without an action concerning [A]. *)
Lemma acts_clearEtcd_keeping (P : Action -> Prop) (s : State W) (A : SegmentInfo) :
  collectDrops (segments s) !! ID A = Some A ->
  (forall k path, k <> ID A -> P (ActRemoveLog k path)) ->
  (forall k, k <> ID A -> P (ActDropSegment k)) ->
  (forall c, P (ActDropChannelCheckpoint c)) ->
  (forall idx cps,
     acts P (fun id => id = ID A)
       (clearEtcd_segment E opt (collectDrops (segments s)) (collectCompactTo (segments s))
          idx cps (ID A))) ->
  (exists new, actions (snd (clearEtcd E opt s)) = actions s ++ new /\ Forall P new)
  /\ In A (segments (snd (clearEtcd E opt s))).
Proof.
  intros Hd HP1 HP2 HP3 HA.
  destruct (acts_clearEtcd E opt P (fun id => id = ID A) s) as (Hact & _ & Hkeep).
  - intros idx cps k. destruct (decide (k = ID A)) as [-> | Hne]; [apply HA |].
    apply acts_clearEtcd_segment. intros seg Hseg.
    apply collectDrops_keys in Hseg as (Hid & _ & _). rewrite Hid. repeat split; auto.
  - split; [exact Hact |]. apply Hkeep; [| reflexivity].
    apply collectDrops_keys in Hd. tauto.
Qed.

End Stuck.

(** X19.  When the removal of one of the logs of a dropped segment fails with an
    error other than a missing key, [clearEtcd] keeps the segment's record:
    the catalog is not asked to drop it. *)
Theorem clearEtcd_keeps_segment_with_stuck_log :
  forall (W : Type) (E : Env W) (opt : GcOption) (s : State W) (A : SegmentInfo) (l : Binlog),
    collectDrops (segments s) !! ID A = Some A ->
    In l (getLogs A) ->
    (forall w, fst (Remove E (LogPath l) w) = RemoveFailed) ->
    let s' := snd (clearEtcd E opt s) in
    In A (segments s')
    /\ exists new, actions s' = actions s ++ new /\ ~ In (ActDropSegment (ID A)) new.
Proof.
  intros W E opt s A l Hd Hl Hfail s'.
  destruct (acts_clearEtcd_keeping E opt (fun a => a <> ActDropSegment (ID A)) s A Hd)
    as [(new & Ha & HF) Hin].
  - intros k path _. discriminate.
  - intros k Hne Heq. inversion Heq. contradiction.
  - intros c. discriminate.
  - intros idx cps. unfold clearEtcd_segment. rewrite Hd.
    apply acts_bind; [apply acts_checkDroppedSegmentGC | intros ok].
    destruct (negb ok); [apply acts_ret |].
    apply (acts_bind_with _ _ (fun removed => removed = false)).
    + apply acts_removeLogs. intros l0 _. discriminate.
    + intros s0. apply (removeLogs_stuck E (ID A) (getLogs A) l s0 Hl Hfail).
    + intros removed ->.
      apply acts_bind; [apply acts_ret | intros _].
      apply acts_clearEtcd_tail. discriminate.
  - split; [exact Hin |]. exists new. split; [exact Ha |].
    intros Hbad. rewrite List.Forall_forall in HF. apply (HF _ Hbad). reflexivity.
Qed.

Lemma clearEtcd_keeps_segment_with_stuck_log_witness :
  let s' := snd (clearEtcd Examples.gc_env_stuck Examples.gc_option Examples.gc_state) in
  In Examples.seg1 (segments s')
  /\ exists new, actions s' = actions Examples.gc_state ++ new
                 /\ ~ In (ActDropSegment (ID Examples.seg1)) new.
Proof.
  apply (clearEtcd_keeps_segment_with_stuck_log unit Examples.gc_env_stuck Examples.gc_option
           Examples.gc_state Examples.seg1 (mkBinlog "files/insert_log/1/a")).
  - vm_compute. reflexivity.
  - left. reflexivity.
  - intros w. reflexivity.
Defined.

(** X20.  A dropped segment that no compaction has touched (it is not compacted and
    no segment names it as a source) and that was dropped no longer ago than
    the drop tolerance is left alone by [clearEtcd]: none of its logs is
    removed and its record stays. *)
Theorem clearEtcd_respects_drop_tolerance :
  forall (W : Type) (E : Env W) (opt : GcOption) (s : State W) (A : SegmentInfo),
    collectDrops (segments s) !! ID A = Some A ->
    collectCompactTo (segments s) !! ID A = None ->
    Compacted A = false ->
    (forall w, GoTime.Since (fst (Now E w)) (GoTime.Unix_nano (Int64.wrap (DroppedAt A)))
               <= dropTolerance opt) ->
    let s' := snd (clearEtcd E opt s) in
    In A (segments s')
    /\ exists new, actions s' = actions s ++ new
                   /\ (forall path, ~ In (ActRemoveLog (ID A) path) new)
                   /\ ~ In (ActDropSegment (ID A)) new.
Proof.
  intros W E opt s A Hd Hc Hcomp Hyoung s'.
  destruct (acts_clearEtcd_keeping E opt (fun a => concerns (ID A) a = false) s A Hd)
    as [(new & Ha & HF) Hin].
  - intros k path Hne. apply concerns_other_remove, Hne.
  - intros k Hne. apply concerns_other_drop, Hne.
  - intros c. reflexivity.
  - intros idx cps. unfold clearEtcd_segment. rewrite Hd, Hc.
    apply (acts_bind_with _ _ (fun ok => ok = false)).
    + apply acts_checkDroppedSegmentGC.
    + intros s0. unfold checkDroppedSegmentGC, isExpire. rewrite Hcomp.
      unfold bind, call, ret. specialize (Hyoung (world s0)).
      destruct (Now E (world s0)) as [now w1]. simpl in *.
      destruct (Z.ltb_spec (dropTolerance opt)
                  (GoTime.Since now (GoTime.Unix_nano (Int64.wrap (DroppedAt A))))); [lia |].
      reflexivity.
    + intros ok ->. apply acts_ret.
  - split; [exact Hin |]. exists new. split; [exact Ha |].
    rewrite List.Forall_forall in HF. split.
    + intros path Hbad. apply HF in Hbad. simpl in Hbad. rewrite Z.eqb_refl in Hbad. discriminate.
    + intros Hbad. apply HF in Hbad. simpl in Hbad. rewrite Z.eqb_refl in Hbad. discriminate.
Qed.

Lemma clearEtcd_respects_drop_tolerance_witness :
  let s' := snd (clearEtcd Examples.gc_env_indexed Examples.gc_option Examples.gc_state_fresh) in
  In Examples.seg4 (segments s')
  /\ exists new, actions s' = actions Examples.gc_state_fresh ++ new
                 /\ (forall path, ~ In (ActRemoveLog (ID Examples.seg4) path) new)
                 /\ ~ In (ActDropSegment (ID Examples.seg4)) new.
Proof.
  apply (clearEtcd_respects_drop_tolerance unit Examples.gc_env_indexed Examples.gc_option
           Examples.gc_state_fresh Examples.seg4).
  - vm_compute. reflexivity.
  - vm_compute. reflexivity.
  - reflexivity.
  - intros w. vm_compute. discriminate.
Defined.

Section Paused.
Context {W : Type} (E : Env W) (opt : GcOption).

Lemma work_step_paused ev (gc : garbageCollector W) :
  quit gc = false ->
  (forall w, fst (Now E w) < pauseUntil gc) ->
  ev = TickerC \/ (exists d, ev = CmdCh (mkGcCmd GcCommand_Pause d)) ->
  let gc' := work_step E opt ev gc in
  segments (gcState gc') = segments (gcState gc)
  /\ actions (gcState gc') = actions (gcState gc)
  /\ pauseUntil gc <= pauseUntil gc'
  /\ quit gc' = false.
Proof.
  intros Hq Hclock Hev gc'. subst gc'. unfold work_step. rewrite Hq.
  destruct Hev as [-> | [d ->]]; simpl.
  - unfold call. specialize (Hclock (world (gcState gc))).
    destruct (Now E (world (gcState gc))) as [now w1]. simpl in *.
    unfold GoTime.Before. destruct (Z.ltb_spec now (pauseUntil gc)); [| lia].
    simpl. repeat split; lia.
  - unfold call. destruct (Now E (world (gcState gc))) as [now w1]. simpl.
    unfold GoTime.After, GoTime.Add.
    destruct (Z.ltb_spec (pauseUntil gc) (now + d)); simpl; repeat split; lia.
Qed.

End Paused.

(** X21.  While the clock is before [pauseUntil], ticks of the collection ticker
    and further pause commands, in any number and order, leave the meta and
    the history of actions as they are, and [pauseUntil] does not go back. *)
Theorem paused_ticks_collect_nothing :
  forall (W : Type) (E : Env W) (opt : GcOption) (evs : list WorkEvent)
         (gc : garbageCollector W),
    quit gc = false ->
    (forall w, fst (Now E w) < pauseUntil gc) ->
    (forall ev, In ev evs ->
       ev = TickerC \/ exists d, ev = CmdCh (mkGcCmd GcCommand_Pause d)) ->
    let gc' := fold_left (fun g ev => work_step E opt ev g) evs gc in
    segments (gcState gc') = segments (gcState gc)
    /\ actions (gcState gc') = actions (gcState gc)
    /\ pauseUntil gc <= pauseUntil gc'.
Proof.
  intros W E opt evs. induction evs as [| ev evs IH]; intros gc Hq Hclock Hevs; simpl.
  - repeat split; lia.
  - destruct (work_step_paused E opt ev gc Hq Hclock (Hevs ev (or_introl eq_refl)))
      as (H1 & H2 & H3 & H4).
    destruct (IH (work_step E opt ev gc)) as (H5 & H6 & H7).
    + exact H4.
    + intros w. specialize (Hclock w). lia.
    + intros ev' Hin. apply Hevs. right. exact Hin.
    + simpl in *. repeat split; try congruence. lia.
Qed.

Lemma paused_ticks_collect_nothing_witness :
  let gc' := fold_left (fun g ev => work_step Examples.gc_env_indexed Examples.gc_option ev g)
               [TickerC; CmdCh (mkGcCmd GcCommand_Pause 5); TickerC] Examples.gc_paused in
  segments (gcState gc') = segments (gcState Examples.gc_paused)
  /\ actions (gcState gc') = actions (gcState Examples.gc_paused)
  /\ pauseUntil Examples.gc_paused <= pauseUntil gc'.
Proof.
  apply (paused_ticks_collect_nothing unit Examples.gc_env_indexed Examples.gc_option
           [TickerC; CmdCh (mkGcCmd GcCommand_Pause 5); TickerC] Examples.gc_paused).
  - reflexivity.
  - intros w. vm_compute. reflexivity.
  - intros ev [<- | [<- | [<- | []]]]; [left; reflexivity | right; eexists; reflexivity
                                         | left; reflexivity].
Defined.


(** *** Logs first, the record after *)

Lemma drops_after_removals_none (A : SegmentInfo) (tr : list Action) :
  ~ In (ActDropSegment (ID A)) tr -> drops_after_removals A tr.
Proof.
  intros Hno before after ->. exfalso. apply Hno. apply in_or_app. right. left. reflexivity.
Qed.

Lemma drops_after_removals_app (A : SegmentInfo) (tr1 tr2 : list Action) :
  drops_after_removals A tr1 -> drops_after_removals A tr2 ->
  drops_after_removals A (tr1 ++ tr2).
Proof.
  intros H1 H2 before after Heq l Hl.
  apply List.app_eq_app in Heq as [m [[Hb Ha] | [Hb Ha]]].
  - destruct m as [| x m].
    + rewrite app_nil_r in Hb. subst tr1. simpl in Ha.
      specialize (H2 [] after (eq_sym Ha) l Hl). destruct H2.
    + simpl in Ha. inversion Ha; subst x after.
      exact (H1 before m Hb l Hl).
  - subst before. apply in_or_app. right. exact (H2 m after Ha l Hl).
Qed.

Lemma split_at_unique {X : Type} (x : X) (l1 l2 before after : list X) :
  l1 ++ x :: l2 = before ++ x :: after -> ~ In x l1 -> ~ In x l2 -> before = l1.
Proof.
  revert before. induction l1 as [| y l1 IH]; intros before Heq H1 H2.
  - destruct before as [| b before]; [reflexivity |].
    simpl in Heq. inversion Heq; subst. exfalso. apply H2.
    apply in_or_app. right. left. reflexivity.
  - destruct before as [| b before].
    + simpl in Heq. inversion Heq; subst. exfalso. apply H1. left. reflexivity.
    + simpl in Heq. inversion Heq; subst. f_equal. apply IH; auto.
      intros Hin. apply H1. right. exact Hin.
Qed.

Section DropOrder.
Context {W : Type} (E : Env W) (opt : GcOption).

Lemma traces_of_acts {A : Type} (P : Action -> Prop) (K : UniqueID -> Prop)
    (Q : list Action -> Prop) (m : M (State W) A) :
  acts P K m -> (forall new, Forall P new -> Q new) -> traces Q m.
Proof.
  intros Hm HQ s. destruct (Hm s) as ((new & Ha & HF) & _). exists new. auto.
Qed.

Lemma traces_bind {A B : Type} (Q : list Action -> Prop)
    (m : M (State W) A) (k : A -> M (State W) B) :
  (forall t1 t2, Q t1 -> Q t2 -> Q (t1 ++ t2)) ->
  traces Q m -> (forall a, traces Q (k a)) -> traces Q (bind m k).
Proof.
  intros Happ Hm Hk s. unfold bind. specialize (Hm s).
  destruct (m s) as [a s1]. simpl in Hm. destruct Hm as (n1 & Ha1 & Q1).
  destruct (Hk a s1) as (n2 & Ha2 & Q2).
  exists (n1 ++ n2). rewrite Ha2, Ha1, app_assoc. auto.
Qed.

Lemma checkDroppedSegmentGC_actions segment child idx cp (s : State W) :
  actions (snd (checkDroppedSegmentGC E opt segment child idx cp s)) = actions s.
Proof.
  destruct (acts_checkDroppedSegmentGC E opt (fun _ => False) (fun _ => True)
              segment child idx cp s) as ((new & Ha & HF) & _).
  destruct new as [| a new]; [rewrite app_nil_r in Ha; exact Ha |].
  inversion HF; subst. contradiction.
Qed.

Lemma DropSegment_actions k (s : State W) :
  actions (snd (DropSegment E k s)) = actions s ++ [ActDropSegment k].
Proof.
  unfold DropSegment, bind, record, call. simpl.
  destruct (DropSegmentCatalog E k (world s)) as [ok w]. simpl. destruct ok; reflexivity.
Qed.

Lemma traces_clearEtcd_segment_own drops compactTo idx cps (A : SegmentInfo) :
  drops !! ID A = Some A ->
  traces (drops_after_removals A) (clearEtcd_segment E opt drops compactTo idx cps (ID A)).
Proof.
  intros Hd s. unfold clearEtcd_segment. rewrite Hd. rewrite bind_run.
  pose proof (checkDroppedSegmentGC_actions A (compactTo !! ID A) idx
                (default 0 (cps !! InsertChannel A)) s) as Hchk.
  set (r1 := checkDroppedSegmentGC E opt A (compactTo !! ID A) idx
               (default 0 (cps !! InsertChannel A)) s) in *.
  destruct (fst r1); simpl.
  2: { exists []. rewrite app_nil_r. split; [exact Hchk |].
       apply drops_after_removals_none. intros []. }
  rewrite bind_run.
  destruct (removeLogs_spec E (ID A) (getLogs A) (snd r1)) as (_ & rm & Hrm & HFrm & Hall).
  set (r2 := removeLogs E (ID A) (getLogs A) (snd r1)) in *.
  assert (Hnorm : ~ In (ActDropSegment (ID A)) rm).
  { intros Hin. destruct (HFrm _ Hin) as (l & _ & Hl). discriminate. }
  assert (Htail : acts (fun a => a <> ActDropSegment (ID A)) (fun _ => False)
            (segs <- getSegments ;;
             match GetSegmentsByChannel (InsertChannel A) segs with
             | [] =>
                 channelExists <- call (ChannelExists E (InsertChannel A)) ;;
                 if negb channelExists then
                   _ <- record (ActDropChannelCheckpoint (InsertChannel A)) ;;
                   _ <- call (DropChannelCheckpoint E (InsertChannel A)) ;;
                   ret tt
                 else ret tt
             | _ :: _ => ret tt
             end)).
  { apply acts_clearEtcd_tail. discriminate. }
  rewrite bind_run.
  destruct (fst r2) eqn:Hremoved.
  - rewrite (bind_run (DropSegment E (ID A))).
    pose proof (DropSegment_actions (ID A) (snd r2)) as Hdrop.
    destruct (Htail (snd (DropSegment E (ID A) (snd r2)))) as ((tl & Htl & HFtl) & _).
    exists (rm ++ ActDropSegment (ID A) :: tl). split.
    + unfold ret in *. cbn [fst snd] in *. rewrite Htl, Hdrop, Hrm, Hchk. rewrite <- !app_assoc. reflexivity.
    + intros before after Heq l Hl.
      assert (before = rm) as ->.
      { eapply split_at_unique; [exact Heq | exact Hnorm |].
        intros Hin. rewrite List.Forall_forall in HFtl. apply (HFtl _ Hin). reflexivity. }
      exact (proj1 (Hall eq_refl l Hl)).
  - destruct (Htail (snd r2)) as ((tl & Htl & HFtl) & _).
    exists (rm ++ tl). split.
    + unfold ret in *. cbn [fst snd] in *. rewrite Htl, Hrm, Hchk. rewrite <- app_assoc. reflexivity.
    + apply drops_after_removals_none. intros Hin.
      apply in_app_or in Hin as [Hin | Hin]; [contradiction |].
      rewrite List.Forall_forall in HFtl. apply (HFtl _ Hin). reflexivity.
Qed.

End DropOrder.

(** X22.  [clearEtcd] asks the catalog to drop the record of a dropped segment only
    after it has asked the object store to remove every log of the
    segment. *)
Theorem clearEtcd_drops_after_removals :
  forall (W : Type) (E : Env W) (opt : GcOption) (s : State W) (A : SegmentInfo),
    collectDrops (segments s) !! ID A = Some A ->
    exists new,
      actions (snd (clearEtcd E opt s)) = actions s ++ new
      /\ forall before after,
           new = before ++ ActDropSegment (ID A) :: after ->
           forall l, In l (getLogs A) -> In (ActRemoveLog (ID A) (LogPath l)) before.
Proof.
  intros W E opt s A Hd.
  assert (Hno : forall (B : Type) (m : M (State W) B),
            acts (fun a => a <> ActDropSegment (ID A)) (fun _ => False) m ->
            traces (drops_after_removals A) m).
  { intros B m Hm. eapply traces_of_acts; [exact Hm |].
    intros new HF. apply drops_after_removals_none. intros Hin.
    rewrite List.Forall_forall in HF. apply (HF _ Hin). reflexivity. }
  assert (Hseg : forall idx cps k,
            traces (drops_after_removals A)
              (clearEtcd_segment E opt (collectDrops (segments s))
                 (collectCompactTo (segments s)) idx cps k)).
  { intros idx cps k. destruct (decide (k = ID A)) as [-> | Hne].
    - apply traces_clearEtcd_segment_own, Hd.
    - apply Hno. apply acts_clearEtcd_segment. intros seg Hk.
      apply collectDrops_keys in Hk as (Hid & _ & _). rewrite Hid.
      repeat split; try discriminate; try tauto.
      intros Heq. inversion Heq. contradiction. }
  assert (Hrange : forall idx cps dropIDs,
            traces (drops_after_removals A)
              (clearEtcd_range E opt (collectDrops (segments s))
                 (collectCompactTo (segments s)) idx cps dropIDs)).
  { intros idx cps dropIDs. induction dropIDs as [| k rest IH]; simpl.
    - apply Hno, acts_ret.
    - apply traces_bind; [apply drops_after_removals_app | apply Hseg | intros _; exact IH]. }
  assert (Hall : traces (drops_after_removals A)
            (fun s0 : State W =>
               (indexedSegments <-
                  call (FilterInIndexedSegments E
                          (droppedCompactTo (collectDrops (segments s))
                             (collectCompactTo (segments s)))) ;;
                channelCPs <- channelCheckpoints E (elements (collectChannels (segments s))) ;;
                clearEtcd_range E opt (collectDrops (segments s)) (collectCompactTo (segments s))
                  (indexedSetOf indexedSegments) channelCPs
                  (merge_sort Z.le (map fst (map_to_list (collectDrops (segments s)))))) s0)).
  { apply traces_bind; [apply drops_after_removals_app | apply Hno, acts_call | intros indexed].
    apply traces_bind; [apply drops_after_removals_app
                       | apply Hno, acts_channelCheckpoints | intros cps].
    apply Hrange. }
  destruct (Hall s) as (new & Ha & HQ). exists new. split; [exact Ha | exact HQ].
Qed.

Lemma clearEtcd_drops_after_removals_witness :
  exists new,
    actions (snd (clearEtcd Examples.gc_env_indexed Examples.gc_option Examples.gc_state))
    = actions Examples.gc_state ++ new
    /\ forall before after,
         new = before ++ ActDropSegment (ID Examples.seg1) :: after ->
         forall l, In l (getLogs Examples.seg1) ->
           In (ActRemoveLog (ID Examples.seg1) (LogPath l)) before.
Proof.
  apply (clearEtcd_drops_after_removals unit Examples.gc_env_indexed Examples.gc_option
           Examples.gc_state Examples.seg1).
  vm_compute. reflexivity.
Defined.

(** *** The index meta and the index files *)

Import IndexGc.

Section Justifies.
Context {W : Type} (J : list Call -> Call -> Prop).
Hypothesis J_earlier : forall earlier before c, J before c -> J (earlier ++ before) c.

Lemma each_call_nil : each_call J [].
Proof. intros before c after H. destruct before; discriminate. Qed.

Lemma each_call_app (h1 h2 : list Call) :
  each_call J h1 -> each_call J h2 -> each_call J (h1 ++ h2).
Proof.
  intros H1 H2 before c after Heq.
  apply List.app_eq_app in Heq as [m [[Hb Ha] | [Hb Ha]]].
  - destruct m as [| x m].
    + rewrite app_nil_r in Hb. subst h1. simpl in Ha.
      rewrite <- (app_nil_r before). apply J_earlier. apply (H2 [] c after). auto.
    + simpl in Ha. inversion Ha; subst x after. apply (H1 before c m Hb).
  - subst before. apply J_earlier. apply (H2 m c after Ha).
Qed.

Lemma justifies_ret {A : Type} (a : A) : justifies J (ret (S := IndexGc.State W) a).
Proof.
  intros s. simpl. split; [reflexivity |]. exists []. rewrite app_nil_r.
  split; [reflexivity | apply each_call_nil].
Qed.

Lemma justifies_call {A : Type} (m : M W A) : justifies J (IndexGc.call m).
Proof.
  intros s. unfold IndexGc.call. destruct (m (IndexGc.world s)). simpl.
  split; [reflexivity |]. exists []. rewrite app_nil_r.
  split; [reflexivity | apply each_call_nil].
Qed.

Lemma justifies_bind {A B : Type} (m : M (IndexGc.State W) A)
    (k : A -> M (IndexGc.State W) B) :
  justifies J m -> (forall a, justifies J (k a)) -> justifies J (bind m k).
Proof.
  intros Hm Hk s. unfold bind. specialize (Hm s).
  destruct (m s) as [a s1]. simpl in *.
  destruct Hm as (Hs1 & n1 & Hc1 & F1). destruct (Hk a s1) as (Hs2 & n2 & Hc2 & F2).
  split; [congruence |]. exists (n1 ++ n2). rewrite Hc2, Hc1, app_assoc.
  split; [reflexivity | apply each_call_app; assumption].
Qed.

Lemma justifies_forM {A : Type} (f : A -> M (IndexGc.State W) unit) (l : list A) :
  (forall a, justifies J (f a)) -> justifies J (IndexGc.forM_ f l).
Proof.
  intros H. induction l as [| a l IH]; simpl; [apply justifies_ret |].
  apply justifies_bind; [apply H | intros _; exact IH].
Qed.

End Justifies.

Section Makes.
Context {W : Type} (P : Call -> Prop).

Lemma makes_ret {A : Type} (a : A) : makes P (ret (S := IndexGc.State W) a).
Proof.
  intros s. simpl. split; [reflexivity |]. exists []. rewrite app_nil_r.
  split; [reflexivity | constructor].
Qed.

Lemma makes_call {A : Type} (m : M W A) : makes P (IndexGc.call m).
Proof.
  intros s. unfold IndexGc.call. destruct (m (IndexGc.world s)). simpl.
  split; [reflexivity |]. exists []. rewrite app_nil_r. split; [reflexivity | constructor].
Qed.

Lemma makes_record c : P c -> makes P (IndexGc.record (W := W) c).
Proof.
  intros Hc s. simpl. split; [reflexivity |]. exists [c].
  split; [reflexivity | repeat constructor; exact Hc].
Qed.

Lemma makes_bind {A B : Type} (m : M (IndexGc.State W) A) (k : A -> M (IndexGc.State W) B) :
  makes P m -> (forall a, makes P (k a)) -> makes P (bind m k).
Proof.
  intros Hm Hk s. unfold bind. specialize (Hm s).
  destruct (m s) as [a s1]. simpl in *.
  destruct Hm as (Hs1 & n1 & Hc1 & F1). destruct (Hk a s1) as (Hs2 & n2 & Hc2 & F2).
  split; [congruence |]. exists (n1 ++ n2). rewrite Hc2, Hc1, app_assoc.
  split; [reflexivity | apply Forall_app; split; assumption].
Qed.

Lemma makes_forM {A : Type} (f : A -> M (IndexGc.State W) unit) (l : list A) :
  (forall a, makes P (f a)) -> makes P (IndexGc.forM_ f l).
Proof.
  intros H. induction l as [| a l IH]; simpl; [apply makes_ret |].
  apply makes_bind; [apply H | intros _; exact IH].
Qed.

End Makes.

Lemma segIndex_justified_earlier segs earlier before c :
  segIndex_justified segs before c -> segIndex_justified segs (earlier ++ before) c.
Proof.
  destruct c; simpl; auto.
  intros [H | [e ->]]; [left; exact H | right].
  exists (earlier ++ e). rewrite app_assoc. reflexivity.
Qed.

Lemma indexFile_justified_earlier {W : Type} (E : IndexGc.Env W) earlier before c :
  indexFile_justified E before c -> indexFile_justified E (earlier ++ before) c.
Proof.
  destruct c; simpl; auto.
  - intros (e & buildID & -> & Hparse). exists (earlier ++ e), buildID.
    rewrite app_assoc. auto.
  - intros (e & buildID & segIdx & since & -> & Hsince & Hfile).
    exists (earlier ++ e), buildID, segIdx, since. rewrite app_assoc. auto.
Qed.

Section RecycleProps.
Context {W : Type} (E : IndexGc.Env W).

(** The inner loop of [recycleUnusedIndexFiles] removes single files, none
    of them a file of the segment index. *)
Lemma makes_recycleIndexFile segIdx o :
  makes (fun c => exists file, c = CallRemove file /\ ~ In file (filesMap E segIdx))
        (recycleIndexFile E segIdx o).
Proof.
  unfold recycleIndexFile.
  destruct (Err o); [apply makes_ret |].
  destruct (existsb (String.eqb (Path o)) (filesMap E segIdx)) eqn:Hex; simpl;
    [apply makes_ret |].
  apply makes_bind; [| intros _; apply makes_bind; [apply makes_call | intros _; apply makes_ret]].
  apply makes_record. exists (Path o). split; [reflexivity |].
  intros Hin. assert (Ht : existsb (String.eqb (Path o)) (filesMap E segIdx) = true).
  { apply existsb_exists. exists (Path o). split; [exact Hin | apply String.eqb_refl]. }
  congruence.
Qed.

(** The files removed after an answer of [CleanSegmentIndex] that gave a
    segment index. *)
Lemma each_call_after_clean buildID segIdx (files : list Call) :
  Forall (fun c => exists file, c = CallRemove file /\ ~ In file (filesMap E segIdx)) files ->
  each_call (indexFile_justified E)
    (AskCleanSegmentIndex buildID true (Some segIdx) :: files).
Proof.
  intros HF before c after Heq.
  destruct before as [| b before]; simpl in Heq; inversion Heq; subst; [exact I |].
  rewrite List.Forall_forall in HF.
  assert (Hc : In c (before ++ c :: after)) by (apply in_or_app; right; left; reflexivity).
  destruct (HF c Hc) as (file & -> & Hfile).
  simpl. exists [], buildID, segIdx, before. split; [reflexivity |]. split; [| exact Hfile].
  apply List.Forall_forall. intros x Hx.
  assert (Hx' : In x (before ++ CallRemove file :: after)) by (apply in_or_app; left; exact Hx).
  destruct (HF x Hx') as (f & -> & _). exists f. reflexivity.
Qed.

Lemma call_state {A : Type} (m : M W A) (s : IndexGc.State W) :
  IndexGc.segments (snd (IndexGc.call m s)) = IndexGc.segments s
  /\ IndexGc.calls (snd (IndexGc.call m s)) = IndexGc.calls s.
Proof. unfold IndexGc.call. destruct (m (IndexGc.world s)). split; reflexivity. Qed.

Lemma justifies_recycleIndexDir o :
  justifies (indexFile_justified E) (recycleIndexDir E o).
Proof.
  unfold recycleIndexDir. destruct (Err o); [apply justifies_ret |].
  destruct (parseBuildIDFromFilePath E (Path o)) as [buildID |] eqn:Hparse;
    [| apply justifies_ret].
  intros s. rewrite bind_run.
  destruct (call_state (CleanSegmentIndex E buildID) s) as [Hs0 Hc0].
  destruct (IndexGc.call (CleanSegmentIndex E buildID) s) as [[can segIdx] s0].
  cbn [fst snd] in *. rewrite bind_run. unfold IndexGc.record. cbn [fst snd].
  set (s1 := IndexGc.mkState (IndexGc.segments s0)
               (IndexGc.calls s0 ++ [AskCleanSegmentIndex buildID can segIdx])
               (IndexGc.world s0)).
  destruct can; cbn [negb].
  2: { simpl. split; [exact Hs0 |]. eexists. split; [rewrite Hc0; reflexivity |].
       intros before c after Heq. destruct before as [| b [| b' before]]; inversion Heq.
       exact I. }
  destruct segIdx as [segIdx |].
  - assert (Hloop : makes (fun c => exists file, c = CallRemove file
                                      /\ ~ In file (filesMap E segIdx))
                      (l <- IndexGc.call (ListWithPrefix E (Path o) true) ;;
                       IndexGc.forM_ (recycleIndexFile E segIdx) l)).
    { apply makes_bind; [apply makes_call | intros l].
      apply makes_forM. intros o2. apply makes_recycleIndexFile. }
    destruct (Hloop s1) as (Hs & files & Hc & HF).
    split; [rewrite Hs; exact Hs0 |].
    exists (AskCleanSegmentIndex buildID true (Some segIdx) :: files).
    split; [rewrite Hc; unfold s1; simpl; rewrite Hc0, <- app_assoc; reflexivity |].
    apply each_call_after_clean, HF.
  - rewrite bind_run. unfold IndexGc.record. cbn [fst snd].
    rewrite bind_run.
    destruct (call_state (RemoveWithPrefix E (Path o))
                (IndexGc.mkState (IndexGc.segments s1)
                   (IndexGc.calls s1 ++ [CallRemoveWithPrefix (Path o)])
                   (IndexGc.world s1))) as [Hs2 Hc2].
    cbn [ret fst snd]. rewrite Hs2, Hc2. cbn [IndexGc.segments IndexGc.calls s1].
    split; [exact Hs0 |].
    exists [AskCleanSegmentIndex buildID true None; CallRemoveWithPrefix (Path o)].
    split; [rewrite Hc0, <- app_assoc; reflexivity |].
    intros before c after Heq.
    destruct before as [| b [| b' [| b'' before]]]; inversion Heq; subst.
    + exact I.
    + simpl. exists [], buildID. auto.
Qed.

(** The body of the loop of [recycleUnusedSegIndexes] for one segment
    index. *)
Lemma recycleSegIndex_step (segs : list SegmentInfo) (x : SegmentIndex)
    (s : IndexGc.State W) :
  IndexGc.segments s = segs ->
  let body :=
    unused <- segIndexUnused E x ;;
    if unused then
      _ <- IndexGc.record (CallRemoveSegmentIndex x) ;;
      _ <- IndexGc.call (RemoveSegmentIndex E (CollectionID x) (PartitionID x)
                           (SegmentID x) (IndexID x) (BuildID x)) ;;
      ret tt
    else ret tt in
  IndexGc.segments (snd (body s)) = segs
  /\ exists new,
       IndexGc.calls (snd (body s)) = IndexGc.calls s ++ new
       /\ each_call (segIndex_justified segs) new
       /\ (GetSegment (SegmentID x) segs = None -> In (CallRemoveSegmentIndex x) new).
Proof.
  intros Hsegs body. subst body. rewrite bind_run. unfold segIndexUnused.
  rewrite bind_run. unfold IndexGc.getSegments. cbn [fst snd]. rewrite Hsegs.
  destruct (GetSegment (SegmentID x) segs) as [found |] eqn:Hg.
  - rewrite bind_run.
    destruct (call_state (IsIndexExist E (CollectionID x) (IndexID x)) s) as [Hs0 Hc0].
    destruct (IndexGc.call (IsIndexExist E (CollectionID x) (IndexID x)) s) as [ex s0].
    cbn [fst snd] in *. rewrite bind_run. unfold IndexGc.record. cbn [fst snd ret].
    destruct ex; cbn [negb fst snd].
    + unfold ret. cbn [fst snd IndexGc.segments IndexGc.calls].
      split; [congruence |]. eexists.
      split; [rewrite Hc0; reflexivity |].
      split; [| discriminate].
      intros before c after Heq. destruct before as [| b [| b' before]]; inversion Heq.
      exact I.
    + rewrite bind_run. unfold IndexGc.record. cbn [fst snd]. rewrite bind_run.
      match goal with
      | |- context [IndexGc.call ?m ?st] =>
          destruct (call_state m st) as [Hs2 Hc2]
      end.
      cbn [ret fst snd]. rewrite Hs2, Hc2. cbn [IndexGc.segments IndexGc.calls].
      split; [congruence |].
      exists [AskIsIndexExist (CollectionID x) (IndexID x) false; CallRemoveSegmentIndex x].
      split; [rewrite Hc0, <- app_assoc; reflexivity |]. split; [| discriminate].
      intros before c after Heq.
      destruct before as [| b [| b' [| b'' before]]]; inversion Heq; subst.
      * exact I.
      * simpl. right. exists []. reflexivity.
  - cbn [ret fst snd].
    rewrite bind_run. unfold IndexGc.record. cbn [fst snd]. rewrite bind_run.
    match goal with
    | |- context [IndexGc.call ?m ?st] =>
        destruct (call_state m st) as [Hs2 Hc2]
    end.
    cbn [ret fst snd]. rewrite Hs2, Hc2. cbn [IndexGc.segments IndexGc.calls].
    split; [first [exact Hsegs | reflexivity] |]. exists [CallRemoveSegmentIndex x].
    split; [reflexivity |]. split; [| intros _; left; reflexivity].
    intros before c after Heq.
    destruct before as [| b [| b' before]]; inversion Heq; subst.
    simpl. left. exact Hg.
Qed.

Lemma recycleSegIndexes_loop (segs : list SegmentInfo) (l : list SegmentIndex)
    (s : IndexGc.State W) :
  IndexGc.segments s = segs ->
  let body := fun segIdx =>
    unused <- segIndexUnused E segIdx ;;
    if unused then
      _ <- IndexGc.record (CallRemoveSegmentIndex segIdx) ;;
      _ <- IndexGc.call (RemoveSegmentIndex E (CollectionID segIdx) (PartitionID segIdx)
                           (SegmentID segIdx) (IndexID segIdx) (BuildID segIdx)) ;;
      ret tt
    else ret tt in
  let s' := snd (IndexGc.forM_ body l s) in
  IndexGc.segments s' = segs
  /\ exists new, IndexGc.calls s' = IndexGc.calls s ++ new
       /\ each_call (segIndex_justified segs) new
       /\ (forall x, In x l -> GetSegment (SegmentID x) segs = None ->
                     In (CallRemoveSegmentIndex x) new).
Proof.
  intros Hsegs body. revert s Hsegs. induction l as [| x l IH]; intros s Hsegs; simpl.
  - split; [exact Hsegs |]. exists []. rewrite app_nil_r.
    split; [reflexivity |]. split; [| intros y []].
    apply each_call_nil.
  - rewrite bind_run.
    destruct (recycleSegIndex_step segs x s Hsegs) as (Hseg1 & new1 & Hc1 & HJ1 & Hin1).
    fold (body x) in Hseg1, Hc1.
    destruct (IH (snd (body x s)) Hseg1) as (Hseg2 & new2 & Hc2 & HJ2 & Hin2).
    split; [exact Hseg2 |].
    exists (new1 ++ new2). rewrite Hc2, Hc1, app_assoc. split; [reflexivity |].
    split; [apply each_call_app; auto using segIndex_justified_earlier |].
    intros y [<- | Hy] Hnone; apply in_or_app; [left | right]; auto.
Qed.

End RecycleProps.

(** X23.  [recycleUnusedSegIndexes] asks for the removal of a segment index only
    when its segment is not in the meta, or when it has just asked the index
    meta whether the index of the segment index exists and the answer was no;
    and it does ask for the removal of every listed segment index whose
    segment is not in the meta.  It leaves the segments alone. *)
Theorem recycleUnusedSegIndexes_orphans :
  forall (W : Type) (E : IndexGc.Env W) (s : IndexGc.State W),
    let s' := snd (recycleUnusedSegIndexes E s) in
    IndexGc.segments s' = IndexGc.segments s
    /\ exists new, IndexGc.calls s' = IndexGc.calls s ++ new
         /\ (forall before c after,
               new = before ++ c :: after ->
               segIndex_justified (IndexGc.segments s) before c)
         /\ (forall segIdx,
               In segIdx (fst (GetAllSegIndexes E (IndexGc.world s))) ->
               GetSegment (SegmentID segIdx) (IndexGc.segments s) = None ->
               In (CallRemoveSegmentIndex segIdx) new).
Proof.
  intros W E s s'. subst s'. unfold recycleUnusedSegIndexes. rewrite bind_run.
  destruct (call_state (GetAllSegIndexes E) s) as [Hs0 Hc0].
  assert (Hl : fst (IndexGc.call (GetAllSegIndexes E) s)
               = fst (GetAllSegIndexes E (IndexGc.world s))).
  { unfold IndexGc.call. destruct (GetAllSegIndexes E (IndexGc.world s)). reflexivity. }
  rewrite <- Hl.
  set (r := IndexGc.call (GetAllSegIndexes E) s) in *.
  destruct (recycleSegIndexes_loop E (IndexGc.segments s) (fst r) (snd r) Hs0)
    as (Hseg & new & Hc & HJ & Hin).
  split; [exact Hseg |]. exists new. rewrite <- Hc0.
  split; [exact Hc |]. split; [exact HJ | exact Hin].
Qed.

(** X24.  [recycleUnusedIndexFiles] removes everything under the key of a build
    only when it has just asked [CleanSegmentIndex] about that build and the
    answer was that the build can be recycled and has no segment index; it
    removes a single file only when the last answer of [CleanSegmentIndex]
    allowed recycling and gave a segment index whose files do not include the
    file: a file the index meta lists for the build is never removed.  It
    leaves the segments alone. *)
Theorem recycleUnusedIndexFiles_spares_meta_files :
  forall (W : Type) (E : IndexGc.Env W) (s : IndexGc.State W),
    let s' := snd (recycleUnusedIndexFiles E s) in
    IndexGc.segments s' = IndexGc.segments s
    /\ exists new, IndexGc.calls s' = IndexGc.calls s ++ new
         /\ forall before c after,
              new = before ++ c :: after -> indexFile_justified E before c.
Proof.
  intros W E s s'. subst s'.
  assert (H : justifies (indexFile_justified E) (recycleUnusedIndexFiles E)).
  { unfold recycleUnusedIndexFiles.
    apply justifies_bind; [apply indexFile_justified_earlier | apply justifies_call |].
    intros l. apply justifies_forM; [apply indexFile_justified_earlier |].
    intros o. apply justifies_recycleIndexDir. }
  destruct (H s) as (Hseg & new & Hc & HJ). split; [exact Hseg |].
  exists new. split; [exact Hc | exact HJ].
Qed.
